(** * Kaleidoscope front end ([toy.cpp]): scanner and recursive-descent parser

    A shallow embedding of the lexer [gettok], the precedence table and the
    parse routines of [toy.cpp], followed by the properties of the
    specification that they satisfy or break.

    The program keeps all of its state in file-level variables; the
    embedding threads one record [State] holding them through every
    routine.  Loops that the source writes with [while] and [do ... while]
    are run by a fuel-bounded combinator: [None] means that the fuel ran
    out, a result [Some _] is the value the C++ code returns. *)

From Stdlib Require Import ZArith QArith String Ascii List Bool Lia.
From stdpp Require Import gmap.
Import ListNotations.

Set Warnings "-register-all".

Local Open Scope string_scope.
Local Open Scope Z_scope.

(** ** Characters and the [<cctype>] classification in the C locale *)

(** [getchar] hands back an [unsigned char] converted to [int]. *)
Definition chr (c : ascii) : Z := Z.of_N (N_of_ascii c).

(** Conversion of an [int] to [char], as done by [IdentifierStr += LastChar].
    Only the low eight bits survive. *)
Definition to_char (z : Z) : ascii := ascii_of_N (Z.to_N (z mod 256)).

Definition EOF : Z := -1.

Definition isspace (c : Z) : bool := (c =? 32) || ((9 <=? c) && (c <=? 13)).
Definition isdigit (c : Z) : bool := (48 <=? c) && (c <=? 57).
Definition isalpha (c : Z) : bool :=
  ((65 <=? c) && (c <=? 90)) || ((97 <=? c) && (c <=? 122)).
Definition isalnum (c : Z) : bool := isalpha c || isdigit c.
Definition isascii (c : Z) : bool := (0 <=? c) && (c <=? 127).

(** ** Tokens *)

Definition tok_eof : Z := -1.
Definition tok_def : Z := -2.
Definition tok_extern : Z := -3.
Definition tok_identifier : Z := -4.
Definition tok_number : Z := -5.

(** ** Fuel-bounded loops

    [while_loop fuel cond body a] runs [while (cond) body;] from the loop
    state [a].  The condition may itself change the state, as in
    [while (isalnum(LastChar = getchar()))]. *)
Fixpoint while_loop {A : Type} (fuel : nat) (cond : A -> bool * A)
    (body : A -> A) (a : A) : option A :=
  match fuel with
  | O => None
  | S n =>
      let (b, a1) := cond a in
      if b then while_loop n cond body (body a1) else Some a1
  end.

(** [do body while (cond);] *)
Definition do_while {A : Type} (fuel : nat) (body : A -> A)
    (cond : A -> bool * A) (a : A) : option A :=
  while_loop fuel cond body (body a).

Section Toy.

(** The C [double] and the library routine [strtod] are not part of the
    program; they are taken as given. *)
Variable double : Type.
Variable strtod : string -> double.
(** The value [0.0] that the static [NumVal] starts with. *)
Variable zero : double.

(** ** The abstract syntax tree *)

Inductive ExprAST : Type :=
| NumberExprAST (Val : double)
| VariableExprAST (Name : string)
| BinaryExprAST (Op : ascii) (LHS RHS : ExprAST)
| CallExprAST (Callee : string) (Args : list ExprAST).

Inductive PrototypeAST : Type :=
| MkPrototypeAST (Name : string) (Args : list string).

Inductive FunctionAST : Type :=
| MkFunctionAST (Proto : PrototypeAST) (Body : ExprAST).

(** ** Program state: the globals of [toy.cpp], [stdin] and [stderr] *)

Record State : Type := MkState {
  input : string;                 (* what is left to read on stdin *)
  feof : bool;                    (* end-of-file indicator of stdin *)
  LastChar : Z;                   (* static local of gettok *)
  IdentifierStr : string;
  NumVal : double;
  CurTok : Z;
  BinopPrecedence : gmap Z Z;     (* std::map<char, int>, keyed by char code *)
  stderr : list string            (* the messages given to Error, oldest
                                     first; the prompt of the driver is
                                     left out *)
}.

Definition set_input (v : string) (s : State) : State :=
  MkState v (feof s) (LastChar s) (IdentifierStr s) (NumVal s) (CurTok s)
          (BinopPrecedence s) (stderr s).
Definition set_feof (v : bool) (s : State) : State :=
  MkState (input s) v (LastChar s) (IdentifierStr s) (NumVal s) (CurTok s)
          (BinopPrecedence s) (stderr s).
Definition set_LastChar (v : Z) (s : State) : State :=
  MkState (input s) (feof s) v (IdentifierStr s) (NumVal s) (CurTok s)
          (BinopPrecedence s) (stderr s).
Definition set_IdentifierStr (v : string) (s : State) : State :=
  MkState (input s) (feof s) (LastChar s) v (NumVal s) (CurTok s)
          (BinopPrecedence s) (stderr s).
Definition set_NumVal (v : double) (s : State) : State :=
  MkState (input s) (feof s) (LastChar s) (IdentifierStr s) v (CurTok s)
          (BinopPrecedence s) (stderr s).
Definition set_CurTok (v : Z) (s : State) : State :=
  MkState (input s) (feof s) (LastChar s) (IdentifierStr s) (NumVal s) v
          (BinopPrecedence s) (stderr s).
Definition set_BinopPrecedence (v : gmap Z Z) (s : State) : State :=
  MkState (input s) (feof s) (LastChar s) (IdentifierStr s) (NumVal s)
          (CurTok s) v (stderr s).
Definition set_stderr (v : list string) (s : State) : State :=
  MkState (input s) (feof s) (LastChar s) (IdentifierStr s) (NumVal s)
          (CurTok s) (BinopPrecedence s) v.

(** ** The scanner *)

(** [getchar()]: the next byte of stdin, or [EOF] once it is exhausted
    (the end-of-file indicator is then set and stays set). *)
Definition getchar (s : State) : Z * State :=
  match input s with
  | EmptyString => (EOF, set_feof true s)
  | String c rest => (chr c, set_input rest s)
  end.

(** [LastChar = getchar();] *)
Definition read_LastChar (s : State) : State :=
  let (c, s1) := getchar s in set_LastChar c s1.

(** Lines 61-68: the end-of-stream test and the single-character token. *)
Definition gettok_tail (s : State) : Z * State :=
  if LastChar s =? EOF then (tok_eof, s)
  else
    let ThisChar := LastChar s in
    (ThisChar, read_LastChar s).

(** Line 22: [while (isspace(LastChar)) LastChar = getchar();] *)
Definition skip_space (fuel : nat) (s : State) : option State :=
  while_loop fuel (fun s => (isspace (LastChar s), s)) read_LastChar s.

(** Lines 30-32:
    [while (isalnum(LastChar = getchar())) IdentifierStr += LastChar;] *)
Definition scan_identifier (fuel : nat) (s : State) : option State :=
  while_loop fuel
    (fun s => let s' := read_LastChar s in (isalnum (LastChar s'), s'))
    (fun s => set_IdentifierStr
                (String.append (IdentifierStr s)
                   (String (to_char (LastChar s)) EmptyString)) s)
    s.

(** Lines 46-49:
    [do { NumStr += LastChar; LastChar = getchar(); }
     while (isdigit(LastChar) || LastChar == '.');]
    The loop state pairs the local [NumStr] with the globals. *)
Definition scan_number (fuel : nat) (NumStr : string) (s : State)
    : option (string * State) :=
  do_while fuel
    (fun a : string * State =>
       let (NumStr, s) := a in
       (String.append NumStr (String (to_char (LastChar s)) EmptyString),
        read_LastChar s))
    (fun a : string * State =>
       (isdigit (LastChar (snd a)) || (LastChar (snd a) =? chr "."), a))
    (NumStr, s).

(** Line 55:
    [do {} while (LastChar != EOF && LastChar != '\n' && LastChar != '\r');]
    The body is empty. *)
Definition skip_comment (fuel : nat) (s : State) : option State :=
  do_while fuel (fun s => s)
    (fun s => (negb (LastChar s =? EOF) && negb (LastChar s =? 10)
               && negb (LastChar s =? 13), s))
    s.

Fixpoint gettok (fuel : nat) (s : State) : option (Z * State) :=
  match fuel with
  | O => None
  | S n =>
    match skip_space fuel s with
    | None => None
    | Some s1 =>
      if isalpha (LastChar s1) then
        (* IdentifierStr = LastChar; *)
        let s2 :=
          set_IdentifierStr (String (to_char (LastChar s1)) EmptyString) s1 in
        match scan_identifier fuel s2 with
        | None => None
        | Some s3 =>
          if String.eqb (IdentifierStr s3) "def" then Some (tok_def, s3)
          else if String.eqb (IdentifierStr s3) "extern"
               then Some (tok_extern, s3)
          else Some (tok_identifier, s3)
        end
      else if isdigit (LastChar s1) || (LastChar s1 =? chr ".") then
        match scan_number fuel EmptyString s1 with
        | None => None
        | Some (NumStr, s2) => Some (tok_number, set_NumVal (strtod NumStr) s2)
        end
      else if LastChar s1 =? chr "#" then
        match skip_comment fuel s1 with
        | None => None
        | Some s2 =>
          if negb (LastChar s2 =? EOF) then gettok n s2
          else Some (gettok_tail s2)
        end
      else Some (gettok_tail s1)
    end
  end.

(** [return CurTok = gettok();] *)
Definition getNextToken (fuel : nat) (s : State) : option (Z * State) :=
  match gettok fuel s with
  | None => None
  | Some (t, s1) => Some (t, set_CurTok t s1)
  end.

(** ** Error reporting

    [Error] prints the line [Error Str] on stderr and returns a null
    pointer; [ErrorP] and [ErrorF] do the same at the other two pointer
    types.  A null pointer is [None]; the log keeps [Str]. *)
Definition Error {A : Type} (Str : string) (s : State) : option A * State :=
  (None, set_stderr (stderr s ++ [Str])%list s).
Definition ErrorP (Str : string) (s : State) : option PrototypeAST * State :=
  Error Str s.
Definition ErrorF (Str : string) (s : State) : option FunctionAST * State :=
  Error Str s.

(** ** Operator precedence *)

(** [m[k]] of [std::map<char,int>]: a missing key is first inserted with
    the value-initialised [int], that is [0]. *)
Definition map_index (k : Z) (m : gmap Z Z) : Z * gmap Z Z :=
  match m !! k with
  | Some v => (v, m)
  | None => (0, <[k := 0]> m)
  end.

(** On the values that pass [isascii] the conversion of [CurTok] to the
    [char] key is the identity, so the key is [CurTok] itself. *)
Definition GetTokPrecedence (s : State) : Z * State :=
  if negb (isascii (CurTok s)) then (-1, s)
  else
    let (TokPrec, m) := map_index (CurTok s) (BinopPrecedence s) in
    let s1 := set_BinopPrecedence m s in
    if TokPrec <? 0 then (-1, s1) else (TokPrec, s1).

(** ** The parser *)

Definition Res (A : Type) : Type := option (option A * State).

(** numberexpr ::= number *)
Definition ParseNumber (fuel : nat) (s : State) : Res ExprAST :=
  let Result := NumberExprAST (NumVal s) in
  match getNextToken fuel s with
  | None => None
  | Some (_, s1) => Some (Some Result, s1)
  end.

(** The routines for expressions call one another; each call spends one
    unit of fuel.  [ParseCallArgs] is the [while (1)] loop of
    [ParseIdentifierExpr], with [Args] the vector built so far; a pass of
    the [while (1)] loop of [ParseBinOpRHS] is a call of [ParseBinOpRHS]
    with the new [LHS].  Precedences are [int]s in the source; the values
    that the program ever stores (0, 10, 20, 40) and the sums
    [TokPrec + 1] are far from the bounds of [int], and [Z] stands for
    them. *)
Fixpoint ParsePrimary (fuel : nat) (s : State) {struct fuel} : Res ExprAST :=
  match fuel with
  | O => None
  | S n =>
    if CurTok s =? tok_identifier then ParseIdentifierExpr n s
    else if CurTok s =? tok_number then ParseNumber n s
    else if CurTok s =? chr "(" then ParseParenExpr n s
    else Some (Error "unknown token when expecting an expression" s)
  end

with ParseBinOpRHS (fuel : nat) (ExprPrec : Z) (LHS : ExprAST) (s : State)
    {struct fuel} : Res ExprAST :=
  match fuel with
  | O => None
  | S n =>
    let (TokPrec, s1) := GetTokPrecedence s in
    if TokPrec <? ExprPrec then Some (Some LHS, s1)
    else
      let BinOp := CurTok s1 in
      match getNextToken n s1 with
      | None => None
      | Some (_, s2) =>
        match ParsePrimary n s2 with
        | None => None
        | Some (None, s3) => Some (None, s3)
        | Some (Some RHS, s3) =>
          let (NextPrec, s4) := GetTokPrecedence s3 in
          if TokPrec <? NextPrec then
            match ParseBinOpRHS n (TokPrec + 1) RHS s4 with
            | None => None
            | Some (None, s5) => Some (None, s5)
            | Some (Some RHS', s5) =>
              ParseBinOpRHS n ExprPrec
                (BinaryExprAST (to_char BinOp) LHS RHS') s5
            end
          else
            ParseBinOpRHS n ExprPrec (BinaryExprAST (to_char BinOp) LHS RHS) s4
        end
      end
  end

with ParseExpression (fuel : nat) (s : State) {struct fuel} : Res ExprAST :=
  match fuel with
  | O => None
  | S n =>
    match ParsePrimary n s with
    | None => None
    | Some (None, s1) => Some (None, s1)
    | Some (Some LHS, s1) => ParseBinOpRHS n 0 LHS s1
    end
  end

with ParseParenExpr (fuel : nat) (s : State) {struct fuel} : Res ExprAST :=
  match fuel with
  | O => None
  | S n =>
    match getNextToken n s with
    | None => None
    | Some (_, s1) =>
      match ParseExpression n s1 with
      | None => None
      | Some (None, s2) => Some (None, s2)
      | Some (Some V, s2) =>
        if negb (CurTok s2 =? chr ")") then Some (Error "expected ')'" s2)
        else
          match getNextToken n s2 with
          | None => None
          | Some (_, s3) => Some (Some V, s3)
          end
      end
    end
  end

with ParseIdentifierExpr (fuel : nat) (s : State) {struct fuel}
    : Res ExprAST :=
  match fuel with
  | O => None
  | S n =>
    let IdName := IdentifierStr s in
    match getNextToken n s with
    | None => None
    | Some (_, s1) =>
      if negb (CurTok s1 =? chr "(") then Some (Some (VariableExprAST IdName), s1)
      else
        match getNextToken n s1 with
        | None => None
        | Some (_, s2) =>
          match (if negb (CurTok s2 =? chr ")") then ParseCallArgs n [] s2
                 else Some (Some [], s2)) with
          | None => None
          | Some (None, s3) => Some (None, s3)
          | Some (Some Args, s3) =>
            match getNextToken n s3 with
            | None => None
            | Some (_, s4) => Some (Some (CallExprAST IdName Args), s4)
            end
          end
        end
    end
  end

with ParseCallArgs (fuel : nat) (Args : list ExprAST) (s : State)
    {struct fuel} : Res (list ExprAST) :=
  match fuel with
  | O => None
  | S n =>
    match ParseExpression n s with
    | None => None
    | Some (None, s1) => Some (None, s1)
    | Some (Some Arg, s1) =>
      let Args := (Args ++ [Arg])%list in
      if CurTok s1 =? chr ")" then Some (Some Args, s1)
      else if negb (CurTok s1 =? chr ",")
           then Some (Error "Expected ')' or ',' in argument list" s1)
      else
        match getNextToken n s1 with
        | None => None
        | Some (_, s2) => ParseCallArgs n Args s2
        end
    end
  end.

(** [while (getNextToken() == tok_identifier) ArgNames.push_back(IdentifierStr);] *)
Fixpoint ParsePrototype_args (fuel : nat) (ArgNames : list string) (s : State)
    : option (list string * State) :=
  match fuel with
  | O => None
  | S n =>
    match getNextToken n s with
    | None => None
    | Some (t, s1) =>
      if t =? tok_identifier
      then ParsePrototype_args n (ArgNames ++ [IdentifierStr s1])%list s1
      else Some (ArgNames, s1)
    end
  end.

Definition ParsePrototype (fuel : nat) (s : State) : Res PrototypeAST :=
  if negb (CurTok s =? tok_identifier)
  then Some (ErrorP "Expected function name in prototype" s)
  else
    let FnName := IdentifierStr s in
    match getNextToken fuel s with
    | None => None
    | Some (_, s1) =>
      if negb (CurTok s1 =? chr "(")
      then Some (ErrorP "Expected '(' in prototype" s1)
      else
        match ParsePrototype_args fuel [] s1 with
        | None => None
        | Some (ArgNames, s2) =>
          if negb (CurTok s2 =? chr ")")
          then Some (ErrorP "Expected ')' in protoype" s2)
          else
            match getNextToken fuel s2 with
            | None => None
            | Some (_, s3) => Some (Some (MkPrototypeAST FnName ArgNames), s3)
            end
        end
    end.

(** definition ::= 'def' prototype expression *)
Definition ParseDefintion (fuel : nat) (s : State) : Res FunctionAST :=
  match getNextToken fuel s with
  | None => None
  | Some (_, s1) =>
    match ParsePrototype fuel s1 with
    | None => None
    | Some (None, s2) => Some (None, s2)
    | Some (Some Proto, s2) =>
      match ParseExpression fuel s2 with
      | None => None
      | Some (Some E, s3) => Some (Some (MkFunctionAST Proto E), s3)
      | Some (None, s3) => Some (None, s3)
      end
    end
  end.

Definition ParseExtern (fuel : nat) (s : State) : Res PrototypeAST :=
  match getNextToken fuel s with
  | None => None
  | Some (_, s1) => ParsePrototype fuel s1
  end.

Definition ParseTopLevelExpr (fuel : nat) (s : State) : Res FunctionAST :=
  match ParseExpression fuel s with
  | None => None
  | Some (Some E, s1) =>
    let Proto := MkPrototypeAST EmptyString [] in
    Some (Some (MkFunctionAST Proto E), s1)
  | Some (None, s1) => Some (None, s1)
  end.

(** ** Start of the program *)

(** The globals before [main] runs, with [text] waiting on stdin. *)
Definition start (text : string) : State :=
  MkState text false (chr " ") EmptyString zero 0 ∅ [].

(** The four assignments at the head of [main]. *)
Definition seed_table (m : gmap Z Z) : gmap Z Z :=
  <[chr "*" := 40]> (<[chr "-" := 20]> (<[chr "+" := 20]>
    (<[chr "<" := 10]> m))).

Definition seed (s : State) : State :=
  set_BinopPrecedence (seed_table (BinopPrecedence s)) s.

(** [main] up to the call of [MainLoop]: the table is seeded and the first
    token is loaded. *)
Definition main_init (fuel : nat) (text : string) : option State :=
  match getNextToken fuel (seed (start text)) with
  | None => None
  | Some (_, s) => Some s
  end.

End Toy.

Arguments NumberExprAST {double} Val.
Arguments VariableExprAST {double} Name.
Arguments BinaryExprAST {double} Op LHS RHS.
Arguments CallExprAST {double} Callee Args.
Arguments MkFunctionAST {double} Proto Body.
Arguments MkState {double}.
Arguments input {double} s.
Arguments feof {double} s.
Arguments LastChar {double} s.
Arguments IdentifierStr {double} s.
Arguments NumVal {double} s.
Arguments CurTok {double} s.
Arguments BinopPrecedence {double} s.
Arguments stderr {double} s.
Arguments set_input {double} v s.
Arguments set_feof {double} v s.
Arguments set_LastChar {double} v s.
Arguments set_IdentifierStr {double} v s.
Arguments set_NumVal {double} v s.
Arguments set_CurTok {double} v s.
Arguments set_BinopPrecedence {double} v s.
Arguments set_stderr {double} v s.
Arguments getchar {double} s.
Arguments read_LastChar {double} s.
Arguments gettok_tail {double} s.
Arguments skip_space {double} fuel s.
Arguments scan_identifier {double} fuel s.
Arguments scan_number {double} fuel NumStr s.
Arguments skip_comment {double} fuel s.
Arguments gettok {double} strtod fuel s.
Arguments getNextToken {double} strtod fuel s.
Arguments Error {double A} Str s.
Arguments ErrorP {double} Str s.
Arguments ErrorF {double} Str s.
Arguments GetTokPrecedence {double} s.
Arguments ParseNumber {double} strtod fuel s.
Arguments ParsePrimary {double} strtod fuel s.
Arguments ParseBinOpRHS {double} strtod fuel ExprPrec LHS s.
Arguments ParseExpression {double} strtod fuel s.
Arguments ParseParenExpr {double} strtod fuel s.
Arguments ParseIdentifierExpr {double} strtod fuel s.
Arguments ParseCallArgs {double} strtod fuel Args s.
Arguments ParsePrototype_args {double} strtod fuel ArgNames s.
Arguments ParsePrototype {double} strtod fuel s.
Arguments ParseDefintion {double} strtod fuel s.
Arguments ParseExtern {double} strtod fuel s.
Arguments ParseTopLevelExpr {double} strtod fuel s.
Arguments start {double} zero text.
Arguments seed {double} s.
Arguments seed_table m : simpl never.
Arguments main_init {double} strtod zero fuel text.

(** ** Vocabulary of the statements *)

(** Every character of [x] satisfies [p]. *)
Fixpoint string_forall (p : Z -> bool) (x : string) : bool :=
  match x with
  | EmptyString => true
  | String c r => p (chr c) && string_forall p r
  end.

(** [x] is empty or starts with a character that fails [p]: a run of
    [p]-characters ends in front of [x]. *)
Definition stops (p : Z -> bool) (x : string) : bool :=
  match x with
  | EmptyString => true
  | String c _ => negb (p (chr c))
  end.

Definition chars (x : string) : list Z := map chr (list_ascii_of_string x).

(** What the scanner is about to look at: the lookahead character, then
    the unread input. *)
Definition stream {double : Type} (s : State double) : list Z :=
  LastChar s :: chars (input s).

Definition isnumchar (c : Z) : bool := isdigit c || (c =? chr ".").

(** Once stdin has reported end-of-file nothing is left to read and the
    lookahead is [EOF]. *)
Definition EofInv {double : Type} (s : State double) : Prop :=
  feof s = true -> LastChar s = EOF /\ input s = EmptyString.

(** The tokens returned by [k] successive calls of [gettok]. *)
Fixpoint gettoks {double : Type} (strtod : string -> double) (fuel k : nat)
    (s : State double) : option (list Z * State double) :=
  match k with
  | O => Some ([], s)
  | S k' =>
    match gettok strtod fuel s with
    | None => None
    | Some (t, s1) =>
      match gettoks strtod fuel k' s1 with
      | None => None
      | Some (ts, s2) => Some (t :: ts, s2)
      end
    end
  end.

(** The part of the state that the scanner never touches. *)
Definition parser_fields {double : Type} (s : State double)
    : Z * gmap Z Z * list string :=
  (CurTok s, BinopPrecedence s, stderr s).

(** One operation of the front end, seen as a step from state to state;
    the driver of [toy.cpp] strings such steps together. *)
Inductive Step {double : Type} (strtod : string -> double)
    : State double -> State double -> Prop :=
| Step_getNextToken fuel s t s' :
    getNextToken strtod fuel s = Some (t, s') -> Step strtod s s'
| Step_GetTokPrecedence s p s' :
    GetTokPrecedence s = (p, s') -> Step strtod s s'
| Step_ParsePrimary fuel s r s' :
    ParsePrimary strtod fuel s = Some (r, s') -> Step strtod s s'
| Step_ParseBinOpRHS fuel p l s r s' :
    ParseBinOpRHS strtod fuel p l s = Some (r, s') -> Step strtod s s'
| Step_ParseExpression fuel s r s' :
    ParseExpression strtod fuel s = Some (r, s') -> Step strtod s s'
| Step_ParsePrototype fuel s r s' :
    ParsePrototype strtod fuel s = Some (r, s') -> Step strtod s s'
| Step_ParseDefintion fuel s r s' :
    ParseDefintion strtod fuel s = Some (r, s') -> Step strtod s s'
| Step_ParseExtern fuel s r s' :
    ParseExtern strtod fuel s = Some (r, s') -> Step strtod s s'
| Step_ParseTopLevelExpr fuel s r s' :
    ParseTopLevelExpr strtod fuel s = Some (r, s') -> Step strtod s s'.

(** [Later strtod s s']: the program can get from [s] to [s'] by any number
    of such steps. *)
Definition Later {double : Type} (strtod : string -> double)
    : State double -> State double -> Prop :=
  rtc (Step strtod).


(** [main] started on [text], then one call of the routine [parse] on the
    state it has reached: what the driver does with its first construct. *)
Definition from_text {double A : Type} (strtod : string -> double)
    (zero : double)
    (parse : nat -> State double -> option (option A * State double))
    (fuel : nat) (text : string) : option (option A * State double) :=
  match main_init strtod zero fuel text with
  | None => None
  | Some s => parse fuel s
  end.

(** The tokens that make a routine print the message [msg]. *)
Definition offending (msg : string) (tok : Z) : Prop :=
  (msg = "unknown token when expecting an expression"
   /\ tok <> tok_identifier /\ tok <> tok_number /\ tok <> chr "(")
  \/ (msg = "Expected function name in prototype" /\ tok <> tok_identifier)
  \/ (msg = "Expected '(' in prototype" /\ tok <> chr "(")
  \/ (msg = "Expected ')' in protoype" /\ tok <> chr ")")
  \/ (msg = "expected ')'" /\ tok <> chr ")")
  \/ (msg = "Expected ')' or ',' in argument list"
      /\ tok <> chr ")" /\ tok <> chr ",").

(** [s'] is a state in which an offending token has just been reported:
    it differs from the state [s0] of the detection by the one message
    only, so [CurTok] still is the offending token and nothing was read
    after it. *)
Definition Rejected {double : Type} (s' : State double) : Prop :=
  exists s0 msg,
    s' = set_stderr (stderr s0 ++ [msg])%list s0 /\ offending msg (CurTok s0).

(** No entry of the table is negative; [main] seeds it so. *)
Definition table_nonneg {double : Type} (s : State double) : Prop :=
  forall k v, BinopPrecedence s !! k = Some v -> 0 <= v.

(** ** Operator chains

    An operator chain is a first operand followed by pairs of an operator
    character and an operand.  [AtOperand strtod s a rest] says that in the
    state [s] the current token is the operand [a] (a number or a
    variable) and that the scanner goes on to deliver the chain [rest] and
    then a token that is not an ASCII character, such as the end of the
    stream; [AtOperator] is the same seen from the token after an
    operand. *)
Inductive AtOperand {double : Type} (strtod : string -> double)
    : State double -> ExprAST double -> list (ascii * ExprAST double) -> Prop :=
| AtNumber s n t s' rest :
    CurTok s = tok_number ->
    getNextToken strtod n s = Some (t, s') ->
    AtOperator strtod s' rest ->
    AtOperand strtod s (NumberExprAST (NumVal s)) rest
| AtVariable s n t s' rest :
    CurTok s = tok_identifier ->
    getNextToken strtod n s = Some (t, s') ->
    AtOperator strtod s' rest ->
    AtOperand strtod s (VariableExprAST (IdentifierStr s)) rest
with AtOperator {double : Type} (strtod : string -> double)
    : State double -> list (ascii * ExprAST double) -> Prop :=
| AtEnd s :
    isascii (CurTok s) = false ->
    AtOperator strtod s []
| AtOp s op n t s' a rest :
    CurTok s = chr op ->
    getNextToken strtod n s = Some (t, s') ->
    AtOperand strtod s' a rest ->
    AtOperator strtod s ((op, a) :: rest).

(** The operands and operators of a tree from left to right; every node
    that is not a binary expression counts as one operand. *)
Fixpoint flatten {double : Type} (e : ExprAST double)
    : list (ExprAST double + ascii) :=
  match e with
  | BinaryExprAST op l r => flatten l ++ inr op :: flatten r
  | _ => [inl e]
  end.

Fixpoint flat {double : Type} (rest : list (ascii * ExprAST double))
    : list (ExprAST double + ascii) :=
  match rest with
  | [] => []
  | (op, a) :: rest' => inr op :: inl a :: flat rest'
  end.

(** The precedence that the table [m] gives to an operator. *)
Definition prec_in (m : gmap Z Z) (op : ascii) : Z := default 0 (m !! chr op).

(** An operator of the language: an ASCII character other than the opening
    parenthesis that the table holds with a precedence that is not
    negative. *)
Definition valid_op (m : gmap Z Z) (op : ascii) : Prop :=
  isascii (chr op) = true /\ op <> "("%char
  /\ exists p, m !! chr op = Some p /\ 0 <= p.

(** The root of [e], when it is a binary expression, has an operator of
    precedence [k] at least. *)
Definition root_ge {double : Type} (m : gmap Z Z) (k : Z)
    (e : ExprAST double) : Prop :=
  match e with
  | BinaryExprAST op _ _ => k <= prec_in m op
  | _ => True
  end.

(** The shape that precedence and left associativity prescribe: under an
    operator, the left operand has no looser operator at its root and the
    right operand only tighter ones, all the way down. *)
Fixpoint shaped {double : Type} (m : gmap Z Z) (e : ExprAST double) : Prop :=
  match e with
  | BinaryExprAST op l r =>
    shaped m l /\ shaped m r
    /\ root_ge m (prec_in m op) l /\ root_ge m (prec_in m op + 1) r
  | _ => True
  end.

(** The precedence of the operator at the head of a chain, [-1] at its
    end. *)
Definition next_prec {double : Type} (m : gmap Z Z)
    (rest : list (ascii * ExprAST double)) : Z :=
  match rest with
  | [] => -1
  | (op, _) :: _ => prec_in m op
  end.

(** ** The text of an operator chain

    An operand is written as a number (digits and dots) or as a variable
    (a letter, then letters and digits, other than the two keywords); a
    link of the chain is one of the four operators that [main] puts in
    the table, followed by an operand; any white space may precede an
    operator or an operand. *)
Inductive operand : Type :=
| Num (text : string)
| Var (name : string).

Definition operand_text (a : operand) : string :=
  match a with
  | Num x => x
  | Var x => x
  end.

Definition operand_ok (a : operand) : bool :=
  match a with
  | Num EmptyString => false
  | Num x => string_forall isnumchar x
  | Var EmptyString => false
  | Var (String c b) =>
    isalpha (chr c) && string_forall isalnum b
    && negb (String.eqb (String c b) "def")
    && negb (String.eqb (String c b) "extern")
  end.

Definition seeded_op (op : ascii) : bool :=
  (chr op =? chr "<") || (chr op =? chr "+") || (chr op =? chr "-")
  || (chr op =? chr "*").

(** White space, operator, white space, operand. *)
Definition link : Type := string * ascii * string * operand.

Definition link_ok (l : link) : bool :=
  let '(p1, op, p2, a) := l in
  string_forall isspace p1 && seeded_op op && string_forall isspace p2
  && operand_ok a.

Fixpoint render (rest : list link) : string :=
  match rest with
  | [] => EmptyString
  | (p1, op, p2, a) :: r =>
    (p1 ++ String op (p2 ++ operand_text a ++ render r))%string
  end.

(** The tree of one operand, and the chain of trees of a text. *)
Definition leaf {double : Type} (strtod : string -> double) (a : operand)
    : ExprAST double :=
  match a with
  | Num x => NumberExprAST (strtod x)
  | Var x => VariableExprAST x
  end.

Definition leaves {double : Type} (strtod : string -> double)
    (rest : list link) : list (ascii * ExprAST double) :=
  map (fun l : link => let '(_, op, _, a) := l in (op, leaf strtod a)) rest.

(** The scanner has [txt] in front of it: the lookahead is its first
    character, or [EOF] when it is empty. *)
Definition Remaining {double : Type} (s : State double) (txt : string) : Prop :=
  match txt with
  | EmptyString => LastChar s = EOF
  | String c r => LastChar s = chr c /\ input s = r
  end.

(** ** Exact decimal reading of a literal

    On the strings that [gettok] hands to [strtod], made of digits and
    dots only, the C routine converts the longest prefix of the form
    digits, optional dot, digits.  [decimal] is the exact value of that
    prefix, before the rounding to the nearest [double]; it serves to run
    the program on concrete inputs. *)
Fixpoint digits (x : string) (acc : Z) (n : nat) : Z * nat * string :=
  match x with
  | EmptyString => (acc, n, x)
  | String c r =>
    if isdigit (chr c) then digits r (10 * acc + (chr c - 48)) (S n)
    else (acc, n, x)
  end.

Definition decimal (x : string) : Q :=
  let '(i, _, r) := digits x 0 0 in
  match r with
  | String c r' =>
    if chr c =? chr "." then
      let '(m, k, _) := digits r' i 0 in
      Qmake m (Z.to_pos (10 ^ Z.of_nat k))
    else inject_Z i
  | EmptyString => inject_Z i
  end.

(** ** The driver

    [HandleDefintion], [HandleExtern], [HandleTopLevelExpression],
    [MainLoop] and [main].  Besides the globals the driver writes one line
    per construct on stdout and the prompt [ready> ] on stderr; the
    console keeps the lines of stdout (without their newline) and counts
    the prompts. *)
Section Driver.

Context {double : Type} (strtod : string -> double) (zero : double).

Record Console : Type := MkConsole {
  globals : State double;
  stdout : list string;
  prompts : nat
}.

Definition with_globals (s : State double) (c : Console) : Console :=
  MkConsole s (stdout c) (prompts c).

(** [fprintf(stdout, line)] *)
Definition print (line : string) (c : Console) : Console :=
  MkConsole (globals c) (stdout c ++ [line])%list (prompts c).

(** [fprintf(stderr, "ready> ")] *)
Definition prompt (c : Console) : Console :=
  MkConsole (globals c) (stdout c) (S (prompts c)).

Definition HandleDefintion (fuel : nat) (c : Console) : option Console :=
  match ParseDefintion strtod fuel (globals c) with
  | None => None
  | Some (Some _, s1) =>
    Some (print "Parsed a function defintion " (with_globals s1 c))
  | Some (None, s1) =>
    let c1 := print "Error failed to parse defintion " (with_globals s1 c) in
    match getNextToken strtod fuel s1 with
    | None => None
    | Some (_, s2) => Some (with_globals s2 c1)
    end
  end.

Definition HandleExtern (fuel : nat) (c : Console) : option Console :=
  match ParseExtern strtod fuel (globals c) with
  | None => None
  | Some (Some _, s1) => Some (print "Parsed an extern" (with_globals s1 c))
  | Some (None, s1) =>
    let c1 := print "Error failed to parse extern " (with_globals s1 c) in
    match getNextToken strtod fuel s1 with
    | None => None
    | Some (_, s2) => Some (with_globals s2 c1)
    end
  end.

Definition HandleTopLevelExpression (fuel : nat) (c : Console)
    : option Console :=
  match ParseTopLevelExpr strtod fuel (globals c) with
  | None => None
  | Some (Some _, s1) =>
    Some (print "Parsed a top level expression" (with_globals s1 c))
  | Some (None, s1) =>
    let c1 :=
      print "Error failed to parse top level expression "
        (with_globals s1 c) in
    match getNextToken strtod fuel s1 with
    | None => None
    | Some (_, s2) => Some (with_globals s2 c1)
    end
  end.

(** One pass of the [while (1)] of [MainLoop] per unit of fuel. *)
Fixpoint MainLoop (fuel : nat) (c : Console) : option Console :=
  match fuel with
  | O => None
  | S n =>
    let c1 := prompt c in
    let tok := CurTok (globals c1) in
    if tok =? tok_eof then Some c1
    else if tok =? chr ";" then
      match getNextToken strtod n (globals c1) with
      | None => None
      | Some (_, s) => MainLoop n (with_globals s c1)
      end
    else if tok =? tok_def then
      match HandleDefintion n c1 with
      | None => None
      | Some c2 => MainLoop n c2
      end
    else if tok =? tok_extern then
      match HandleExtern n c1 with
      | None => None
      | Some c2 => MainLoop n c2
      end
    else
      match HandleTopLevelExpression n c1 with
      | None => None
      | Some c2 => MainLoop n c2
      end
  end.

(** [main], with [text] on stdin. *)
Definition main (fuel : nat) (text : string) : option Console :=
  let c0 := prompt (MkConsole (seed (start zero text)) [] O) in
  match getNextToken strtod fuel (globals c0) with
  | None => None
  | Some (_, s) => MainLoop fuel (with_globals s c0)
  end.

End Driver.

Arguments Console double : clear implicits.
Arguments MkConsole {double} globals stdout prompts.
Arguments globals {double} c.
Arguments stdout {double} c.
Arguments prompts {double} c.

(** ** The scanner's position

    [Scanning s]: the lookahead is a byte, or it is [EOF] and stdin is
    exhausted.  [unread s] is then the text that the scanner has not
    consumed yet, lookahead included. *)
Definition Scanning {double : Type} (s : State double) : Prop :=
  (LastChar s = EOF /\ input s = EmptyString) \/ exists c, LastChar s = chr c.

Definition unread {double : Type} (s : State double) : string :=
  if LastChar s =? EOF then EmptyString
  else String (to_char (LastChar s)) (input s).

Definition not_hash (c : Z) : bool := negb (c =? chr "#").

(** No comment character is left to scan. *)
Definition comment_free {double : Type} (s : State double) : Prop :=
  string_forall not_hash (unread s) = true.

(** The tokens that stand for themselves: bytes that are neither white
    space, letters, digits, dots nor the comment character. *)
Definition char_token (t : Z) : Prop :=
  exists c : ascii,
    t = chr c /\ isspace t = false /\ isalpha t = false
    /\ isnumchar t = false /\ not_hash t = true.

Definition token_kind (t : Z) : Prop :=
  t = tok_eof \/ t = tok_def \/ t = tok_extern \/ t = tok_identifier
  \/ t = tok_number \/ char_token t.

(** [a] is a position of the scanner further on in the input than [s],
    and no comment character lies between them. *)
Definition Consumed {double : Type} (s a : State double) : Prop :=
  Scanning a
  /\ exists pre : string,
       unread s = (pre ++ unread a)%string
       /\ string_forall not_hash pre = true.

Definition has_hash (x : string) : bool := negb (string_forall not_hash x).

(** ** Outcomes

    A routine of the parser returns a node or null. *)
Definition is_node {A : Type} (r : option A) : bool :=
  match r with
  | Some _ => true
  | None => false
  end.

(** What a routine has printed on stderr: nothing when it returned a
    node, one message when it returned null. *)
Definition Reports {double : Type} (s : State double) (ok : bool)
    (s' : State double) : Prop :=
  if ok then stderr s' = stderr s
  else exists msg, stderr s' = (stderr s ++ [msg])%list.

(** The lines of stdout. *)
Definition error_line (l : string) : bool :=
  String.eqb l "Error failed to parse defintion "
  || String.eqb l "Error failed to parse extern "
  || String.eqb l "Error failed to parse top level expression ".

Definition parsed_line (l : string) : bool :=
  String.eqb l "Parsed a function defintion "
  || String.eqb l "Parsed an extern"
  || String.eqb l "Parsed a top level expression".

(** ** How much is left to do

    [pending s] counts what the parser still has in front of it: two for
    every character that is unread, one for a current token that is not
    the end token.  Every call of [getNextToken] on a current token that
    is not the end token lowers it. *)
Definition pending {double : Type} (s : State double) : nat :=
  (2 * String.length (unread s)
   + (if (CurTok s =? tok_eof)%Z then 0 else 1))%nat.

(** The states in which the parser runs on an input without comments:
    the scanner is in position, no comment character is left, and the
    end token is the current token only at the end of the input. *)
Definition Ready {double : Type} (s : State double) : Prop :=
  Scanning s /\ comment_free s
  /\ (CurTok s = tok_eof -> unread s = EmptyString).

(** A routine that started in the state [s] has left the state [s'], in
    which the parser can go on and no more is left to do than before. *)
Definition Progress {double : Type} (s s' : State double) : Prop :=
  Ready s' /\ (pending s' <= pending s)%nat.

(** The same for a routine that takes a token at least when it returns a
    node. *)
Definition Advance {double : Type} (s : State double) (ok : bool)
    (s' : State double) : Prop :=
  Progress s s'
  /\ (ok = true -> CurTok s <> tok_eof -> (pending s' < pending s)%nat).

(** ** The text of a prototype

    [At s txt]: the scanner is in position and [txt] is what it has yet
    to read, lookahead included. *)
Definition At {double : Type} (s : State double) (txt : string) : Prop :=
  Scanning s /\ unread s = txt.

(** A name: a letter, then letters and digits, other than the keywords. *)
Definition ident_ok (x : string) : bool := operand_ok (Var x).

(** The parameters of a prototype, each with the white space in front of
    it; there must be some between two parameters. *)
Fixpoint render_params (ps : list (string * string)) : string :=
  match ps with
  | [] => EmptyString
  | (w, x) :: r => (w ++ x ++ render_params r)%string
  end.

Fixpoint params_ok (first : bool) (ps : list (string * string)) : bool :=
  match ps with
  | [] => true
  | (w, x) :: r =>
    string_forall isspace w
    && match w with EmptyString => first | _ => true end
    && ident_ok x && params_ok false r
  end.

(** name, white space, [(], parameters, white space, [)]. *)
Record proto : Type := MkProto {
  p_name : string;
  p_pad1 : string;
  p_params : list (string * string);
  p_pad2 : string
}.

Definition render_proto (P : proto) : string :=
  (p_name P ++ p_pad1 P
   ++ String "(" (render_params (p_params P) ++ p_pad2 P
                  ++ String ")" EmptyString))%string.

Definition proto_ok (P : proto) : bool :=
  ident_ok (p_name P) && string_forall isspace (p_pad1 P)
  && params_ok true (p_params P) && string_forall isspace (p_pad2 P).

Definition proto_ast (P : proto) : PrototypeAST :=
  MkPrototypeAST (p_name P) (map snd (p_params P)).

(** Some white space, and not none. *)
Definition blank (w : string) : bool :=
  string_forall isspace w
  && match w with EmptyString => false | _ => true end.

(** ** Tokens and trees

    The number of tokens that a tree stands for: one for a number, for a
    variable and for an operator, three for a call, which the parser
    only builds without arguments. *)
Fixpoint weight {double : Type} (e : ExprAST double) : nat :=
  match e with
  | BinaryExprAST _ l r => (weight l + 1 + weight r)%nat
  | CallExprAST _ _ => 3%nat
  | _ => 1%nat
  end.

(** [Path strtod k s s']: from [s] the program gets to [s'] by [k] calls
    of [getNextToken] and any number of calls of [GetTokPrecedence], and
    by nothing else. *)
Inductive Path {double : Type} (strtod : string -> double)
    : nat -> State double -> State double -> Prop :=
| Path_here s : Path strtod 0 s s
| Path_token k n s t s1 s' :
    getNextToken strtod n s = Some (t, s1) ->
    Path strtod k s1 s' -> Path strtod (S k) s s'
| Path_prec k s p s1 s' :
    GetTokPrecedence s = (p, s1) ->
    Path strtod k s1 s' -> Path strtod k s s'.

(** [AtOperand] and [AtOperator] with the state in which the chain
    ends. *)
Inductive OperandTo {double : Type} (strtod : string -> double)
    : State double -> ExprAST double -> list (ascii * ExprAST double)
      -> State double -> Prop :=
| NumberTo s n t s' rest e :
    CurTok s = tok_number ->
    getNextToken strtod n s = Some (t, s') ->
    OperatorTo strtod s' rest e ->
    OperandTo strtod s (NumberExprAST (NumVal s)) rest e
| VariableTo s n t s' rest e :
    CurTok s = tok_identifier ->
    getNextToken strtod n s = Some (t, s') ->
    OperatorTo strtod s' rest e ->
    OperandTo strtod s (VariableExprAST (IdentifierStr s)) rest e
with OperatorTo {double : Type} (strtod : string -> double)
    : State double -> list (ascii * ExprAST double) -> State double -> Prop :=
| EndTo s :
    isascii (CurTok s) = false ->
    OperatorTo strtod s [] s
| OpTo s op n t s' a rest e :
    CurTok s = chr op ->
    getNextToken strtod n s = Some (t, s') ->
    OperandTo strtod s' a rest e ->
    OperatorTo strtod s ((op, a) :: rest) e.

(** In the state [s] a call of [GetTokPrecedence] changes nothing: the
    table is [tbl], and the current token is no ASCII character or has
    an entry that is not negative. *)
Definition settled {double : Type} (tbl : gmap Z Z) (s : State double)
    : Prop :=
  BinopPrecedence s = tbl
  /\ (isascii (CurTok s) = false
      \/ (isascii (CurTok s) = true
          /\ exists p, tbl !! CurTok s = Some p /\ 0 <= p)).

(** [k] calls of [getNextToken] lead from [s] to [e], through settled
    states only. *)
Fixpoint Steps {double : Type} (strtod : string -> double) (tbl : gmap Z Z)
    (k : nat) (s e : State double) : Prop :=
  match k with
  | O => s = e /\ settled tbl s
  | S k' =>
    settled tbl s
    /\ exists n t s1,
         getNextToken strtod n s = Some (t, s1) /\ Steps strtod tbl k' s1 e
  end.

(** ** The text of a program

    The constructs that [MainLoop] handles: a definition, the keyword
    [def], a prototype and an operator chain as body; an external
    declaration, the keyword [extern] and a prototype; an operator chain
    by itself. *)
Inductive item : Type :=
| Def (d1 : string) (P : proto) (p3 : string) (a : operand) (rest : list link)
| Extern (d1 : string) (P : proto)
| Expr (a : operand) (rest : list link).

Definition render_item (it : item) : string :=
  match it with
  | Def d1 P p3 a rest =>
    ("def" ++ d1 ++ render_proto P ++ p3 ++ operand_text a ++ render rest)%string
  | Extern d1 P => ("extern" ++ d1 ++ render_proto P)%string
  | Expr a rest => (operand_text a ++ render rest)%string
  end.

Definition item_ok (it : item) : bool :=
  match it with
  | Def d1 P p3 a rest =>
    blank d1 && proto_ok P && string_forall isspace p3 && operand_ok a
    && forallb link_ok rest
  | Extern d1 P => blank d1 && proto_ok P
  | Expr a rest => operand_ok a && forallb link_ok rest
  end.

(** The line that the handler of a construct prints when it parses. *)
Definition line_of (it : item) : string :=
  match it with
  | Def _ _ _ _ _ => "Parsed a function defintion "
  | Extern _ _ => "Parsed an extern"
  | Expr _ _ => "Parsed a top level expression"
  end.

(** A program: constructs, each with the white space in front of it;
    there must be some between two constructs. *)
Fixpoint render_program (items : list (string * item)) : string :=
  match items with
  | [] => EmptyString
  | (sep, it) :: r => (sep ++ render_item it ++ render_program r)%string
  end.

Fixpoint program_ok (first : bool) (items : list (string * item)) : bool :=
  match items with
  | [] => true
  | (sep, it) :: r =>
    string_forall isspace sep
    && match sep with EmptyString => first | _ => true end
    && item_ok it && program_ok false r
  end.

(** The state [e] is the one in which [txt] was still to be read, the
    table as seeded and stderr empty, and then the first token was
    loaded. *)
Definition Loaded {double : Type} (strtod : string -> double)
    (e : State double) (txt : string) : Prop :=
  exists s0 n t,
    At s0 txt /\ BinopPrecedence s0 = seed_table ∅ /\ stderr s0 = []
    /\ getNextToken strtod n s0 = Some (t, e).

(** The trees that the parser builds: the operator of a binary node is
    an ASCII character and a call has no arguments. *)
Fixpoint well_formed {double : Type} (e : ExprAST double) : Prop :=
  match e with
  | BinaryExprAST op l r =>
    isascii (chr op) = true /\ well_formed l /\ well_formed r
  | CallExprAST _ args => args = []
  | _ => True
  end.

(** ** From the call to the report

    [Trail strtod a ok b]: a routine that returned a node got from [a] to
    [b] by calls of [getNextToken] and [GetTokPrecedence] only; one that
    returned null got so to a state to which [b] adds one message. *)
Definition Trail {double : Type} (strtod : string -> double)
    (a : State double) (ok : bool) (b : State double) : Prop :=
  if ok then exists k, Path strtod k a b
  else exists k s0 msg,
         Path strtod k a s0 /\ b = set_stderr (stderr s0 ++ [msg])%list s0.

(** [Traced strtod s s']: what a routine called in the state [s] leaves
    when it returns null.  From [s] it got, by reading tokens and looking
    up precedences only, to a state [s0] whose current token offends;
    [s'] is [s0] with the message about that token, and nothing was read
    after it. *)
Definition Traced {double : Type} (strtod : string -> double)
    (s s' : State double) : Prop :=
  exists k s0 msg,
    Path strtod k s s0
    /\ s' = set_stderr (stderr s0 ++ [msg])%list s0
    /\ offending msg (CurTok s0).

(** * Properties *)

(** The proofs unfold these by hand. *)
Arguments getNextToken : simpl never.
Arguments GetTokPrecedence : simpl never.
Arguments Error : simpl never.
Arguments ParseNumber : simpl never.
Arguments chr : simpl never.
Arguments to_char : simpl never.

(** Comparisons of character codes, decided case by case. *)
Ltac ctype :=
  unfold isnumchar, isalnum, isalpha, isdigit, isspace, isascii, EOF in *;
  change (chr ".") with 46 in *;
  intros;
  repeat match goal with
  | H : context [?a <=? ?b] |- _ => destruct (Z.leb_spec a b)
  | H : context [?a =? ?b] |- _ => destruct (Z.eqb_spec a b)
  | |- context [?a <=? ?b] => destruct (Z.leb_spec a b)
  | |- context [?a =? ?b] => destruct (Z.eqb_spec a b)
  end;
  simpl in *; try reflexivity; try discriminate; try lia.

Section Properties.

Context {double : Type} (strtod : string -> double) (zero : double).

Implicit Types (s : State double) (fuel n m : nat).

(** ** Characters *)

Lemma chr_range (c : ascii) : 0 <= chr c < 256.
Proof.
  unfold chr. pose proof (N_ascii_bounded c). lia.
Qed.

Lemma to_char_chr (c : ascii) : to_char (chr c) = c.
Proof.
  unfold to_char. rewrite Z.mod_small by apply chr_range.
  unfold chr. rewrite N2Z.id. apply ascii_N_embedding.
Qed.

Lemma chr_inj (c d : ascii) : chr c = chr d -> c = d.
Proof.
  intros H. rewrite <- (to_char_chr c), <- (to_char_chr d). now rewrite H.
Qed.

Lemma chr_not_EOF (c : ascii) : (chr c =? EOF) = false.
Proof.
  apply Z.eqb_neq. pose proof (chr_range c). unfold EOF. lia.
Qed.

Lemma chars_inj (x y : string) : chars x = chars y -> x = y.
Proof.
  revert y. induction x as [|c x IH]; intros [|d y]; simpl; try discriminate.
  - reflexivity.
  - unfold chars; simpl. intros H. injection H as Hc Hr.
    f_equal; [now apply chr_inj | now apply IH].
Qed.

(** ** Loops *)

Lemma while_loop_mono {A : Type} (cond : A -> bool * A) (body : A -> A)
    n m (a r : A) :
  while_loop n cond body a = Some r -> (n <= m)%nat ->
  while_loop m cond body a = Some r.
Proof.
  revert m a. induction n as [|n IH]; intros m a H Hle; [discriminate|].
  destruct m as [|m]; [lia|]. simpl in *.
  destruct (cond a) as [b a1]. destruct b; [|assumption].
  apply IH; [assumption | lia].
Qed.

(** A loop whose test holds and whose body changes nothing never ends. *)
Lemma while_loop_stuck {A : Type} (cond : A -> bool * A) (body : A -> A)
    (a : A) :
  cond a = (true, a) -> body a = a ->
  forall fuel, while_loop fuel cond body a = None.
Proof.
  intros Hc Hb fuel. induction fuel as [|n IH]; [reflexivity|].
  simpl. rewrite Hc, Hb. exact IH.
Qed.

(** ** The scanner's loops *)

Lemma set_input_id s : set_input (input s) s = s.
Proof. destruct s; reflexivity. Qed.

Lemma read_LastChar_cons s c r :
  input s = String c r ->
  read_LastChar s = set_LastChar (chr c) (set_input r s).
Proof. intros H. unfold read_LastChar, getchar. rewrite H. reflexivity. Qed.

Lemma read_LastChar_nil s :
  input s = EmptyString ->
  read_LastChar s = set_LastChar EOF (set_feof true s).
Proof. intros H. unfold read_LastChar, getchar. rewrite H. reflexivity. Qed.

(** What [read_LastChar] leaves in [LastChar] fails [p] when a run of
    [p]-characters stops in front of the input; [p] must reject [EOF]. *)
Lemma stops_read (p : Z -> bool) s :
  p EOF = false -> stops p (input s) = true ->
  p (LastChar (read_LastChar s)) = false.
Proof.
  intros Hp Hs. unfold read_LastChar, getchar.
  destruct (input s) as [|c r]; simpl in *; [assumption|].
  now apply negb_true_iff.
Qed.

Lemma append_cons (c : ascii) (x y : string) :
  (String c x ++ y)%string = String c (x ++ y)%string.
Proof. reflexivity. Qed.

Lemma append_nil_l (y : string) : (EmptyString ++ y)%string = y.
Proof. reflexivity. Qed.

Lemma string_length_app (x y : string) :
  String.length (x ++ y) = (String.length x + String.length y)%nat.
Proof.
  induction x as [|c x IH]; [reflexivity|].
  rewrite append_cons. simpl. now rewrite IH.
Qed.

Lemma append_nil_r (x : string) : (x ++ EmptyString)%string = x.
Proof.
  induction x as [|c x IH]; [reflexivity|]. now rewrite append_cons, IH.
Qed.

Lemma append_assoc (x y z : string) :
  ((x ++ y) ++ z)%string = (x ++ (y ++ z))%string.
Proof.
  induction x as [|c x IH]; [reflexivity|]. now rewrite !append_cons, IH.
Qed.

(** [while (isspace(LastChar)) LastChar = getchar();] stops at the first
    character that is not white space. *)
Lemma ws_loop_spec (ws : string) : forall s c rest fuel,
  stream s = chars (ws ++ String c rest) ->
  string_forall isspace ws = true ->
  isspace (chr c) = false ->
  (String.length ws + 1 <= fuel)%nat ->
  skip_space fuel s = Some (set_LastChar (chr c) (set_input rest s)).
Proof.
  unfold skip_space.
  induction ws as [|w ws IH]; intros s c rest fuel Hst Hws Hc Hf;
    (destruct fuel as [|fuel]; [simpl in Hf; lia|]);
    unfold stream, chars in Hst; simpl in Hst; injection Hst as HL Hin;
    apply (chars_inj (input s)) in Hin; simpl.
  - rewrite HL, Hc. destruct s; simpl in *; subst; reflexivity.
  - simpl in Hws. apply andb_true_iff in Hws as [Hw Hws].
    rewrite HL, Hw.
    assert (Hrd : exists x r, (ws ++ String c rest)%string = String x r).
    { destruct ws; simpl; eauto. }
    destruct Hrd as (x & r & Hxr).
    rewrite (read_LastChar_cons s x r) by congruence.
    rewrite (IH _ c rest).
    + destruct s; reflexivity.
    + rewrite Hxr. reflexivity.
    + assumption.
    + assumption.
    + simpl in Hf. lia.
Qed.

(** [while (isalnum(LastChar = getchar())) IdentifierStr += LastChar;] *)
Lemma id_loop_spec (body : string) : forall s rest fuel,
  input s = (body ++ rest)%string ->
  string_forall isalnum body = true ->
  stops isalnum rest = true ->
  (String.length body + 1 <= fuel)%nat ->
  scan_identifier fuel s
  = Some (set_IdentifierStr (IdentifierStr s ++ body)%string
            (read_LastChar (set_input rest s))).
Proof.
  unfold scan_identifier.
  induction body as [|b body IH]; intros s rest fuel Hin Hb Hr Hf;
    (destruct fuel as [|fuel]; [simpl in Hf; lia|]).
  - rewrite append_nil_l in Hin. simpl.
    rewrite (stops_read isalnum) by (try reflexivity; now rewrite Hin).
    rewrite append_nil_r, <- Hin, set_input_id.
    destruct s as [i ? ? ? ? ? ? ?]; destruct i; reflexivity.
  - rewrite append_cons in Hin.
    simpl in Hb. apply andb_true_iff in Hb as [Hb1 Hb].
    simpl.
    rewrite (read_LastChar_cons s b (body ++ rest)) by assumption.
    simpl. rewrite Hb1, to_char_chr.
    rewrite (IH _ rest); [| reflexivity | assumption | assumption
                          | simpl in Hf; lia].
    simpl. rewrite append_assoc, append_cons, append_nil_l.
    destruct s, rest; reflexivity.
Qed.

(** The loop of
    [do { NumStr += LastChar; LastChar = getchar(); } while (...)],
    entered after the lookahead has been read from [s0]. *)
Lemma num_loop_spec (body : string) : forall (s0 : State double) acc rest fuel,
  input s0 = (body ++ rest)%string ->
  string_forall isnumchar body = true ->
  stops isnumchar rest = true ->
  (String.length body + 1 <= fuel)%nat ->
  while_loop fuel
    (fun a : string * State double =>
       (isdigit (LastChar (snd a)) || (LastChar (snd a) =? chr "."), a))
    (fun a : string * State double =>
       let (NumStr, s) := a in
       (String.append NumStr (String (to_char (LastChar s)) EmptyString),
        read_LastChar s))
    (acc, read_LastChar s0)
  = Some ((acc ++ body)%string, read_LastChar (set_input rest s0)).
Proof.
  induction body as [|b body IH]; intros s0 acc rest fuel Hin Hb Hr Hf;
    (destruct fuel as [|fuel]; [simpl in Hf; lia|]).
  - rewrite append_nil_l in Hin. simpl.
    change (isdigit ?x || (?x =? chr "."))%bool with (isnumchar x).
    rewrite (stops_read isnumchar) by (try reflexivity; now rewrite Hin).
    now rewrite append_nil_r, <- Hin, set_input_id.
  - rewrite append_cons in Hin.
    simpl in Hb. apply andb_true_iff in Hb as [Hb1 Hb].
    simpl.
    rewrite (read_LastChar_cons s0 b (body ++ rest)) by assumption.
    simpl. change (isdigit (chr b) || (chr b =? chr "."))%bool
      with (isnumchar (chr b)). rewrite Hb1, to_char_chr.
    rewrite (IH (set_LastChar (chr b) (set_input (body ++ rest) s0))
               _ rest); [| reflexivity | assumption | assumption
                          | simpl in Hf; lia].
    rewrite append_assoc, append_cons, append_nil_l.
    destruct s0, rest; reflexivity.
Qed.

(** ** More fuel never changes a result of the scanner *)

Lemma gettok_S n s :
  gettok strtod (S n) s =
  match skip_space (S n) s with
  | None => None
  | Some s1 =>
    if isalpha (LastChar s1) then
      match scan_identifier (S n)
              (set_IdentifierStr (String (to_char (LastChar s1)) EmptyString)
                 s1) with
      | None => None
      | Some s3 =>
        if String.eqb (IdentifierStr s3) "def" then Some (tok_def, s3)
        else if String.eqb (IdentifierStr s3) "extern"
             then Some (tok_extern, s3)
        else Some (tok_identifier, s3)
      end
    else if isdigit (LastChar s1) || (LastChar s1 =? chr ".") then
      match scan_number (S n) EmptyString s1 with
      | None => None
      | Some (NumStr, s2) => Some (tok_number, set_NumVal (strtod NumStr) s2)
      end
    else if LastChar s1 =? chr "#" then
      match skip_comment (S n) s1 with
      | None => None
      | Some s2 =>
        if negb (LastChar s2 =? EOF) then gettok strtod n s2
        else Some (gettok_tail s2)
      end
    else Some (gettok_tail s1)
  end.
Proof. reflexivity. Qed.

Lemma gettok_mono n : forall m s r,
  gettok strtod n s = Some r -> (n <= m)%nat -> gettok strtod m s = Some r.
Proof.
  induction n as [|n IH]; intros m s r H Hle; [discriminate|].
  destruct m as [|m]; [lia|].
  rewrite gettok_S in *.
  unfold skip_space, scan_identifier, scan_number, skip_comment, do_while in *.
  destruct (while_loop (S n) _ _ s) as [s1|] eqn:E1; [|discriminate].
  rewrite (while_loop_mono _ _ _ (S m) _ _ E1) by lia.
  destruct (isalpha (LastChar s1)).
  { destruct (while_loop (S n) _ _ (set_IdentifierStr _ _)) as [s3|] eqn:E2;
      [|discriminate].
    now rewrite (while_loop_mono _ _ _ (S m) _ _ E2) by lia. }
  destruct (isdigit (LastChar s1) || (LastChar s1 =? chr "."))%bool.
  { destruct (while_loop (S n) _ _ (_, _)) as [a|] eqn:E2; [|discriminate].
    now rewrite (while_loop_mono _ _ _ (S m) _ _ E2) by lia. }
  destruct (LastChar s1 =? chr "#"); [|assumption].
  destruct (while_loop (S n) _ _ s1) as [s2|] eqn:E2; [|discriminate].
  rewrite (while_loop_mono _ _ _ (S m) _ _ E2) by lia.
  destruct (negb (LastChar s2 =? EOF)); [|assumption].
  apply IH; [assumption | lia].
Qed.

Lemma getNextToken_mono n m s r :
  getNextToken strtod n s = Some r -> (n <= m)%nat ->
  getNextToken strtod m s = Some r.
Proof.
  unfold getNextToken. intros H Hle.
  destruct (gettok strtod n s) as [[t s1]|] eqn:E; [|discriminate].
  now rewrite (gettok_mono _ _ _ _ E Hle).
Qed.

(** ** Scanning identifiers and numbers *)

Lemma scan_number_spec (s : State double) c0 body acc rest fuel :
  LastChar s = chr c0 ->
  input s = (body ++ rest)%string ->
  string_forall isnumchar body = true ->
  stops isnumchar rest = true ->
  (String.length body + 1 <= fuel)%nat ->
  scan_number fuel acc s
  = Some ((acc ++ String c0 body)%string, read_LastChar (set_input rest s)).
Proof.
  intros HL Hin Hb Hr Hf. unfold scan_number, do_while.
  rewrite HL, to_char_chr.
  rewrite (num_loop_spec body s _ rest) by assumption.
  now rewrite append_assoc, append_cons, append_nil_l.
Qed.

Lemma chars_length (x : string) : length (chars x) = String.length x.
Proof.
  unfold chars. rewrite length_map.
  induction x as [|c x IH]; simpl; [reflexivity | now rewrite IH].
Qed.

(** The length of the unread input bounds every run in front of it. *)
Lemma stream_lengths s (ws : string) c (body rest : string) :
  stream s = chars (ws ++ String c (body ++ rest)) ->
  (String.length ws <= String.length (input s)
   /\ String.length body <= String.length (input s))%nat.
Proof.
  intros H. apply (f_equal (@length Z)) in H.
  unfold stream in H. simpl in H.
  rewrite !chars_length, string_length_app in H. simpl in H.
  rewrite string_length_app in H. lia.
Qed.

Lemma isalpha_not_space c : isalpha c = true -> isspace c = false.
Proof. ctype. Qed.

Lemma isnumchar_not_space c : isnumchar c = true -> isspace c = false.
Proof. ctype. Qed.

Lemma isnumchar_not_alpha c : isnumchar c = true -> isalpha c = false.
Proof. ctype. Qed.

(** The token that [gettok] returns for the text [buf] of a word. *)
Lemma gettok_word s (ws : string) (a : ascii) (body rest : string) fuel :
  stream s = chars (ws ++ String a (body ++ rest)) ->
  string_forall isspace ws = true ->
  isalpha (chr a) = true ->
  string_forall isalnum body = true ->
  stops isalnum rest = true ->
  (String.length (input s) + 2 <= fuel)%nat ->
  gettok strtod fuel s
  = Some (if String.eqb (String a body) "def" then tok_def
          else if String.eqb (String a body) "extern" then tok_extern
          else tok_identifier,
          set_IdentifierStr (String a body)
            (read_LastChar (set_input rest s))).
Proof.
  intros Hst Hws Ha Hb Hr Hf.
  destruct (stream_lengths _ _ _ _ _ Hst) as [Hl1 Hl2].
  destruct fuel as [|n]; [lia|].
  rewrite gettok_S.
  rewrite (ws_loop_spec ws s a (body ++ rest))
    by (try assumption; try lia; now apply isalpha_not_space).
  cbn [LastChar set_LastChar set_input]. rewrite Ha, to_char_chr.
  rewrite (id_loop_spec body _ rest) by (try assumption; try reflexivity; lia).
  cbn [IdentifierStr set_IdentifierStr set_LastChar set_input].
  rewrite append_cons, append_nil_l.
  replace (set_IdentifierStr (String a body)
             (read_LastChar (set_input rest (set_IdentifierStr _ _))))
    with (set_IdentifierStr (String a body) (read_LastChar (set_input rest s)))
    by (destruct s, rest; reflexivity).
  destruct (String.eqb (String a body) "def"); [reflexivity|].
  destruct (String.eqb (String a body) "extern"); reflexivity.
Qed.

(** C6: when the next character that is not white space is alphabetic,
    [gettok] gathers it and the alphanumeric characters that follow into
    [IdentifierStr], stops in front of the first other character, and
    returns [tok_def] exactly for the text [def], [tok_extern] exactly for
    [extern], and [tok_identifier] for every other text. *)
Theorem gettok_identifier s (ws : string) (a : ascii) (body rest : string)
    fuel :
  stream s = chars (ws ++ String a (body ++ rest)) ->
  string_forall isspace ws = true ->
  isalpha (chr a) = true ->
  string_forall isalnum body = true ->
  stops isalnum rest = true ->
  (String.length (input s) + 2 <= fuel)%nat ->
  exists tok,
    gettok strtod fuel s
    = Some (tok, set_IdentifierStr (String a body)
                   (read_LastChar (set_input rest s)))
    /\ (String a body = "def" <-> tok = tok_def)
    /\ (String a body = "extern" <-> tok = tok_extern)
    /\ (String a body <> "def" /\ String a body <> "extern"
        <-> tok = tok_identifier).
Proof.
  intros Hst Hws Ha Hb Hr Hf.
  rewrite (gettok_word s ws a body rest fuel Hst Hws Ha Hb Hr Hf).
  destruct (String.eqb_spec (String a body) "def") as [E1|E1].
  { eexists; split; [reflexivity|]. rewrite E1.
    repeat split; try discriminate; try congruence; intros [? ?]; congruence. }
  destruct (String.eqb_spec (String a body) "extern") as [E2|E2].
  { eexists; split; [reflexivity|]. rewrite E2.
    repeat split; try discriminate; try congruence; intros [? ?]; congruence. }
  eexists; split; [reflexivity|].
  repeat split; try discriminate; try congruence.
Qed.

(** The comparison with the keywords is case sensitive. *)
Example gettok_Def_is_identifier :
  gettok strtod 5 (start zero "Def")
  = Some (tok_identifier,
          set_IdentifierStr "Def"
            (read_LastChar (set_input EmptyString (start zero "Def")))).
Proof. reflexivity. Qed.

Lemma gettok_digits s (ws : string) (d : ascii) (body rest : string) fuel :
  stream s = chars (ws ++ String d (body ++ rest)) ->
  string_forall isspace ws = true ->
  isnumchar (chr d) = true ->
  string_forall isnumchar body = true ->
  stops isnumchar rest = true ->
  (String.length (input s) + 2 <= fuel)%nat ->
  gettok strtod fuel s
  = Some (tok_number,
          set_NumVal (strtod (String d body))
            (read_LastChar (set_input rest s))).
Proof.
  intros Hst Hws Hd Hb Hr Hf.
  destruct (stream_lengths _ _ _ _ _ Hst) as [Hl1 Hl2].
  destruct fuel as [|n]; [lia|].
  rewrite gettok_S.
  rewrite (ws_loop_spec ws s d (body ++ rest))
    by (try assumption; try lia; now apply isnumchar_not_space).
  cbn [LastChar set_LastChar set_input].
  rewrite (isnumchar_not_alpha _ Hd).
  change (isdigit (chr d) || (chr d =? chr "."))%bool with (isnumchar (chr d)).
  rewrite Hd.
  rewrite (scan_number_spec _ d body _ rest)
    by (try assumption; try reflexivity; lia).
  rewrite append_nil_l. destruct s, rest; reflexivity.
Qed.

(** C7: when the next character that is not white space is a digit or a
    dot, [gettok] gathers it and every digit or dot that follows, however
    many dots there are, hands the gathered text to [strtod] and returns
    [tok_number] with the result in [NumVal]; nothing else changes but
    the position of the scanner, which stops in front of the first other
    character. *)
Theorem gettok_number s (ws : string) (d : ascii) (body rest : string) fuel :
  stream s = chars (ws ++ String d (body ++ rest)) ->
  string_forall isspace ws = true ->
  isnumchar (chr d) = true ->
  string_forall isnumchar body = true ->
  stops isnumchar rest = true ->
  (String.length (input s) + 2 <= fuel)%nat ->
  exists s',
    gettok strtod fuel s = Some (tok_number, s')
    /\ NumVal s' = strtod (String d body)
    /\ s' = set_NumVal (strtod (String d body))
              (read_LastChar (set_input rest s)).
Proof.
  intros Hst Hws Hd Hb Hr Hf. eexists. split; [|split].
  - exact (gettok_digits s ws d body rest fuel Hst Hws Hd Hb Hr Hf).
  - reflexivity.
  - reflexivity.
Qed.

(** ** Comments *)

Lemma skip_comment_stuck s :
  LastChar s = chr "#" -> forall fuel, skip_comment fuel s = None.
Proof.
  intros H fuel. unfold skip_comment, do_while.
  apply while_loop_stuck; [now rewrite H | reflexivity].
Qed.

Lemma while_loop_fuel {A : Type} (cond : A -> bool * A) (body : A -> A)
    n m (a r1 r2 : A) :
  while_loop n cond body a = Some r1 -> while_loop m cond body a = Some r2 ->
  r1 = r2.
Proof.
  intros H1 H2.
  apply (while_loop_mono _ _ _ (Nat.max n m)) in H1; [|lia].
  apply (while_loop_mono _ _ _ (Nat.max n m)) in H2; [|lia].
  congruence.
Qed.

(** C2, as the code has it: the loop meant to discard a comment has an
    empty body and tests a lookahead that it never changes, so once the
    next character that is not white space is [#] no amount of fuel lets
    [gettok] return. *)
Theorem gettok_comment_never_returns s (ws rest : string) :
  stream s = chars (ws ++ String "#" rest) ->
  string_forall isspace ws = true ->
  forall fuel, gettok strtod fuel s = None.
Proof.
  intros Hst Hws fuel. destruct fuel as [|n]; [reflexivity|].
  rewrite gettok_S.
  destruct (skip_space (S n) s) as [s1|] eqn:E; [|reflexivity].
  pose proof (ws_loop_spec ws s "#" rest (String.length ws + 1) Hst Hws
                eq_refl (Nat.le_refl _)) as E'.
  unfold skip_space in E, E'.
  rewrite (while_loop_fuel _ _ _ _ _ _ _ E E').
  cbn [LastChar set_LastChar set_input].
  change (isalpha (chr "#")) with false.
  change (isdigit (chr "#") || (chr "#" =? chr "."))%bool with false.
  change (chr "#" =? chr "#") with true. cbv iota.
  now rewrite skip_comment_stuck.
Qed.

(** ** End of the stream *)

Lemma gettok_at_eof s n :
  LastChar s = EOF -> gettok strtod (S n) s = Some (tok_eof, s).
Proof.
  intros H. rewrite gettok_S. unfold skip_space. cbn [while_loop].
  rewrite H. change (isspace EOF) with false. cbv iota.
  rewrite H. change (isalpha EOF) with false.
  change (isdigit EOF || (EOF =? chr "."))%bool with false.
  change (EOF =? chr "#") with false. cbv iota.
  unfold gettok_tail. now rewrite H.
Qed.

Lemma gettok_tail_eof s t s1 :
  gettok_tail s = (t, s1) -> t = tok_eof -> LastChar s1 = EOF.
Proof.
  unfold gettok_tail. destruct (Z.eqb_spec (LastChar s) EOF) as [E|E];
    intros H Ht; injection H as <- <-; [assumption|].
  unfold tok_eof, EOF in *. congruence.
Qed.

(** The end token is returned only with the lookahead at [EOF]. *)
Lemma gettok_returns_eof n : forall s s1,
  gettok strtod n s = Some (tok_eof, s1) -> LastChar s1 = EOF.
Proof.
  induction n as [|n IH]; intros s s1 H; [discriminate|].
  rewrite gettok_S in H.
  destruct (skip_space (S n) s) as [s2|]; [|discriminate].
  destruct (isalpha (LastChar s2)).
  { destruct (scan_identifier _ _) as [s3|]; [|discriminate].
    destruct (String.eqb _ "def"); [discriminate|].
    destruct (String.eqb _ "extern"); discriminate. }
  destruct (isdigit (LastChar s2) || (LastChar s2 =? chr "."))%bool.
  { destruct (scan_number _ _ _) as [[NumStr s3]|]; discriminate. }
  destruct (LastChar s2 =? chr "#").
  { destruct (skip_comment _ _) as [s3|]; [|discriminate].
    destruct (negb (LastChar s3 =? EOF)); [now apply (IH s3)|].
    injection H as H. destruct (gettok_tail s3) as [t s4] eqn:E.
    injection H as -> ->. now apply (gettok_tail_eof _ _ _ E). }
  injection H as H. destruct (gettok_tail s2) as [t s4] eqn:E.
  injection H as -> ->. now apply (gettok_tail_eof _ _ _ E).
Qed.

(** Invariants of loops. *)
Lemma while_loop_inv {A : Type} (P : A -> Prop) (cond : A -> bool * A)
    (body : A -> A) :
  (forall a, P a -> P (snd (cond a))) ->
  (forall a, P a -> P (body a)) ->
  forall fuel a r, P a -> while_loop fuel cond body a = Some r -> P r.
Proof.
  intros Hc Hb fuel. induction fuel as [|n IH]; intros a r Pa H;
    [discriminate|].
  simpl in H. specialize (Hc a Pa). destruct (cond a) as [b a1].
  destruct b; [|injection H as <-; exact Hc].
  apply (IH (body a1)); [apply Hb; exact Hc | assumption].
Qed.

Lemma read_LastChar_EofInv s : EofInv s -> EofInv (read_LastChar s).
Proof.
  unfold EofInv, read_LastChar, getchar. intros H.
  destruct (input s) as [|c r] eqn:E; simpl; [auto|].
  intros F. destruct (H F) as [_ ?]. congruence.
Qed.

Lemma gettok_tail_EofInv s : EofInv s -> EofInv (snd (gettok_tail s)).
Proof.
  unfold gettok_tail. intros H. destruct (LastChar s =? EOF); simpl;
    [assumption | now apply read_LastChar_EofInv].
Qed.

Lemma gettok_EofInv n : forall s t s1,
  EofInv s -> gettok strtod n s = Some (t, s1) -> EofInv s1.
Proof.
  induction n as [|n IH]; intros s t s1 Inv H; [discriminate|].
  rewrite gettok_S in H.
  destruct (skip_space (S n) s) as [s2|] eqn:E2; [|discriminate].
  assert (Inv2 : EofInv s2).
  { revert E2. unfold skip_space. apply while_loop_inv; auto.
    apply read_LastChar_EofInv. }
  destruct (isalpha (LastChar s2)).
  { destruct (scan_identifier _ _) as [s3|] eqn:E3; [|discriminate].
    assert (Inv3 : EofInv s3).
    { revert E3. unfold scan_identifier.
      apply while_loop_inv; [apply read_LastChar_EofInv | auto | exact Inv2]. }
    destruct (String.eqb _ "def"); [now injection H as <- <-|].
    destruct (String.eqb _ "extern"); now injection H as <- <-. }
  destruct (isdigit (LastChar s2) || (LastChar s2 =? chr "."))%bool.
  { destruct (scan_number _ _ _) as [[NumStr s3]|] eqn:E3; [|discriminate].
    injection H as <- <-.
    revert E3. unfold scan_number, do_while.
    apply (while_loop_inv (fun a => EofInv (snd a))); [auto | |].
    - intros [x y] Hy. now apply read_LastChar_EofInv.
    - now apply read_LastChar_EofInv. }
  destruct (LastChar s2 =? chr "#").
  { destruct (skip_comment _ _) as [s3|] eqn:E3; [|discriminate].
    assert (Inv3 : EofInv s3).
    { revert E3. unfold skip_comment, do_while.
      apply while_loop_inv; auto. }
    destruct (negb (LastChar s3 =? EOF)); [now apply (IH s3 t)|].
    injection H as H.
    replace s1 with (snd (gettok_tail s3)) by now rewrite H.
    now apply gettok_tail_EofInv. }
  injection H as H.
  replace s1 with (snd (gettok_tail s2)) by now rewrite H.
  now apply gettok_tail_EofInv.
Qed.

Lemma start_EofInv text : EofInv (seed (start zero text)).
Proof. intros F. discriminate F. Qed.

(** C9: the invariant [EofInv], which holds when [main] starts, holds
    after every call of [gettok]; and once a call of [gettok] ends with
    stdin at end-of-file, or has returned the end token, every later call
    returns the end token and leaves the scanner as it is. *)
Theorem gettok_eof_forever s fuel t s1 :
  EofInv s ->
  gettok strtod fuel s = Some (t, s1) ->
  EofInv s1
  /\ (feof s1 = true \/ t = tok_eof ->
      forall k fuel', (0 < fuel')%nat ->
        gettoks strtod fuel' k s1 = Some (repeat tok_eof k, s1)).
Proof.
  intros Inv H. split; [exact (gettok_EofInv _ _ _ _ Inv H)|].
  intros Hend k fuel' Hf.
  assert (HL : LastChar s1 = EOF).
  { destruct Hend as [F| ->].
    - now apply (gettok_EofInv _ _ _ _ Inv H).
    - now apply (gettok_returns_eof _ _ _ H). }
  destruct fuel' as [|n]; [lia|].
  induction k as [|k IH]; [reflexivity|].
  cbn [gettoks]. rewrite (gettok_at_eof _ _ HL), IH. reflexivity.
Qed.

(** ** More fuel never changes a result of the parser *)

Lemma ParseNumber_mono n m s r :
  ParseNumber strtod n s = Some r -> (n <= m)%nat ->
  ParseNumber strtod m s = Some r.
Proof.
  unfold ParseNumber. intros H Hle.
  destruct (getNextToken strtod n s) as [[t s1]|] eqn:E; [|discriminate].
  now rewrite (getNextToken_mono _ _ _ _ E Hle).
Qed.

Lemma parse_mono n : forall m, (n <= m)%nat ->
  (forall s r, ParsePrimary strtod n s = Some r ->
               ParsePrimary strtod m s = Some r)
  /\ (forall p l s r, ParseBinOpRHS strtod n p l s = Some r ->
                      ParseBinOpRHS strtod m p l s = Some r)
  /\ (forall s r, ParseExpression strtod n s = Some r ->
                  ParseExpression strtod m s = Some r)
  /\ (forall s r, ParseParenExpr strtod n s = Some r ->
                  ParseParenExpr strtod m s = Some r)
  /\ (forall s r, ParseIdentifierExpr strtod n s = Some r ->
                  ParseIdentifierExpr strtod m s = Some r)
  /\ (forall a s r, ParseCallArgs strtod n a s = Some r ->
                    ParseCallArgs strtod m a s = Some r).
Proof.
  induction n as [|n IH]; intros m Hle.
  { repeat split; intros; discriminate. }
  destruct m as [|m]; [lia|].
  assert (Hle' : (n <= m)%nat) by lia.
  destruct (IH m Hle') as (IHp & IHb & IHe & IHpar & IHid & IHargs).
  repeat split; intros *; simpl; intros H;
    repeat match type of H with
    | match ?x with _ => _ end = Some _ =>
      lazymatch x with
      | getNextToken _ _ _ =>
        let E := fresh "E" in
        destruct x as [[? ?]|] eqn:E; [|discriminate H];
        rewrite (getNextToken_mono _ m _ _ E Hle')
      | GetTokPrecedence _ => destruct x as [? ?]
      | ParsePrimary _ _ _ =>
        let E := fresh "E" in
        destruct x as [[[?|] ?]|] eqn:E; [| |discriminate H];
        rewrite (IHp _ _ E)
      | ParseBinOpRHS _ _ _ _ _ =>
        let E := fresh "E" in
        destruct x as [[[?|] ?]|] eqn:E; [| |discriminate H];
        rewrite (IHb _ _ _ _ E)
      | ParseExpression _ _ _ =>
        let E := fresh "E" in
        destruct x as [[[?|] ?]|] eqn:E; [| |discriminate H];
        rewrite (IHe _ _ E)
      | ParseCallArgs _ _ _ _ =>
        let E := fresh "E" in
        destruct x as [[[?|] ?]|] eqn:E; [| |discriminate H];
        rewrite (IHargs _ _ _ E)
      | (if ?c then _ else _) => destruct c
      | Some _ => cbv iota beta in H |- *
      | _ => destruct x
      end
    end;
    eauto using ParseNumber_mono.
Qed.

Lemma ParsePrototype_args_mono n : forall m a s r,
  ParsePrototype_args strtod n a s = Some r -> (n <= m)%nat ->
  ParsePrototype_args strtod m a s = Some r.
Proof.
  induction n as [|n IH]; intros m a s r H Hle; [discriminate|].
  destruct m as [|m]; [lia|]. simpl in *.
  destruct (getNextToken strtod n s) as [[t s1]|] eqn:E; [|discriminate].
  rewrite (getNextToken_mono _ m _ _ E) by lia.
  destruct (t =? tok_identifier); [|assumption].
  apply (IH m); [assumption | lia].
Qed.

(** ** Relations that every parse routine respects

    A reflexive and transitive relation on states that holds across a call
    of [getNextToken], of [GetTokPrecedence] and of [Error] holds across
    every parse routine. *)
Section Preorder.

Variable R : State double -> State double -> Prop.
Hypothesis R_refl : forall s, R s s.
Hypothesis R_trans : forall a b c, R a b -> R b c -> R a c.
Hypothesis R_token : forall fuel s t s',
  getNextToken strtod fuel s = Some (t, s') -> R s s'.
Hypothesis R_prec : forall s p s', GetTokPrecedence s = (p, s') -> R s s'.
Hypothesis R_error : forall msg s, R s (set_stderr (stderr s ++ [msg])%list s).

Ltac chain :=
  repeat match goal with
  | H : R ?a ?b |- R ?a ?c => first [exact H | apply (R_trans a b c H)]
  end;
  first [apply R_refl | apply R_error | idtac].

Lemma ParseNumber_preorder n s r s' :
  ParseNumber strtod n s = Some (r, s') -> R s s'.
Proof.
  unfold ParseNumber. intros H.
  destruct (getNextToken strtod n s) as [[t s1]|] eqn:E; [|discriminate].
  injection H as <- <-. eauto.
Qed.

Lemma parse_preorder n :
  (forall s r s', ParsePrimary strtod n s = Some (r, s') -> R s s')
  /\ (forall p l s r s', ParseBinOpRHS strtod n p l s = Some (r, s') -> R s s')
  /\ (forall s r s', ParseExpression strtod n s = Some (r, s') -> R s s')
  /\ (forall s r s', ParseParenExpr strtod n s = Some (r, s') -> R s s')
  /\ (forall s r s', ParseIdentifierExpr strtod n s = Some (r, s') -> R s s')
  /\ (forall a s r s', ParseCallArgs strtod n a s = Some (r, s') -> R s s').
Proof.
  induction n as [|n IH].
  { repeat split; intros; discriminate. }
  destruct IH as (IHp & IHb & IHe & IHpar & IHid & IHargs).
  repeat split; intros *; simpl; intros H;
    repeat match type of H with
    | match ?x with _ => _ end = Some _ =>
      lazymatch x with
      | getNextToken _ _ _ =>
        let E := fresh "E" in
        destruct x as [[? ?]|] eqn:E; [apply R_token in E | discriminate H]
      | GetTokPrecedence _ =>
        let E := fresh "E" in destruct x as [? ?] eqn:E; apply R_prec in E
      | ParsePrimary _ _ _ =>
        let E := fresh "E" in
        destruct x as [[[?|] ?]|] eqn:E;
          [apply IHp in E | apply IHp in E | discriminate H]
      | ParseBinOpRHS _ _ _ _ _ =>
        let E := fresh "E" in
        destruct x as [[[?|] ?]|] eqn:E;
          [apply IHb in E | apply IHb in E | discriminate H]
      | ParseExpression _ _ _ =>
        let E := fresh "E" in
        destruct x as [[[?|] ?]|] eqn:E;
          [apply IHe in E | apply IHe in E | discriminate H]
      | ParseCallArgs _ _ _ _ =>
        let E := fresh "E" in
        destruct x as [[[?|] ?]|] eqn:E;
          [apply IHargs in E | apply IHargs in E | discriminate H]
      | (if ?c then _ else _) => destruct c
      | Some _ => cbv iota beta in H
      | _ => destruct x
      end
    end;
    first
      [ apply IHid in H | apply IHpar in H | apply IHb in H
      | apply IHargs in H | apply ParseNumber_preorder in H
      | injection H as <- <- ];
    chain.
Qed.

Lemma ParsePrototype_args_preorder n : forall a s r s',
  ParsePrototype_args strtod n a s = Some (r, s') -> R s s'.
Proof.
  induction n as [|n IH]; intros a s r s' H; [discriminate|]. simpl in H.
  destruct (getNextToken strtod n s) as [[t s1]|] eqn:E; [|discriminate].
  apply R_token in E.
  destruct (t =? tok_identifier); [apply IH in H | injection H as <- <-];
    chain.
Qed.

Lemma ParsePrototype_preorder n s r s' :
  ParsePrototype strtod n s = Some (r, s') -> R s s'.
Proof.
  unfold ParsePrototype, ErrorP. intros H.
  repeat match type of H with
  | match ?x with _ => _ end = Some _ =>
    lazymatch x with
    | getNextToken _ _ _ =>
      let E := fresh "E" in
      destruct x as [[? ?]|] eqn:E; [apply R_token in E | discriminate H]
    | ParsePrototype_args _ _ _ _ =>
      let E := fresh "E" in
      destruct x as [[? ?]|] eqn:E;
        [apply ParsePrototype_args_preorder in E | discriminate H]
    | _ => destruct x
    end
  end;
  injection H as <- <-; chain.
Qed.

Lemma ParsePrimary_preorder n s r s' :
  ParsePrimary strtod n s = Some (r, s') -> R s s'.
Proof. apply (proj1 (parse_preorder n)). Qed.

Lemma ParseBinOpRHS_preorder n p l s r s' :
  ParseBinOpRHS strtod n p l s = Some (r, s') -> R s s'.
Proof. apply (proj1 (proj2 (parse_preorder n))). Qed.

Lemma ParseExpression_preorder n s r s' :
  ParseExpression strtod n s = Some (r, s') -> R s s'.
Proof. apply (proj1 (proj2 (proj2 (parse_preorder n)))). Qed.

Lemma ParseDefintion_preorder n s r s' :
  ParseDefintion strtod n s = Some (r, s') -> R s s'.
Proof.
  unfold ParseDefintion. intros H.
  destruct (getNextToken strtod n s) as [[t s1]|] eqn:E1; [|discriminate].
  apply R_token in E1.
  destruct (ParsePrototype strtod n s1) as [[[P|] s2]|] eqn:E2;
    [| |discriminate]; apply ParsePrototype_preorder in E2.
  - destruct (ParseExpression strtod n s2) as [[[e|] s3]|] eqn:E3;
      [| |discriminate]; apply ParseExpression_preorder in E3;
      injection H as <- <-; chain.
  - injection H as <- <-; chain.
Qed.

Lemma ParseExtern_preorder n s r s' :
  ParseExtern strtod n s = Some (r, s') -> R s s'.
Proof.
  unfold ParseExtern. intros H.
  destruct (getNextToken strtod n s) as [[t s1]|] eqn:E1; [|discriminate].
  apply R_token in E1. apply ParsePrototype_preorder in H. chain.
Qed.

Lemma ParseTopLevelExpr_preorder n s r s' :
  ParseTopLevelExpr strtod n s = Some (r, s') -> R s s'.
Proof.
  unfold ParseTopLevelExpr. intros H.
  destruct (ParseExpression strtod n s) as [[[e|] s3]|] eqn:E3;
    [| |discriminate]; apply ParseExpression_preorder in E3;
    injection H as <- <-; chain.
Qed.

End Preorder.

(** ** The precedence table *)

Lemma read_LastChar_fields s : parser_fields (read_LastChar s) = parser_fields s.
Proof. unfold read_LastChar, getchar. destruct (input s); reflexivity. Qed.

Lemma gettok_tail_fields s :
  parser_fields (snd (gettok_tail s)) = parser_fields s.
Proof.
  unfold gettok_tail. destruct (LastChar s =? EOF); simpl;
    [reflexivity | apply read_LastChar_fields].
Qed.

(** The scanner leaves [CurTok], the table and stderr alone. *)
Lemma gettok_fields n : forall s t s1,
  gettok strtod n s = Some (t, s1) -> parser_fields s1 = parser_fields s.
Proof.
  induction n as [|n IH]; intros s t s1 H; [discriminate|].
  rewrite gettok_S in H.
  destruct (skip_space (S n) s) as [s2|] eqn:E2; [|discriminate].
  assert (F2 : parser_fields s2 = parser_fields s).
  { revert E2. unfold skip_space.
    apply (while_loop_inv (fun a => parser_fields a = parser_fields s));
      [auto | | reflexivity].
    intros a <-. apply read_LastChar_fields. }
  destruct (isalpha (LastChar s2)).
  { destruct (scan_identifier _ _) as [s3|] eqn:E3; [|discriminate].
    assert (F3 : parser_fields s3 = parser_fields s).
    { revert E3. unfold scan_identifier.
      apply (while_loop_inv (fun a => parser_fields a = parser_fields s));
        [ | auto | exact F2].
      intros a <-. apply read_LastChar_fields. }
    destruct (String.eqb _ "def"); [now injection H as <- <-|].
    destruct (String.eqb _ "extern"); now injection H as <- <-. }
  destruct (isdigit (LastChar s2) || (LastChar s2 =? chr "."))%bool.
  { destruct (scan_number _ _ _) as [[NumStr s3]|] eqn:E3; [|discriminate].
    injection H as <- <-.
    change (parser_fields s3 = parser_fields s).
    revert E3. unfold scan_number, do_while.
    apply (while_loop_inv
             (fun a => parser_fields (snd a) = parser_fields s)); [auto | |].
    - intros [x y] <-. apply read_LastChar_fields.
    - simpl. rewrite <- F2. apply read_LastChar_fields. }
  destruct (LastChar s2 =? chr "#").
  { destruct (skip_comment _ _) as [s3|] eqn:E3; [|discriminate].
    assert (F3 : parser_fields s3 = parser_fields s).
    { revert E3. unfold skip_comment, do_while.
      apply (while_loop_inv (fun a => parser_fields a = parser_fields s));
        auto. }
    destruct (negb (LastChar s3 =? EOF)).
    - rewrite <- F3. now apply (IH s3 t).
    - injection H as H.
      replace s1 with (snd (gettok_tail s3)) by now rewrite H.
      now rewrite gettok_tail_fields. }
  injection H as H.
  replace s1 with (snd (gettok_tail s2)) by now rewrite H.
  now rewrite gettok_tail_fields.
Qed.

Lemma getNextToken_table n s t s1 :
  getNextToken strtod n s = Some (t, s1) ->
  BinopPrecedence s1 = BinopPrecedence s.
Proof.
  unfold getNextToken. intros H.
  destruct (gettok strtod n s) as [[t' s2]|] eqn:E; [|discriminate].
  injection H as <- <-. apply gettok_fields in E.
  unfold parser_fields in E. simpl. congruence.
Qed.

Lemma set_BinopPrecedence_id s : set_BinopPrecedence (BinopPrecedence s) s = s.
Proof. destruct s; reflexivity. Qed.

(** [GetTokPrecedence] changes nothing but the table, and the table only
    by adding the key [CurTok] with the value [0] when it was missing. *)
Lemma GetTokPrecedence_state s :
  snd (GetTokPrecedence s)
  = if isascii (CurTok s)
    then set_BinopPrecedence
           (snd (map_index (CurTok s) (BinopPrecedence s))) s
    else s.
Proof.
  unfold GetTokPrecedence. destruct (isascii (CurTok s)); simpl;
    [|reflexivity].
  destruct (map_index _ _) as [p m]. simpl. now destruct (p <? 0).
Qed.

Lemma map_index_subseteq k (m : gmap Z Z) : m ⊆ snd (map_index k m).
Proof.
  unfold map_index. destruct (m !! k) eqn:E; simpl; [reflexivity|].
  now apply insert_subseteq.
Qed.

Lemma GetTokPrecedence_table s p s' :
  GetTokPrecedence s = (p, s') -> BinopPrecedence s ⊆ BinopPrecedence s'.
Proof.
  intros H. replace s' with (snd (GetTokPrecedence s)) by now rewrite H.
  rewrite GetTokPrecedence_state. destruct (isascii (CurTok s)); simpl;
    [apply map_index_subseteq | reflexivity].
Qed.

(** No step of the front end removes or changes an entry of the table. *)
Lemma Step_table s s' :
  Step strtod s s' -> BinopPrecedence s ⊆ BinopPrecedence s'.
Proof.
  set (R := fun a b : State double => BinopPrecedence a ⊆ BinopPrecedence b).
  assert (R1 : forall a, R a a) by (intros a; unfold R; reflexivity).
  assert (R2 : forall a b c, R a b -> R b c -> R a c)
    by (intros a b c; unfold R; apply transitivity).
  assert (R3 : forall fuel a t b,
             getNextToken strtod fuel a = Some (t, b) -> R a b).
  { intros fuel a t b H. unfold R.
    now rewrite (getNextToken_table _ _ _ _ H). }
  assert (R4 : forall a p b, GetTokPrecedence a = (p, b) -> R a b)
    by (intros a p b; apply GetTokPrecedence_table).
  assert (R5 : forall msg a, R a (set_stderr (stderr a ++ [msg])%list a))
    by (intros msg a; unfold R; reflexivity).
  intros H. destruct H as [fuel s t s' H | s p s' H | fuel s r s' H
    | fuel p l s r s' H | fuel s r s' H | fuel s r s' H | fuel s r s' H
    | fuel s r s' H | fuel s r s' H].
  - exact (R3 _ _ _ _ H).
  - exact (R4 _ _ _ H).
  - eapply (ParsePrimary_preorder R); eassumption.
  - eapply (ParseBinOpRHS_preorder R); eassumption.
  - eapply (ParseExpression_preorder R); eassumption.
  - eapply (ParsePrototype_preorder R); eassumption.
  - eapply (ParseDefintion_preorder R); eassumption.
  - eapply (ParseExtern_preorder R); eassumption.
  - eapply (ParseTopLevelExpr_preorder R); eassumption.
Qed.

Lemma Later_table s s' :
  Later strtod s s' -> BinopPrecedence s ⊆ BinopPrecedence s'.
Proof.
  induction 1 as [|a b c Hab _ IH]; [reflexivity|].
  transitivity (BinopPrecedence b); [exact (Step_table _ _ Hab) | exact IH].
Qed.

Lemma GetTokPrecedence_None s :
  isascii (CurTok s) = true ->
  BinopPrecedence s !! CurTok s = None ->
  GetTokPrecedence s
  = (0, set_BinopPrecedence (<[CurTok s := 0]> (BinopPrecedence s)) s).
Proof.
  intros Ha Hn. unfold GetTokPrecedence, map_index. now rewrite Ha, Hn.
Qed.

(** C10: [GetTokPrecedence] is not a pure query.  For an ASCII current
    token that the table does not hold, the call returns [0] and leaves
    the token in the table with the value [0]: the table has one entry
    more, and whatever the front end does afterwards the entry stays. *)
Theorem GetTokPrecedence_inserts s :
  isascii (CurTok s) = true ->
  BinopPrecedence s !! CurTok s = None ->
  GetTokPrecedence s
  = (0, set_BinopPrecedence (<[CurTok s := 0]> (BinopPrecedence s)) s)
  /\ size (<[CurTok s := 0]> (BinopPrecedence s))
     = S (size (BinopPrecedence s))
  /\ forall s', Later strtod (snd (GetTokPrecedence s)) s' ->
       BinopPrecedence s' !! CurTok s = Some 0.
Proof.
  intros Ha Hn. pose proof (GetTokPrecedence_None s Ha Hn) as E.
  split; [exact E|]. split; [now apply map_size_insert_None|].
  intros s' HL. apply Later_table in HL. rewrite E in HL. simpl in HL.
  eapply lookup_weaken; [|exact HL]. apply lookup_insert_eq.
Qed.

(** ** Running [main] on a text *)

Lemma main_init_mono n m text s :
  main_init strtod zero n text = Some s -> (n <= m)%nat ->
  main_init strtod zero m text = Some s.
Proof.
  unfold main_init. intros H Hle.
  destruct (getNextToken strtod n _) as [[t s1]|] eqn:E; [|discriminate].
  now rewrite (getNextToken_mono _ _ _ _ E Hle).
Qed.

Lemma from_text_mono {A : Type}
    (parse : nat -> State double -> option (option A * State double))
    n m text r :
  (forall n m s r, parse n s = Some r -> (n <= m)%nat -> parse m s = Some r) ->
  from_text strtod zero parse n text = Some r -> (n <= m)%nat ->
  from_text strtod zero parse m text = Some r.
Proof.
  unfold from_text. intros Hp H Hle.
  destruct (main_init strtod zero n text) as [s|] eqn:E; [|discriminate].
  rewrite (main_init_mono _ _ _ _ E Hle). now apply (Hp n).
Qed.

Lemma ParseExpression_mono n m s r :
  ParseExpression strtod n s = Some r -> (n <= m)%nat ->
  ParseExpression strtod m s = Some r.
Proof. intros H Hle. exact (proj1 (proj2 (proj2 (parse_mono n m Hle))) _ _ H). Qed.

Lemma ParseIdentifierExpr_mono n m s r :
  ParseIdentifierExpr strtod n s = Some r -> (n <= m)%nat ->
  ParseIdentifierExpr strtod m s = Some r.
Proof.
  intros H Hle.
  exact (proj1 (proj2 (proj2 (proj2 (proj2 (parse_mono n m Hle))))) _ _ H).
Qed.

(** C1, as the code has it: a character that [main] did not put in the
    table gets the precedence [0], not [-1]; the test [TokPrec < 0] never
    fires on the value [0] that indexing the map has just stored.  With
    [0] not below the minimum [0] that [ParseExpression] passes, such a
    character is taken by [ParseBinOpRHS] as a binary operator: the text
    [1 ) 2] parses as the operator [)] applied to [1] and [2]. *)
Theorem GetTokPrecedence_absent_is_zero :
  (forall (c : Z) (text : string),
     isascii c = true ->
     c <> chr "<" -> c <> chr "+" -> c <> chr "-" -> c <> chr "*" ->
     fst (GetTokPrecedence (set_CurTok c (seed (start zero text)))) = 0)
  /\ (forall k,
        fst <$> from_text strtod zero (ParseExpression strtod) (8 + k) "1)2"
        = Some (Some (BinaryExprAST ")" (NumberExprAST (strtod "1"))
                        (NumberExprAST (strtod "2"))))).
Proof.
  split.
  - intros c text Ha H1 H2 H3 H4.
    rewrite GetTokPrecedence_None; [reflexivity | exact Ha |].
    cbn [BinopPrecedence CurTok set_CurTok seed set_BinopPrecedence start].
    unfold seed_table. now rewrite !lookup_insert_ne, lookup_empty by congruence.
  - intros k.
    assert (E : from_text strtod zero (ParseExpression strtod) 8 "1)2"
                = Some (Some (BinaryExprAST ")" (NumberExprAST (strtod "1"))
                                (NumberExprAST (strtod "2"))),
                        set_CurTok tok_eof
                          (set_BinopPrecedence
                             (<[chr ")" := 0]>
                                (BinopPrecedence (seed (start zero "1)2"))))
                             (set_NumVal (strtod "2")
                                (set_LastChar EOF
                                   (set_feof true
                                      (set_input EmptyString
                                         (start zero "1)2")))))))).
    { vm_compute. reflexivity. }
    rewrite (from_text_mono _ 8 (8 + k) _ _ ParseExpression_mono E) by lia.
    reflexivity.
Qed.

Lemma from_text_more {A : Type}
    (parse : nat -> State double -> option (option A * State double))
    n k text (r : option A) s' :
  (forall n m s r, parse n s = Some r -> (n <= m)%nat -> parse m s = Some r) ->
  from_text strtod zero parse n text = Some (r, s') ->
  from_text strtod zero parse (n + k) text = Some (r, s').
Proof.
  intros Hp H. apply (from_text_mono parse n); [exact Hp | exact H | lia].
Qed.

(** C3, as the code has it: the call [foo(1, 2+3)] does not parse.  The
    comma and the closing parenthesis get the precedence [0] and are taken
    as binary operators, the operand after [)] is missing, and
    [ParseIdentifierExpr] returns null after the message of
    [ParsePrimary]. *)
Theorem ParseIdentifierExpr_call_fails :
  forall k, exists s',
    from_text strtod zero (ParseIdentifierExpr strtod) (13 + k) "foo(1, 2+3)"
    = Some (None, s')
    /\ stderr s' = ["unknown token when expecting an expression"]
    /\ CurTok s' = tok_eof.
Proof.
  intros k. eexists. split.
  - apply from_text_more; [exact ParseIdentifierExpr_mono|].
    vm_compute. reflexivity.
  - split; reflexivity.
Qed.

(** The part of C3 that the code keeps: behind an argument, a token that
    is neither [)] nor [,] ends the call with the message of the argument
    list. *)
Lemma ParseCallArgs_bad_separator n a s e s1 :
  ParseExpression strtod n s = Some (Some e, s1) ->
  CurTok s1 <> chr ")" -> CurTok s1 <> chr "," ->
  ParseCallArgs strtod (S n) a s
  = Some (None,
          set_stderr
            (stderr s1 ++ ["Expected ')' or ',' in argument list"])%list s1).
Proof.
  intros H H1 H2. simpl. rewrite H.
  destruct (Z.eqb_spec (CurTok s1) (chr ")")); [contradiction|].
  destruct (Z.eqb_spec (CurTok s1) (chr ",")); [contradiction|].
  reflexivity.
Qed.

(** *** How far the defect of C1 reaches

    An expression ends only in front of a token of precedence below [0],
    and with the table never negative only a token that is no ASCII
    character has one.  So no expression ends in front of [)] or [,]:
    no parenthesised expression and no call with arguments ever
    parses. *)

Lemma GetTokPrecedence_idem s p s1 :
  GetTokPrecedence s = (p, s1) -> GetTokPrecedence s1 = (p, s1).
Proof.
  unfold GetTokPrecedence, map_index.
  destruct (isascii (CurTok s)) eqn:Ha; simpl.
  - destruct (BinopPrecedence s !! CurTok s) as [v|] eqn:Hm.
    + intros H. assert (s1 = s) as ->.
      { rewrite set_BinopPrecedence_id in H.
        destruct (v <? 0); now injection H. }
      rewrite Ha, Hm. simpl. exact H.
    + simpl. intros H. injection H as <- <-.
      cbn [CurTok BinopPrecedence set_BinopPrecedence]. rewrite Ha. simpl.
      rewrite lookup_insert_eq. simpl.
      destruct s; reflexivity.
  - intros H. injection H as <- <-. now rewrite Ha.
Qed.

Lemma ParseBinOpRHS_stops n : forall p l s e s',
  ParseBinOpRHS strtod n p l s = Some (Some e, s') ->
  fst (GetTokPrecedence s') < p.
Proof.
  induction n as [|n IH]; intros p l s e s' H; [discriminate|].
  simpl in H.
  destruct (GetTokPrecedence s) as [TokPrec s1] eqn:E1.
  destruct (Z.ltb_spec TokPrec p).
  { injection H as <- <-. now rewrite (GetTokPrecedence_idem _ _ _ E1). }
  destruct (getNextToken strtod n s1) as [[t s2]|]; [|discriminate].
  destruct (ParsePrimary strtod n s2) as [[[RHS|] s3]|];
    [|discriminate|discriminate].
  destruct (GetTokPrecedence s3) as [NextPrec s4].
  destruct (TokPrec <? NextPrec); [|now apply IH in H].
  destruct (ParseBinOpRHS strtod n (TokPrec + 1) RHS s4) as [[[RHS'|] s5]|];
    [|discriminate|discriminate].
  now apply IH in H.
Qed.

Lemma table_nonneg_prec s :
  table_nonneg s -> fst (GetTokPrecedence s) < 0 -> isascii (CurTok s) = false.
Proof.
  intros Hnn. unfold GetTokPrecedence, map_index.
  destruct (isascii (CurTok s)); [|reflexivity].
  destruct (BinopPrecedence s !! CurTok s) as [v|] eqn:Hm; simpl.
  - specialize (Hnn _ _ Hm). destruct (Z.ltb_spec v 0); simpl; lia.
  - lia.
Qed.

Lemma GetTokPrecedence_nonneg s p s1 :
  GetTokPrecedence s = (p, s1) -> table_nonneg s -> table_nonneg s1.
Proof.
  intros H Hnn.
  replace s1 with (snd (GetTokPrecedence s)) by now rewrite H.
  rewrite GetTokPrecedence_state. destruct (isascii (CurTok s)); [|exact Hnn].
  unfold map_index.
  destruct (BinopPrecedence s !! CurTok s) as [v|] eqn:Hm; simpl.
  - now rewrite set_BinopPrecedence_id.
  - intros k v. unfold set_BinopPrecedence. simpl.
    destruct (decide (CurTok s = k)) as [->|Hne].
    + rewrite lookup_insert_eq. intros [= <-]. lia.
    + rewrite lookup_insert_ne by assumption. apply Hnn.
Qed.

Lemma ParseExpression_nonneg n s r s' :
  ParseExpression strtod n s = Some (r, s') ->
  table_nonneg s -> table_nonneg s'.
Proof.
  apply (ParseExpression_preorder
           (fun a b => table_nonneg a -> table_nonneg b)).
  - auto.
  - intros fuel a t b H. unfold table_nonneg.
    now rewrite (getNextToken_table _ _ _ _ H).
  - intros a p b. apply GetTokPrecedence_nonneg.
  - intros msg a. auto.
Qed.

(** A successful [ParseExpression] stops in front of a token that is no
    ASCII character. *)
Lemma ParseExpression_stops n s e s' :
  table_nonneg s -> ParseExpression strtod n s = Some (Some e, s') ->
  isascii (CurTok s') = false.
Proof.
  intros Hnn H. pose proof (ParseExpression_nonneg _ _ _ _ H Hnn) as Hnn'.
  destruct n as [|n]; [discriminate|]. simpl in H.
  destruct (ParsePrimary strtod n s) as [[[LHS|] s1]|];
    [|discriminate|discriminate].
  apply ParseBinOpRHS_stops in H. now apply table_nonneg_prec.
Qed.

Lemma ParseParenExpr_never_succeeds n s e s' :
  table_nonneg s -> ParseParenExpr strtod n s <> Some (Some e, s').
Proof.
  intros Hnn H. destruct n as [|n]; [discriminate|]. simpl in H.
  destruct (getNextToken strtod n s) as [[t s1]|] eqn:E1; [|discriminate].
  assert (Hnn1 : table_nonneg s1).
  { unfold table_nonneg. now rewrite (getNextToken_table _ _ _ _ E1). }
  destruct (ParseExpression strtod n s1) as [[[V|] s2]|] eqn:E2;
    [|discriminate|discriminate].
  apply (ParseExpression_stops _ _ _ _ Hnn1) in E2.
  destruct (Z.eqb_spec (CurTok s2) (chr ")")) as [E|E];
    [rewrite E in E2; discriminate E2 | discriminate H].
Qed.

Lemma ParseCallArgs_never_succeeds n a s args s' :
  table_nonneg s -> ParseCallArgs strtod n a s <> Some (Some args, s').
Proof.
  intros Hnn H. destruct n as [|n]; [discriminate|]. simpl in H.
  destruct (ParseExpression strtod n s) as [[[Arg|] s1]|] eqn:E1;
    [|discriminate|discriminate].
  apply (ParseExpression_stops _ _ _ _ Hnn) in E1.
  destruct (Z.eqb_spec (CurTok s1) (chr ")")) as [E|E];
    [rewrite E in E1; discriminate E1|].
  destruct (Z.eqb_spec (CurTok s1) (chr ",")) as [E'|E'];
    [rewrite E' in E1; discriminate E1 | discriminate H].
Qed.

(** The two trees of C4, read off the program. *)
Lemma ParseExpression_example_mul k :
  fst <$> from_text strtod zero (ParseExpression strtod) (10 + k) "1+2*3"
  = Some (Some (BinaryExprAST "+" (NumberExprAST (strtod "1"))
                  (BinaryExprAST "*" (NumberExprAST (strtod "2"))
                     (NumberExprAST (strtod "3"))))).
Proof.
  erewrite from_text_more; [reflexivity | exact ParseExpression_mono |].
  vm_compute. reflexivity.
Qed.

Lemma ParseExpression_example_sub k :
  fst <$> from_text strtod zero (ParseExpression strtod) (10 + k) "1-2-3"
  = Some (Some (BinaryExprAST "-"
                  (BinaryExprAST "-" (NumberExprAST (strtod "1"))
                     (NumberExprAST (strtod "2")))
                  (NumberExprAST (strtod "3")))).
Proof.
  erewrite from_text_more; [reflexivity | exact ParseExpression_mono |].
  vm_compute. reflexivity.
Qed.

Lemma ParseExpression_example_cmp k :
  fst <$> from_text strtod zero (ParseExpression strtod) (12 + k) "1+2<3*4"
  = Some (Some (BinaryExprAST "<"
                  (BinaryExprAST "+" (NumberExprAST (strtod "1"))
                     (NumberExprAST (strtod "2")))
                  (BinaryExprAST "*" (NumberExprAST (strtod "3"))
                     (NumberExprAST (strtod "4"))))).
Proof.
  erewrite from_text_more; [reflexivity | exact ParseExpression_mono |].
  vm_compute. reflexivity.
Qed.

(** ** Failures *)

Ltac offending_tac :=
  unfold offending;
  repeat match goal with
  | H : negb _ = true |- _ => apply negb_true_iff in H
  | H : negb _ = false |- _ => apply negb_false_iff in H
  | H : (_ =? _) = false |- _ => apply Z.eqb_neq in H
  | H : (_ =? _) = true |- _ => apply Z.eqb_eq in H
  end;
  repeat first
    [ solve [repeat split; first [reflexivity | assumption]]
    | left; solve [repeat split; first [reflexivity | assumption]]
    | right ].

(** Every null result of an expression routine comes straight from a
    report of an offending token. *)
Lemma parse_null n :
  (forall s s', ParsePrimary strtod n s = Some (None, s') -> Rejected s')
  /\ (forall p l s s',
        ParseBinOpRHS strtod n p l s = Some (None, s') -> Rejected s')
  /\ (forall s s', ParseExpression strtod n s = Some (None, s') -> Rejected s')
  /\ (forall s s', ParseParenExpr strtod n s = Some (None, s') -> Rejected s')
  /\ (forall s s',
        ParseIdentifierExpr strtod n s = Some (None, s') -> Rejected s')
  /\ (forall a s s',
        ParseCallArgs strtod n a s = Some (None, s') -> Rejected s').
Proof.
  induction n as [|n IH].
  { repeat split; intros; discriminate. }
  destruct IH as (IHp & IHb & IHe & IHpar & IHid & IHargs).
  repeat split; intros *; simpl; intros H;
    repeat match type of H with
    | match ?x with _ => _ end = Some _ =>
      lazymatch x with
      | getNextToken _ _ _ => destruct x as [[? ?]|]; [|discriminate H]
      | GetTokPrecedence _ => destruct x as [? ?]
      | ParsePrimary _ _ _ =>
        let E := fresh "E" in
        destruct x as [[[?|] ?]|] eqn:E;
          [| apply IHp in E | discriminate H]
      | ParseBinOpRHS _ _ _ _ _ =>
        let E := fresh "E" in
        destruct x as [[[?|] ?]|] eqn:E;
          [| apply IHb in E | discriminate H]
      | ParseExpression _ _ _ =>
        let E := fresh "E" in
        destruct x as [[[?|] ?]|] eqn:E;
          [| apply IHe in E | discriminate H]
      | ParseCallArgs _ _ _ _ =>
        let E := fresh "E" in
        destruct x as [[[?|] ?]|] eqn:E;
          [| apply IHargs in E | discriminate H]
      | (if ?c then _ else _) => destruct c eqn:?
      | Some _ => cbv iota beta in H
      | _ => destruct x eqn:?
      end
    end;
    try discriminate H;
    first
      [ now apply IHid in H | now apply IHpar in H | now apply IHb in H
      | now apply IHargs in H
      | unfold ParseNumber in H; destruct (getNextToken _ _ _) as [[? ?]|];
        discriminate H
      | unfold Error in H; injection H as <-;
        first [ assumption
              | eexists _, _; split; [reflexivity | offending_tac] ] ].
Qed.

Lemma ParsePrototype_null n s s' :
  ParsePrototype strtod n s = Some (None, s') -> Rejected s'.
Proof.
  unfold ParsePrototype, ErrorP. intros H.
  repeat match type of H with
  | match ?x with _ => _ end = Some _ =>
    lazymatch x with
    | getNextToken _ _ _ => destruct x as [[? ?]|]; [|discriminate H]
    | ParsePrototype_args _ _ _ _ => destruct x as [[? ?]|]; [|discriminate H]
    | _ => destruct x eqn:?
    end
  end;
  try discriminate H;
  unfold Error in H; injection H as <-;
  eexists _, _; (split; [reflexivity | offending_tac]).
Qed.


(** ** Precedence climbing on operator chains *)

Lemma ParsePrimary_mono n m s r :
  ParsePrimary strtod n s = Some r -> (n <= m)%nat ->
  ParsePrimary strtod m s = Some r.
Proof. intros H Hle. exact (proj1 (parse_mono n m Hle) _ _ H). Qed.

Lemma ParseBinOpRHS_mono n m p l s r :
  ParseBinOpRHS strtod n p l s = Some r -> (n <= m)%nat ->
  ParseBinOpRHS strtod m p l s = Some r.
Proof. intros H Hle. exact (proj1 (proj2 (parse_mono n m Hle)) _ _ _ _ H). Qed.

Lemma GetTokPrecedence_hit s p :
  isascii (CurTok s) = true -> BinopPrecedence s !! CurTok s = Some p ->
  0 <= p -> GetTokPrecedence s = (p, s).
Proof.
  intros Ha Hm Hp. unfold GetTokPrecedence, map_index. rewrite Ha, Hm. simpl.
  rewrite set_BinopPrecedence_id. destruct (Z.ltb_spec p 0); [lia|reflexivity].
Qed.

Lemma GetTokPrecedence_nonascii s :
  isascii (CurTok s) = false -> GetTokPrecedence s = (-1, s).
Proof. intros Ha. unfold GetTokPrecedence. now rewrite Ha. Qed.

Lemma prec_in_valid tbl op : valid_op tbl op -> 0 <= prec_in tbl op.
Proof.
  intros (_ & _ & p & Hm & Hp). unfold prec_in. now rewrite Hm.
Qed.

Lemma GetTokPrecedence_AtOperator s (rest : list (ascii * ExprAST double)) :
  AtOperator strtod s rest ->
  Forall (valid_op (BinopPrecedence s)) (map fst rest) ->
  GetTokPrecedence s = (next_prec (BinopPrecedence s) rest, s).
Proof.
  intros H V. inversion H as [s0 Ha | s0 op n t s' a rest' Hc Hn Ho]; subst.
  - now apply GetTokPrecedence_nonascii.
  - simpl in V. apply Forall_cons in V as [(Ha & _ & p & Hm & Hp) _].
    simpl. unfold prec_in. rewrite Hm. simpl.
    apply GetTokPrecedence_hit; rewrite ?Hc; assumption.
Qed.

(** After an operand of a chain comes no opening parenthesis. *)
Lemma AtOperator_not_paren s (rest : list (ascii * ExprAST double)) tbl :
  AtOperator strtod s rest -> Forall (valid_op tbl) (map fst rest) ->
  (CurTok s =? chr "(") = false.
Proof.
  intros H V. apply Z.eqb_neq.
  inversion H as [s0 Ha | s0 op n t s' a rest' Hc Hn Ho]; subst.
  - intros E. rewrite E in Ha. discriminate Ha.
  - simpl in V. apply Forall_cons in V as [(_ & Hne & _) _].
    rewrite Hc. intros E. apply chr_inj in E. contradiction.
Qed.

Lemma getNextToken_CurTok n s t s' :
  getNextToken strtod n s = Some (t, s') -> CurTok s' = t.
Proof.
  unfold getNextToken. intros H.
  destruct (gettok strtod n s) as [[t' s1]|]; [|discriminate].
  now injection H as <- <-.
Qed.

(** [ParsePrimary] on an operand of a chain returns that operand and
    stops at the token behind it. *)
Lemma ParsePrimary_operand s a (rest : list (ascii * ExprAST double)) :
  AtOperand strtod s a rest ->
  Forall (valid_op (BinopPrecedence s)) (map fst rest) ->
  exists n s',
    ParsePrimary strtod n s = Some (Some a, s')
    /\ AtOperator strtod s' rest
    /\ BinopPrecedence s' = BinopPrecedence s.
Proof.
  intros H V.
  inversion H as [s0 n t s' rest0 Hc Hn Ho | s0 n t s' rest0 Hc Hn Ho]; subst.
  - exists (S n), s'. split; [|split].
    + simpl. rewrite Hc. simpl. unfold ParseNumber. now rewrite Hn.
    + assumption.
    + now apply (getNextToken_table n s t).
  - exists (S (S n)), s'. split; [|split].
    + simpl. rewrite Hc. simpl. rewrite Hn.
      rewrite (AtOperator_not_paren s' rest (BinopPrecedence s) Ho V).
      reflexivity.
    + assumption.
    + now apply (getNextToken_table n s t).
Qed.

Lemma flat_app (x y : list (ascii * ExprAST double)) :
  flat (x ++ y) = (flat x ++ flat y)%list.
Proof.
  induction x as [|[op a] x IH]; simpl; [reflexivity | now rewrite IH].
Qed.

(** What [ParseBinOpRHS] does on a chain: it takes the operators up to the
    first one that is looser than [minPrec] and builds the tree of the
    prescribed shape over [lhs] and what it has taken. *)
Lemma ParseBinOpRHS_chain tbl k : forall (rest : list (ascii * ExprAST double)),
  (length rest <= k)%nat ->
  forall s minPrec lhs,
  0 <= minPrec ->
  AtOperator strtod s rest ->
  Forall (valid_op tbl) (map fst rest) ->
  BinopPrecedence s = tbl ->
  shaped tbl lhs ->
  (minPrec <= next_prec tbl rest -> root_ge tbl (next_prec tbl rest) lhs) ->
  exists fuel t s' taken left,
    ParseBinOpRHS strtod fuel minPrec lhs s = Some (Some t, s')
    /\ rest = (taken ++ left)%list
    /\ AtOperator strtod s' left
    /\ BinopPrecedence s' = tbl
    /\ next_prec tbl left < minPrec
    /\ flatten t = (flatten lhs ++ flat taken)%list
    /\ shaped tbl t
    /\ (t = lhs \/ root_ge tbl minPrec t).
Proof.
  induction k as [|k IH]; intros rest Hlen s minPrec lhs Hmin Hat V Hm Hsh Hroot.
  all: pose proof (GetTokPrecedence_AtOperator s rest Hat) as HG;
    rewrite Hm in HG; specialize (HG V).
  all: destruct (Z.ltb_spec (next_prec tbl rest) minPrec) as [Hlt|Hge].
  1, 3: exists 1%nat, lhs, s, [], rest; simpl; rewrite HG;
    destruct (Z.ltb_spec (next_prec tbl rest) minPrec); [|lia];
    rewrite app_nil_r; repeat split; auto.
  - destruct rest as [|[op a] rest1]; [simpl in Hge; lia | simpl in Hlen; lia].
  - destruct rest as [|[op a] rest1]; [simpl in Hge; lia|].
    simpl in Hlen, Hge, HG, Hroot. specialize (Hroot Hge).
    simpl in V. apply Forall_cons in V as [Vop V1].
    inversion Hat as [| s0 op0 n1 t1 s2 a0 rest0 Hc Hn Ho]; subst.
    assert (V1' : Forall (valid_op (BinopPrecedence s2)) (map fst rest1))
      by now rewrite (getNextToken_table _ _ _ _ Hn).
    destruct (ParsePrimary_operand s2 a rest1 Ho V1')
      as (n2 & s3 & HP & Hat3 & Hm3).
    rewrite (getNextToken_table _ _ _ _ Hn) in Hm3.
    pose proof (GetTokPrecedence_AtOperator s3 rest1 Hat3) as HG3.
    rewrite Hm3 in HG3. specialize (HG3 V1).
    set (tbl := BinopPrecedence s) in *.
    set (p := prec_in tbl op) in *.
    assert (Ha : shaped tbl a /\ (forall j, root_ge tbl j a)
                 /\ flatten a = [inl a]).
    { inversion Ho; subst; simpl; auto. }
    destruct Ha as (Hsa & Hra & Hfa).
    destruct (Z.ltb_spec p (next_prec tbl rest1)) as [Htight|Hloose].
    + (* the next operator binds tighter: it goes to the right operand *)
      destruct (IH rest1 ltac:(lia) s3 (p + 1) a ltac:(lia) Hat3 V1 Hm3 Hsa
                  ltac:(intros; apply Hra))
        as (f1 & tr & s5 & taken1 & left1 & E1 & Hr1 & Hat5 & Hm5 & Hn5
            & Hf1 & Hs1 & Hroot1).
      assert (Hlen1 : (length left1 <= k)%nat).
      { apply (f_equal (@length _)) in Hr1. rewrite length_app in Hr1. lia. }
      assert (V5 : Forall (valid_op tbl) (map fst left1)).
      { rewrite Hr1, map_app in V1. now apply Forall_app in V1 as [_ ?]. }
      assert (Hrtr : root_ge tbl (p + 1) tr).
      { destruct Hroot1 as [-> | ?]; [apply Hra | assumption]. }
      destruct (IH left1 Hlen1 s5 minPrec (BinaryExprAST op lhs tr) Hmin
                  Hat5 V5 Hm5)
        as (f2 & t & s6 & taken2 & left2 & E2 & Hr2 & Hat6 & Hm6 & Hn6
            & Hf2 & Hs2 & Hroot2).
      { simpl. fold p. auto. }
      { intros _. simpl. fold p. lia. }
      exists (S (Nat.max (Nat.max n1 n2) (Nat.max f1 f2))), t, s6,
        ((op, a) :: taken1 ++ taken2)%list, left2.
      split; [|split; [|split; [|split; [|split; [|split; [|split]]]]]];
        try assumption.
      * simpl. rewrite HG.
        destruct (Z.ltb_spec p minPrec); [lia|].
        rewrite (getNextToken_mono _ _ _ _ Hn) by lia.
        rewrite (ParsePrimary_mono _ _ _ _ HP) by lia.
        rewrite HG3. destruct (Z.ltb_spec p (next_prec tbl rest1)); [|lia].
        rewrite (ParseBinOpRHS_mono _ _ _ _ _ _ E1) by lia.
        rewrite Hc, to_char_chr.
        apply (ParseBinOpRHS_mono _ _ _ _ _ _ E2). lia.
      * rewrite Hr1, Hr2. simpl. now rewrite app_assoc.
      * rewrite Hf2. simpl. rewrite Hf1, Hfa. simpl.
        rewrite flat_app, <- !app_assoc. reflexivity.
      * destruct Hroot2 as [-> | ?]; [right; simpl; fold p; lia | now right].
    + (* the next operator does not bind tighter: combine and go on *)
      destruct (IH rest1 ltac:(lia) s3 minPrec (BinaryExprAST op lhs a) Hmin
                  Hat3 V1 Hm3)
        as (f2 & t & s6 & taken2 & left2 & E2 & Hr2 & Hat6 & Hm6 & Hn6
            & Hf2 & Hs2 & Hroot2).
      { simpl. fold p. auto. }
      { intros _. simpl. fold p. lia. }
      exists (S (Nat.max (Nat.max n1 n2) f2)), t, s6,
        ((op, a) :: taken2)%list, left2.
      split; [|split; [|split; [|split; [|split; [|split; [|split]]]]]];
        try assumption.
      * simpl. rewrite HG.
        destruct (Z.ltb_spec p minPrec); [lia|].
        rewrite (getNextToken_mono _ _ _ _ Hn) by lia.
        rewrite (ParsePrimary_mono _ _ _ _ HP) by lia.
        rewrite HG3. destruct (Z.ltb_spec p (next_prec tbl rest1)); [lia|].
        rewrite Hc, to_char_chr.
        apply (ParseBinOpRHS_mono _ _ _ _ _ _ E2). lia.
      * rewrite Hr2. reflexivity.
      * rewrite Hf2. simpl. rewrite Hfa, <- !app_assoc. reflexivity.
      * destruct Hroot2 as [-> | ?]; [right; simpl; fold p; lia | now right].
Qed.

(** The prescribed shape leaves no choice: a tree is determined by its
    operands and operators read from left to right. *)
Lemma flatten_nonempty (e : ExprAST double) : flatten e <> [].
Proof.
  destruct e; simpl; try discriminate.
  intros H. apply app_eq_nil in H as [_ H]. discriminate H.
Qed.

Lemma shaped_ops_ge tbl (e : ExprAST double) : forall k op,
  shaped tbl e -> root_ge tbl k e -> In (inr op) (flatten e) ->
  k <= prec_in tbl op.
Proof.
  induction e as [v | x | op0 l IHl r IHr | c args]; intros k op Hs Hr Hin;
    simpl in Hin.
  - destruct Hin as [H|[]]; discriminate H.
  - destruct Hin as [H|[]]; discriminate H.
  - simpl in Hs, Hr. destruct Hs as (Hsl & Hsr & Hrl & Hrr).
    apply in_app_or in Hin as [Hin|[Hin|Hin]].
    + specialize (IHl _ _ Hsl Hrl Hin). lia.
    + injection Hin as <-. exact Hr.
    + specialize (IHr _ _ Hsr Hrr Hin). lia.
  - destruct Hin as [H|[]]; discriminate H.
Qed.

Lemma shaped_unique tbl (t1 : ExprAST double) : forall t2,
  shaped tbl t1 -> shaped tbl t2 -> flatten t1 = flatten t2 -> t1 = t2.
Proof.
  induction t1 as [v | x | op1 l1 IHl r1 IHr | c args]; intros t2 H1 H2 Hf.
  1, 2, 4: destruct t2 as [v2 | x2 | op2 l2 r2 | c2 args2]; simpl in Hf;
    try (injection Hf as Hf; congruence);
    destruct (flatten l2) as [|z fl] eqn:El;
    [ now apply flatten_nonempty in El
    | simpl in Hf; injection Hf as _ Hf; destruct fl; discriminate Hf ].
  destruct t2 as [v2 | x2 | op2 l2 r2 | c2 args2]; simpl in Hf;
    try (destruct (flatten l1) as [|z fl] eqn:El;
         [ now apply flatten_nonempty in El
         | simpl in Hf; injection Hf as _ Hf; destruct fl; discriminate Hf ]).
  simpl in H1, H2. destruct H1 as (Hsl1 & Hsr1 & Hrl1 & Hrr1).
  destruct H2 as (Hsl2 & Hsr2 & Hrl2 & Hrr2).
  assert (Hsplit : flatten l1 = flatten l2 /\ op1 = op2
                   /\ flatten r1 = flatten r2).
  { apply app_eq_app in Hf as (l & [[Ha Hb] | [Ha Hb]]).
    - destruct l as [|z l].
      + rewrite app_nil_r in Ha. simpl in Hb. injection Hb as -> ->. auto.
      + exfalso. simpl in Hb. injection Hb as <- Hb.
        assert (I1 : In (inr op2) (flatten l1))
          by (rewrite Ha; apply in_or_app; right; left; reflexivity).
        assert (I2 : In (inr op1) (flatten r2))
          by (rewrite Hb; apply in_or_app; right; left; reflexivity).
        pose proof (shaped_ops_ge tbl l1 _ _ Hsl1 Hrl1 I1).
        pose proof (shaped_ops_ge tbl r2 _ _ Hsr2 Hrr2 I2). lia.
    - destruct l as [|z l].
      + rewrite app_nil_r in Ha. simpl in Hb. injection Hb as -> ->. auto.
      + exfalso. simpl in Hb. injection Hb as <- Hb.
        assert (I1 : In (inr op1) (flatten l2))
          by (rewrite Ha; apply in_or_app; right; left; reflexivity).
        assert (I2 : In (inr op2) (flatten r1))
          by (rewrite Hb; apply in_or_app; right; left; reflexivity).
        pose proof (shaped_ops_ge tbl l2 _ _ Hsl2 Hrl2 I1).
        pose proof (shaped_ops_ge tbl r1 _ _ Hsr1 Hrr1 I2). lia. }
  destruct Hsplit as (Hl & -> & Hr).
  f_equal; [now apply IHl | now apply IHr].
Qed.

(** [ParseExpression] on a whole chain. *)
Lemma ParseExpression_chain s a (rest : list (ascii * ExprAST double)) :
  AtOperand strtod s a rest ->
  Forall (valid_op (BinopPrecedence s)) (map fst rest) ->
  exists fuel t s',
    ParseExpression strtod fuel s = Some (Some t, s')
    /\ flatten t = inl a :: flat rest
    /\ shaped (BinopPrecedence s) t
    /\ isascii (CurTok s') = false.
Proof.
  intros Hat V.
  destruct (ParsePrimary_operand s a rest Hat V) as (n & s1 & HP & Hat1 & Hm1).
  assert (Ha : shaped (BinopPrecedence s) a
               /\ (forall j, root_ge (BinopPrecedence s) j a)
               /\ flatten a = [inl a]).
  { inversion Hat; subst; simpl; auto. }
  destruct Ha as (Hsa & Hra & Hfa).
  destruct (ParseBinOpRHS_chain (BinopPrecedence s) (length rest) rest
              (Nat.le_refl _) s1 0 a (Z.le_refl 0) Hat1 V Hm1 Hsa
              ltac:(intros; apply Hra))
    as (f & t & s' & taken & left & E & Hr & Hat' & Hm' & Hn' & Hf & Hs & _).
  assert (Hleft : left = []).
  { destruct left as [|[op b] left']; [reflexivity|]. exfalso.
    rewrite Hr, map_app in V. apply Forall_app in V as [_ V].
    simpl in V. apply Forall_cons in V as [Vop _].
    apply prec_in_valid in Vop. simpl in Hn'. lia. }
  subst left. rewrite app_nil_r in Hr. subst taken.
  exists (S (Nat.max n f)), t, s'. split; [|split; [|split]].
  - simpl. rewrite (ParsePrimary_mono _ _ _ _ HP) by lia.
    apply (ParseBinOpRHS_mono _ _ _ _ _ _ E). lia.
  - now rewrite Hf, Hfa.
  - assumption.
  - now inversion Hat'.
Qed.

(** ** From the text of a chain to its tokens *)

Lemma gettok_char s (ws : string) (c : ascii) (rest : string) fuel :
  stream s = chars (ws ++ String c rest) ->
  string_forall isspace ws = true ->
  isspace (chr c) = false -> isalpha (chr c) = false ->
  isnumchar (chr c) = false -> (chr c =? chr "#") = false ->
  (String.length ws + 1 <= fuel)%nat ->
  gettok strtod fuel s = Some (chr c, read_LastChar (set_input rest s)).
Proof.
  intros Hst Hws H1 H2 H3 H4 Hf.
  destruct fuel as [|n]; [lia|].
  rewrite gettok_S.
  rewrite (ws_loop_spec ws s c rest) by assumption.
  cbn [LastChar set_LastChar set_input]. rewrite H2.
  change (isdigit (chr c) || (chr c =? chr "."))%bool with (isnumchar (chr c)).
  rewrite H3, H4. unfold gettok_tail.
  cbn [LastChar set_LastChar set_input]. rewrite chr_not_EOF.
  destruct s, rest; reflexivity.
Qed.

Lemma Remaining_stream s (x : string) c (y : string) :
  Remaining s (x ++ String c y) -> stream s = chars (x ++ String c y).
Proof.
  unfold Remaining, stream.
  destruct x as [|d x]; [rewrite append_nil_l | rewrite append_cons];
    intros [-> ->]; reflexivity.
Qed.

Lemma Remaining_length s (x : string) c (y : string) :
  Remaining s (x ++ String c y) ->
  (String.length x <= String.length (input s))%nat.
Proof.
  intros H. apply Remaining_stream, (f_equal (@length Z)) in H.
  unfold stream in H. simpl in H.
  rewrite !chars_length, string_length_app in H. simpl in H. lia.
Qed.

Lemma Remaining_read (s0 : State double) rest :
  Remaining (read_LastChar (set_input rest s0)) rest.
Proof. destruct rest; simpl; auto. Qed.

Lemma Remaining_same s s' txt :
  LastChar s' = LastChar s -> input s' = input s ->
  Remaining s txt -> Remaining s' txt.
Proof. unfold Remaining. intros -> ->. auto. Qed.

(** An operand is followed by white space, by an operator, or by
    nothing: its run of characters stops there. *)
Lemma render_stops (rest : list link) :
  forallb link_ok rest = true ->
  stops isnumchar (render rest) = true /\ stops isalnum (render rest) = true.
Proof.
  destruct rest as [|[[[p1 op] p2] a] r]; [now split|].
  intros H. simpl in H.
  apply andb_true_iff in H as [H _]. unfold link_ok in H.
  apply andb_true_iff in H as [H _]. apply andb_true_iff in H as [H _].
  apply andb_true_iff in H as [Hp Hop].
  cbn [render]. destruct p1 as [|w p1].
  - rewrite append_nil_l. unfold stops, seeded_op in *.
    revert Hop. generalize (chr op). unfold chr. simpl. intros z Hz.
    split; apply negb_true_iff; ctype.
  - rewrite append_cons. unfold stops. simpl in Hp.
    apply andb_true_iff in Hp as [Hw _].
    revert Hw. generalize (chr w). intros z Hz.
    split; apply negb_true_iff; ctype.
Qed.

(** Scanning one operand. *)
Lemma operand_AtOperand (a : operand) (p : string) (tail : string)
    (L : list (ascii * ExprAST double)) s :
  operand_ok a = true ->
  string_forall isspace p = true ->
  stops isnumchar tail = true -> stops isalnum tail = true ->
  Remaining s (p ++ operand_text a ++ tail) ->
  (forall s2, Remaining s2 tail -> BinopPrecedence s2 = BinopPrecedence s ->
     exists n t s3,
       getNextToken strtod n s2 = Some (t, s3) /\ AtOperator strtod s3 L) ->
  exists n t s2,
    getNextToken strtod n s = Some (t, s2)
    /\ AtOperand strtod s2 (leaf strtod a) L
    /\ BinopPrecedence s2 = BinopPrecedence s.
Proof.
  intros Ha Hp Hn Hal Hrem Hnext.
  destruct a as [[|d body]|[|c body]]; try discriminate Ha;
    cbn [operand_text operand_ok leaf] in *; rewrite append_cons in Hrem.
  - (* a number *)
    simpl in Ha. apply andb_true_iff in Ha as [Hd Hb].
    pose proof (Remaining_stream _ _ _ _ Hrem) as Hst.
    pose proof (gettok_digits s p d body tail _ Hst Hp Hd Hb Hn
                  (Nat.le_refl _)) as E.
    set (s1 := set_NumVal (strtod (String d body))
                 (read_LastChar (set_input tail s))) in *.
    destruct (Hnext (set_CurTok tok_number s1)) as (n & t & s3 & E3 & Hat).
    { apply (Remaining_same (read_LastChar (set_input tail s)));
        [reflexivity | reflexivity | apply Remaining_read]. }
    { unfold s1. destruct s, tail; reflexivity. }
    exists (String.length (input s) + 2)%nat, tok_number,
      (set_CurTok tok_number s1).
    split; [unfold getNextToken; now rewrite E|]. split.
    + change (strtod (String d body))
        with (NumVal (set_CurTok tok_number s1)).
      now apply (AtNumber strtod _ n t s3).
    + unfold s1. destruct s, tail; reflexivity.
  - (* a variable *)
    apply andb_true_iff in Ha as [Ha He]. apply andb_true_iff in Ha as [Ha Hd].
    apply andb_true_iff in Ha as [Hc Hb].
    apply negb_true_iff in Hd, He.
    pose proof (Remaining_stream _ _ _ _ Hrem) as Hst.
    pose proof (gettok_word s p c body tail _ Hst Hp Hc Hb Hal
                  (Nat.le_refl _)) as E.
    rewrite Hd, He in E.
    set (s1 := set_IdentifierStr (String c body)
                 (read_LastChar (set_input tail s))) in *.
    destruct (Hnext (set_CurTok tok_identifier s1)) as (n & t & s3 & E3 & Hat).
    { apply (Remaining_same (read_LastChar (set_input tail s)));
        [reflexivity | reflexivity | apply Remaining_read]. }
    { unfold s1. destruct s, tail; reflexivity. }
    exists (String.length (input s) + 2)%nat, tok_identifier,
      (set_CurTok tok_identifier s1).
    split; [unfold getNextToken; now rewrite E|]. split.
    + change (String c body)
        with (IdentifierStr (set_CurTok tok_identifier s1)) at 1.
      now apply (AtVariable strtod _ n t s3).
    + unfold s1. destruct s, tail; reflexivity.
Qed.

(** Scanning the links of a chain. *)
Lemma render_AtOperator (rest : list link) :
  forallb link_ok rest = true ->
  forall s, Remaining s (render rest) ->
  exists n t s',
    getNextToken strtod n s = Some (t, s')
    /\ AtOperator strtod s' (leaves strtod rest).
Proof.
  induction rest as [|[[[p1 op] p2] a] r IH]; intros Hok s Hrem.
  - exists 1%nat, tok_eof, (set_CurTok tok_eof s). split.
    + unfold getNextToken. now rewrite (gettok_at_eof s 0 Hrem).
    + now apply AtEnd.
  - simpl in Hok. apply andb_true_iff in Hok as [Hl Hr].
    unfold link_ok in Hl.
    apply andb_true_iff in Hl as [Hl Ha]. apply andb_true_iff in Hl as [Hl Hp2].
    apply andb_true_iff in Hl as [Hp1 Hop].
    cbn [render] in Hrem.
    pose proof (Remaining_stream _ _ _ _ Hrem) as Hst.
    pose proof (Remaining_length _ _ _ _ Hrem) as Hlen.
    assert (Hc : isspace (chr op) = false /\ isalpha (chr op) = false
                 /\ isnumchar (chr op) = false
                 /\ (chr op =? chr "#") = false).
    { unfold seeded_op in Hop. revert Hop. generalize (chr op).
      unfold chr. simpl. intros z Hz. repeat split; ctype. }
    destruct Hc as (C1 & C2 & C3 & C4).
    pose proof (gettok_char s p1 op _ (String.length (input s) + 2)
                  Hst Hp1 C1 C2 C3 C4 ltac:(lia)) as E.
    set (tail := (p2 ++ operand_text a ++ render r)%string) in *.
    set (s1 := set_CurTok (chr op) (read_LastChar (set_input tail s))).
    destruct (render_stops r Hr) as [Hn Hal].
    destruct (operand_AtOperand a p2 (render r) (leaves strtod r) s1
                Ha Hp2 Hn Hal) as (n2 & t2 & s2 & E2 & Hat2 & _).
    { apply (Remaining_same (read_LastChar (set_input tail s)));
        [reflexivity | reflexivity | apply Remaining_read]. }
    { intros s3 Hrem3 _. now apply IH. }
    exists (String.length (input s) + 2)%nat, (chr op), s1. split.
    + unfold getNextToken. now rewrite E.
    + cbn [leaves map]. now apply (AtOp strtod s1 op n2 t2 s2).
Qed.

Lemma seeded_op_valid (op : ascii) :
  seeded_op op = true -> valid_op (seed_table ∅) op.
Proof.
  unfold seeded_op. intros H.
  assert (Hop : op = "<"%char \/ op = "+"%char \/ op = "-"%char
                \/ op = "*"%char).
  { repeat (apply orb_true_iff in H as [H|H]);
      apply Z.eqb_eq, chr_inj in H; auto. }
  destruct Hop as [-> | [-> | [-> | ->]]];
    (split; [reflexivity | split; [discriminate|]]);
    eexists; (split; [reflexivity | lia]).
Qed.

Lemma leaves_valid (rest : list link) :
  forallb link_ok rest = true ->
  Forall (valid_op (seed_table ∅)) (map fst (leaves strtod rest)).
Proof.
  induction rest as [|[[[p1 op] p2] a] r IH]; intros H; [constructor|].
  simpl in H. apply andb_true_iff in H as [Hl Hr].
  unfold link_ok in Hl.
  apply andb_true_iff in Hl as [Hl _]. apply andb_true_iff in Hl as [Hl _].
  apply andb_true_iff in Hl as [_ Hop].
  simpl. constructor; [now apply seeded_op_valid | now apply IH].
Qed.

(** [main] and then [ParseExpression] on the text of a chain. *)
Lemma ParseExpression_text (pad : string) (a : operand) (rest : list link) :
  string_forall isspace pad = true ->
  operand_ok a = true ->
  forallb link_ok rest = true ->
  exists fuel t s',
    from_text strtod zero (ParseExpression strtod) fuel
      (pad ++ operand_text a ++ render rest)
    = Some (Some t, s')
    /\ flatten t = inl (leaf strtod a) :: flat (leaves strtod rest)
    /\ shaped (seed_table ∅) t.
Proof.
  intros Hp Ha Hr.
  set (text := (pad ++ operand_text a ++ render rest)%string).
  destruct (render_stops rest Hr) as [Hn Hal].
  destruct (operand_AtOperand a (String " " pad) (render rest)
              (leaves strtod rest) (seed (start zero text)) Ha)
    as (n & t0 & s1 & E1 & Hat & Htbl); try assumption.
  { rewrite append_cons. split; reflexivity. }
  { intros s2 Hrem _. now apply render_AtOperator. }
  change (BinopPrecedence (seed (start zero text))) with (seed_table ∅)
    in Htbl.
  pose proof (leaves_valid rest Hr) as V. rewrite <- Htbl in V.
  destruct (ParseExpression_chain s1 (leaf strtod a) (leaves strtod rest)
              Hat V) as (f & t & s' & E & Hf & Hs & _).
  exists (Nat.max n f), t, s'. split; [|split].
  - unfold from_text, main_init.
    rewrite (getNextToken_mono _ (Nat.max n f) _ _ E1) by lia.
    apply (ParseExpression_mono _ _ _ _ E). lia.
  - assumption.
  - now rewrite <- Htbl.
Qed.



End Properties.

(** * The theorems at work on concrete inputs

    Numbers are read with [decimal]; the static [NumVal] starts at [0]. *)

Lemma gettok_identifier_witness :
  exists tok,
    gettok decimal 8 (start 0%Q " def(")
    = Some (tok, set_IdentifierStr "def"
                   (read_LastChar (set_input "(" (start 0%Q " def("))))
    /\ ("def" = "def" <-> tok = tok_def)
    /\ ("def" = "extern" <-> tok = tok_extern)
    /\ ("def" <> "def" /\ "def" <> "extern" <-> tok = tok_identifier).
Proof.
  apply (gettok_identifier decimal (start 0%Q " def(") "  " "d" "ef" "(" 8);
    first [reflexivity | simpl; lia].
Defined.

Lemma gettok_number_witness :
  exists s',
    gettok decimal 9 (start 0%Q "1.2.3+") = Some (tok_number, s')
    /\ NumVal s' = (12 # 10)%Q
    /\ s' = set_NumVal (12 # 10)%Q
              (read_LastChar (set_input "+" (start 0%Q "1.2.3+"))).
Proof.
  apply (gettok_number decimal (start 0%Q "1.2.3+") " " "1" ".2.3" "+" 9);
    first [reflexivity | simpl; lia].
Defined.

Lemma gettok_comment_never_returns_witness :
  gettok decimal 1000
    (start 0%Q (String "#" (String "c" (String "010" (String "1" EmptyString)))))
  = None.
Proof.
  apply (gettok_comment_never_returns decimal _ " "
           (String "c" (String "010" (String "1" EmptyString))));
    reflexivity.
Defined.

Lemma gettok_eof_forever_witness :
  gettoks decimal 1 3
    (set_IdentifierStr "x"
       (set_LastChar EOF (set_feof true (set_input EmptyString (start 0%Q "x")))))
  = Some ([tok_eof; tok_eof; tok_eof],
          set_IdentifierStr "x"
            (set_LastChar EOF (set_feof true (set_input EmptyString (start 0%Q "x"))))).
Proof.
  apply (proj2 (gettok_eof_forever decimal (start 0%Q "x") 3 tok_identifier
                  _ (fun F => False_ind _ (Bool.diff_false_true F)) eq_refl)).
  - left. reflexivity.
  - lia.
Defined.

Lemma GetTokPrecedence_inserts_witness :
  GetTokPrecedence (set_CurTok (chr ")") (seed (start 0%Q EmptyString)))
  = (0, set_BinopPrecedence (<[chr ")" := 0]> (BinopPrecedence (seed (start 0%Q EmptyString))))
          (set_CurTok (chr ")") (seed (start 0%Q EmptyString))))
  /\ size (<[chr ")" := 0]> (BinopPrecedence (seed (start 0%Q EmptyString))))
     = S (size (BinopPrecedence (seed (start 0%Q EmptyString))))
  /\ forall s',
       Later decimal
         (snd (GetTokPrecedence (set_CurTok (chr ")") (seed (start 0%Q EmptyString)))))
         s' ->
       BinopPrecedence s' !! chr ")" = Some 0.
Proof.
  apply (GetTokPrecedence_inserts decimal
           (set_CurTok (chr ")") (seed (start 0%Q EmptyString)))); reflexivity.
Defined.

Lemma GetTokPrecedence_absent_is_zero_witness :
  fst (GetTokPrecedence (set_CurTok (chr ")") (seed (start 0%Q EmptyString)))) = 0.
Proof.
  apply (proj1 (GetTokPrecedence_absent_is_zero decimal 0%Q) (chr ")") EmptyString);
    first [reflexivity | discriminate].
Defined.




(** * Further properties of the scanner, the parser and the driver *)

Section Coverage.

Context {double : Type} (strtod : string -> double) (zero : double).

Implicit Types (s : State double) (fuel n : nat).

(** ** The scanner on any input *)

Lemma while_loop_exit {A : Type} (cond : A -> bool * A) (body : A -> A) fuel :
  forall a r, while_loop fuel cond body a = Some r ->
  exists a', cond a' = (false, r).
Proof.
  induction fuel as [|n IH]; intros a r H; [discriminate|].
  simpl in H. destruct (cond a) as [b a1] eqn:E.
  destruct b; [now apply (IH (body a1)) | injection H as <-; now exists a].
Qed.

Lemma read_LastChar_Scanning s : Scanning (read_LastChar s).
Proof.
  unfold Scanning, read_LastChar, getchar.
  destruct (input s) as [|c r] eqn:E; simpl; [left; auto | right; eauto].
Qed.

Lemma gettok_tail_Scanning s t s1 :
  Scanning s -> gettok_tail s = (t, s1) -> Scanning s1.
Proof.
  unfold gettok_tail. intros Hs H.
  destruct (LastChar s =? EOF); injection H as <- <-;
    [assumption | apply read_LastChar_Scanning].
Qed.

Lemma gettok_Scanning n : forall s t s1,
  Scanning s -> gettok strtod n s = Some (t, s1) -> Scanning s1.
Proof.
  induction n as [|n IH]; intros s t s1 Inv H; [discriminate|].
  rewrite gettok_S in H.
  destruct (skip_space (S n) s) as [s2|] eqn:E2; [|discriminate].
  assert (Inv2 : Scanning s2).
  { revert E2. unfold skip_space. apply while_loop_inv; auto.
    intros a _. apply read_LastChar_Scanning. }
  destruct (isalpha (LastChar s2)).
  { destruct (scan_identifier _ _) as [s3|] eqn:E3; [|discriminate].
    assert (Inv3 : Scanning s3).
    { revert E3. unfold scan_identifier.
      apply while_loop_inv; [intros a _; apply read_LastChar_Scanning
                            | auto | exact Inv2]. }
    destruct (String.eqb _ "def"); [now injection H as <- <-|].
    destruct (String.eqb _ "extern"); now injection H as <- <-. }
  destruct (isdigit (LastChar s2) || (LastChar s2 =? chr "."))%bool.
  { destruct (scan_number _ _ _) as [[NumStr s3]|] eqn:E3; [|discriminate].
    injection H as <- <-.
    change (Scanning s3).
    revert E3. unfold scan_number, do_while.
    apply (while_loop_inv (fun a => Scanning (snd a))); [auto | |].
    - intros [x y] _. apply read_LastChar_Scanning.
    - apply read_LastChar_Scanning. }
  destruct (LastChar s2 =? chr "#").
  { destruct (skip_comment _ _) as [s3|] eqn:E3; [|discriminate].
    assert (Inv3 : Scanning s3).
    { revert E3. unfold skip_comment, do_while.
      apply while_loop_inv; auto. }
    destruct (negb (LastChar s3 =? EOF)); [now apply (IH s3 t)|].
    injection H as H. now apply (gettok_tail_Scanning s3 t). }
  injection H as H. now apply (gettok_tail_Scanning s2 t).
Qed.

Lemma gettok_tail_kind s t s1 :
  Scanning s -> isspace (LastChar s) = false -> isalpha (LastChar s) = false ->
  isnumchar (LastChar s) = false -> (LastChar s =? chr "#") = false ->
  gettok_tail s = (t, s1) -> token_kind t.
Proof.
  unfold gettok_tail. intros Hs H1 H2 H3 H4 H.
  destruct (Z.eqb_spec (LastChar s) EOF) as [E|E]; injection H as <- <-.
  - now left.
  - do 5 right. destruct Hs as [[? _]|[c Hc]]; [contradiction|].
    exists c. unfold not_hash. rewrite H4. auto.
Qed.

Lemma gettok_kind n : forall s t s1,
  Scanning s -> gettok strtod n s = Some (t, s1) -> token_kind t.
Proof.
  induction n as [|n IH]; intros s t s1 Inv H; [discriminate|].
  rewrite gettok_S in H.
  destruct (skip_space (S n) s) as [s2|] eqn:E2; [|discriminate].
  assert (Inv2 : Scanning s2).
  { revert E2. unfold skip_space. apply while_loop_inv; auto.
    intros a _. apply read_LastChar_Scanning. }
  assert (Hsp : isspace (LastChar s2) = false).
  { unfold skip_space in E2. apply while_loop_exit in E2 as [a' E].
    now injection E as E ->. }
  destruct (isalpha (LastChar s2)) eqn:Hal.
  { destruct (scan_identifier _ _) as [s3|]; [|discriminate].
    destruct (String.eqb _ "def");
      [injection H as <- <-; right; now left|].
    destruct (String.eqb _ "extern"); injection H as <- <-;
      [do 2 right; now left | do 3 right; now left]. }
  change (isdigit (LastChar s2) || (LastChar s2 =? chr "."))%bool
    with (isnumchar (LastChar s2)) in H.
  destruct (isnumchar (LastChar s2)) eqn:Hnum.
  { destruct (scan_number _ _ _) as [[NumStr s3]|]; [|discriminate].
    injection H as <- <-. do 4 right. now left. }
  destruct (LastChar s2 =? chr "#") eqn:Hh.
  { apply Z.eqb_eq in Hh. now rewrite (skip_comment_stuck s2 Hh) in H. }
  injection H as H.
  now apply (gettok_tail_kind s2 t s1).
Qed.

(** X3: every token that [gettok] returns is the end token, a keyword, an
    identifier, a number, or a byte that is neither white space, a letter,
    a digit, a dot nor the comment character; a byte token lies between
    0 and 255 and so never meets the negative codes.  The scanner stays
    in a position where the lookahead is a byte or [EOF]. *)
Theorem gettok_token_kinds n s t s1 :
  Scanning s -> gettok strtod n s = Some (t, s1) ->
  Scanning s1
  /\ token_kind t
  /\ (char_token t -> 0 <= t < 256)
  /\ (t < 0 -> t = tok_eof \/ t = tok_def \/ t = tok_extern
               \/ t = tok_identifier \/ t = tok_number).
Proof.
  intros Hs H. split; [exact (gettok_Scanning _ _ _ _ Hs H)|].
  pose proof (gettok_kind _ _ _ _ Hs H) as K. split; [exact K|]. split.
  - intros (c & -> & _). apply chr_range.
  - intros Hneg. destruct K as [K|[K|[K|[K|[K|(c & -> & _)]]]]]; auto.
    pose proof (chr_range c). lia.
Qed.

Lemma skip_space_to_eof (ws : string) : forall s fuel,
  isspace (LastChar s) = true -> input s = ws ->
  string_forall isspace ws = true ->
  (String.length ws + 2 <= fuel)%nat ->
  skip_space fuel s
  = Some (set_LastChar EOF (set_feof true (set_input EmptyString s))).
Proof.
  unfold skip_space.
  induction ws as [|w ws IH]; intros s fuel Hl Hin Hws Hf;
    (destruct fuel as [|fuel]; [simpl in Hf; lia|]);
    cbn [while_loop]; rewrite Hl.
  - rewrite (read_LastChar_nil s Hin).
    destruct fuel as [|fuel]; [simpl in Hf; lia|]. cbn [while_loop].
    cbn [LastChar set_LastChar]. change (isspace EOF) with false. cbv iota.
    destruct s; simpl in *; subst; reflexivity.
  - simpl in Hws. apply andb_true_iff in Hws as [Hw Hws].
    rewrite (read_LastChar_cons s w ws Hin).
    rewrite IH; [| exact Hw | reflexivity | exact Hws | simpl in Hf; lia].
    destruct s; reflexivity.
Qed.

Lemma split_run (p : Z -> bool) (x : string) :
  exists run rest,
    x = (run ++ rest)%string /\ string_forall p run = true
    /\ stops p rest = true.
Proof.
  induction x as [|c x (run & rest & E & Hr & Hs)].
  - now exists EmptyString, EmptyString.
  - destruct (p (chr c)) eqn:Hc.
    + exists (String c run), rest. rewrite append_cons, <- E.
      simpl. rewrite Hc, Hr. auto.
    + exists EmptyString, (String c x). simpl. rewrite Hc. auto.
Qed.

Lemma string_forall_app (p : Z -> bool) (x y : string) :
  string_forall p (x ++ y)
  = (string_forall p x && string_forall p y)%bool.
Proof.
  induction x as [|c x IH]; [reflexivity|].
  rewrite append_cons. simpl. now rewrite IH, andb_assoc.
Qed.

Lemma unread_read (s0 : State double) (rest : string) :
  unread (read_LastChar (set_input rest s0)) = rest.
Proof.
  unfold unread. destruct rest as [|c r]; [reflexivity|].
  rewrite (read_LastChar_cons _ c r) by reflexivity.
  cbn [LastChar set_LastChar input set_input].
  now rewrite chr_not_EOF, to_char_chr.
Qed.

Lemma unread_same s s' :
  LastChar s' = LastChar s -> input s' = input s -> unread s' = unread s.
Proof. unfold unread. now intros -> ->. Qed.

Lemma unread_chr s c : LastChar s = chr c -> unread s = String c (input s).
Proof. intros H. unfold unread. now rewrite H, chr_not_EOF, to_char_chr. Qed.

(** On a position without comment character [gettok] returns, with fuel
    just above the length of the input, and what it leaves unread is a
    proper suffix of what was unread, unless nothing was. *)
Lemma gettok_progress s :
  Scanning s -> comment_free s ->
  exists t s' pre,
    gettok strtod (String.length (input s) + 2) s = Some (t, s')
    /\ unread s = (pre ++ unread s')%string
    /\ (LastChar s <> EOF -> pre <> EmptyString).
Proof.
  intros [[HL Hin] | [c HL]] Hcf.
  { exists tok_eof, s, EmptyString.
    replace (String.length (input s) + 2)%nat
      with (S (String.length (input s) + 1)) by lia.
    rewrite (gettok_at_eof strtod s _ HL). repeat split. contradiction. }
  unfold comment_free in Hcf. rewrite (unread_chr s c HL) in *.
  assert (Hne : forall pre : string,
             String.length pre <> 0%nat -> LastChar s <> EOF ->
             pre <> EmptyString).
  { intros pre H _ ->. now apply H. }
  destruct (split_run isspace (String c (input s)))
    as (ws & r0 & E & Hws & Hstop).
  assert (Hst : stream s = chars (ws ++ r0)).
  { rewrite <- E. unfold stream. now rewrite HL. }
  destruct r0 as [|d r1].
  - (* nothing but white space up to the end *)
    rewrite append_nil_r in E. subst ws.
    simpl in Hws. apply andb_true_iff in Hws as [Hc Hws].
    exists tok_eof,
      (set_LastChar EOF (set_feof true (set_input EmptyString s))),
      (String c (input s)).
    split; [|split; [now rewrite append_nil_r | intros _; discriminate]].
    replace (String.length (input s) + 2)%nat
      with (S (String.length (input s) + 1)) by lia.
    rewrite gettok_S.
    rewrite (skip_space_to_eof (input s) s) by
      (try assumption; try reflexivity; try lia; now rewrite HL).
    reflexivity.
  - simpl in Hstop. apply negb_true_iff in Hstop.
    assert (Hlen : (String.length ws <= String.length (input s))%nat).
    { apply (f_equal String.length) in E. simpl in E.
      rewrite string_length_app in E. simpl in E. lia. }
    rewrite E, string_forall_app in Hcf.
    apply andb_true_iff in Hcf as [_ Hcf]. simpl in Hcf.
    apply andb_true_iff in Hcf as [Hd _]. unfold not_hash in Hd.
    apply negb_true_iff in Hd.
    destruct (isalpha (chr d)) eqn:Hal.
    + destruct (split_run isalnum r1) as (body & rest & -> & Hb & Hr).
      pose proof (gettok_word strtod s ws d body rest _ Hst Hws Hal Hb Hr
                    (Nat.le_refl _)) as G.
      eexists _, _, (ws ++ String d body)%string.
      split; [exact G|]. split.
      * rewrite E.
        rewrite (unread_same (read_LastChar (set_input rest s)))
          by reflexivity.
        now rewrite unread_read, append_assoc, append_cons.
      * apply Hne. rewrite string_length_app. simpl. lia.
    + destruct (isnumchar (chr d)) eqn:Hnum.
      * destruct (split_run isnumchar r1) as (body & rest & -> & Hb & Hr).
        pose proof (gettok_digits strtod s ws d body rest _ Hst Hws Hnum Hb Hr
                      (Nat.le_refl _)) as G.
        eexists _, _, (ws ++ String d body)%string.
        split; [exact G|]. split.
        -- rewrite E.
           rewrite (unread_same (read_LastChar (set_input rest s)))
             by reflexivity.
           now rewrite unread_read, append_assoc, append_cons.
        -- apply Hne. rewrite string_length_app. simpl. lia.
      * pose proof (gettok_char strtod s ws d r1
                      (String.length (input s) + 2) Hst Hws Hstop Hal Hnum Hd
                      ltac:(lia)) as G.
        eexists _, _, (ws ++ String d EmptyString)%string.
        split; [exact G|]. split.
        -- rewrite E, unread_read, append_assoc, append_cons, append_nil_l.
           reflexivity.
        -- apply Hne. rewrite string_length_app. simpl. lia.
Qed.

(** X1: a byte that is neither white space, a letter, a digit, a dot nor
    the comment character is a token by itself, whatever its value up to
    255: [gettok] skips the white space in front of it, returns the byte
    and moves the lookahead one character further; nothing else
    changes. *)
Theorem gettok_single_char s (ws : string) (c : ascii) (rest : string) fuel :
  stream s = chars (ws ++ String c rest) ->
  string_forall isspace ws = true ->
  isspace (chr c) = false -> isalpha (chr c) = false ->
  isnumchar (chr c) = false -> not_hash (chr c) = true ->
  (String.length (input s) + 2 <= fuel)%nat ->
  gettok strtod fuel s = Some (chr c, read_LastChar (set_input rest s))
  /\ 0 <= chr c < 256.
Proof.
  intros Hst Hws H1 H2 H3 H4 Hf. split; [|apply chr_range].
  apply (gettok_char strtod s ws c rest); try assumption.
  - unfold not_hash in H4. now apply negb_true_iff in H4.
  - destruct (stream_lengths s ws c EmptyString rest) as [Hl _]; [|lia].
    now rewrite append_nil_l.
Qed.

(** X2: on an input that holds nothing but white space, the empty input
    included, [gettok] reads to the end of stdin and returns the end
    token; the lookahead is then [EOF]. *)
Theorem gettok_blank_input s fuel :
  isspace (LastChar s) = true ->
  string_forall isspace (input s) = true ->
  (String.length (input s) + 2 <= fuel)%nat ->
  gettok strtod fuel s
  = Some (tok_eof,
          set_LastChar EOF (set_feof true (set_input EmptyString s))).
Proof.
  intros Hl Hws Hf. destruct fuel as [|n]; [lia|].
  rewrite gettok_S.
  now rewrite (skip_space_to_eof (input s) s).
Qed.

(** X4: where no comment character is left to scan, [gettok] returns: it
    needs no more fuel than the length of the input plus two, what it
    leaves unread is a suffix of what was unread, shorter by one
    character at least unless the end had been reached, and the scanner
    is again in such a position. *)
Theorem gettok_returns_without_comment s :
  Scanning s -> comment_free s ->
  exists t s' pre,
    gettok strtod (String.length (input s) + 2) s = Some (t, s')
    /\ unread s = (pre ++ unread s')%string
    /\ (LastChar s <> EOF -> pre <> EmptyString)
    /\ Scanning s' /\ comment_free s'.
Proof.
  intros Hs Hcf.
  destruct (gettok_progress s Hs Hcf) as (t & s' & pre & G & Hu & Hp).
  exists t, s', pre. repeat split; try assumption.
  - exact (gettok_Scanning _ _ _ _ Hs G).
  - unfold comment_free in *. rewrite Hu, string_forall_app in Hcf.
    now apply andb_true_iff in Hcf as [_ ?].
Qed.

(** X5: the scanner keeps to its own variables: [gettok] changes neither
    [CurTok], the precedence table nor what was printed on stderr, and
    [getNextToken] changes of these only [CurTok], which it sets to the
    token that [gettok] returned. *)
Theorem scanner_frame n s t s1 :
  getNextToken strtod n s = Some (t, s1) ->
  CurTok s1 = t /\ BinopPrecedence s1 = BinopPrecedence s
  /\ stderr s1 = stderr s
  /\ exists s0,
       gettok strtod n s = Some (t, s0) /\ s1 = set_CurTok t s0
       /\ CurTok s0 = CurTok s /\ BinopPrecedence s0 = BinopPrecedence s
       /\ stderr s0 = stderr s.
Proof.
  unfold getNextToken. intros H.
  destruct (gettok strtod n s) as [[t' s2]|] eqn:E; [|discriminate].
  injection H as <- <-. pose proof (gettok_fields strtod _ _ _ _ E) as F.
  unfold parser_fields in F. injection F as F1 F2 F3. cbn.
  split; [reflexivity|]. split; [exact F2|]. split; [exact F3|].
  exists s2. auto.
Qed.

(** ** Invariants of the whole front end

    A property of the globals that the three primitive operations keep,
    reading a token, looking up a precedence and printing a message, is
    kept by every routine of the parser and by the driver. *)
Section Invariant.

Variable P : State double -> Prop.
Hypothesis P_token : forall fuel s t s',
  getNextToken strtod fuel s = Some (t, s') -> P s -> P s'.
Hypothesis P_prec : forall s p s', GetTokPrecedence s = (p, s') -> P s -> P s'.
Hypothesis P_error : forall msg s,
  P s -> P (set_stderr (stderr s ++ [msg])%list s).

Lemma Step_invariant s s' : Step strtod s s' -> P s -> P s'.
Proof.
  set (R := fun a b : State double => P a -> P b).
  assert (R1 : forall a, R a a) by (intros a; unfold R; auto).
  assert (R2 : forall a b c, R a b -> R b c -> R a c)
    by (intros a b c; unfold R; auto).
  assert (R3 : forall fuel a t b,
             getNextToken strtod fuel a = Some (t, b) -> R a b)
    by (intros fuel a t b H; unfold R; eauto).
  assert (R4 : forall a p b, GetTokPrecedence a = (p, b) -> R a b)
    by (intros a p b H; unfold R; eauto).
  assert (R5 : forall msg a, R a (set_stderr (stderr a ++ [msg])%list a))
    by (intros msg a; unfold R; auto).
  intros H. destruct H as [fuel s t s' H | s p s' H | fuel s r s' H
    | fuel p l s r s' H | fuel s r s' H | fuel s r s' H | fuel s r s' H
    | fuel s r s' H | fuel s r s' H].
  - exact (R3 _ _ _ _ H).
  - exact (R4 _ _ _ H).
  - eapply (ParsePrimary_preorder strtod R); eassumption.
  - eapply (ParseBinOpRHS_preorder strtod R); eassumption.
  - eapply (ParseExpression_preorder strtod R); eassumption.
  - eapply (ParsePrototype_preorder strtod R); eassumption.
  - eapply (ParseDefintion_preorder strtod R); eassumption.
  - eapply (ParseExtern_preorder strtod R); eassumption.
  - eapply (ParseTopLevelExpr_preorder strtod R); eassumption.
Qed.

Lemma Later_invariant s s' : Later strtod s s' -> P s -> P s'.
Proof.
  induction 1 as [|a b c Hab _ IH]; [auto|].
  intros Ha. apply IH. exact (Step_invariant _ _ Hab Ha).
Qed.

Lemma HandleDefintion_Later n c c' :
  HandleDefintion strtod n c = Some c' ->
  Later strtod (globals c) (globals c').
Proof.
  unfold HandleDefintion. intros H.
  destruct (ParseDefintion strtod n (globals c)) as [[[f|] s1]|] eqn:E;
    [| |discriminate].
  - injection H as <-. simpl. apply rtc_once. econstructor 7. exact E.
  - destruct (getNextToken strtod n s1) as [[t s2]|] eqn:E2; [|discriminate].
    injection H as <-. simpl.
    eapply rtc_l; [econstructor 7; exact E|].
    apply rtc_once. econstructor 1. exact E2.
Qed.

Lemma HandleExtern_Later n c c' :
  HandleExtern strtod n c = Some c' ->
  Later strtod (globals c) (globals c').
Proof.
  unfold HandleExtern. intros H.
  destruct (ParseExtern strtod n (globals c)) as [[[f|] s1]|] eqn:E;
    [| |discriminate].
  - injection H as <-. simpl. apply rtc_once. econstructor 8. exact E.
  - destruct (getNextToken strtod n s1) as [[t s2]|] eqn:E2; [|discriminate].
    injection H as <-. simpl.
    eapply rtc_l; [econstructor 8; exact E|].
    apply rtc_once. econstructor 1. exact E2.
Qed.

Lemma HandleTopLevelExpression_Later n c c' :
  HandleTopLevelExpression strtod n c = Some c' ->
  Later strtod (globals c) (globals c').
Proof.
  unfold HandleTopLevelExpression. intros H.
  destruct (ParseTopLevelExpr strtod n (globals c)) as [[[f|] s1]|] eqn:E;
    [| |discriminate].
  - injection H as <-. simpl. apply rtc_once. econstructor 9. exact E.
  - destruct (getNextToken strtod n s1) as [[t s2]|] eqn:E2; [|discriminate].
    injection H as <-. simpl.
    eapply rtc_l; [econstructor 9; exact E|].
    apply rtc_once. econstructor 1. exact E2.
Qed.

Lemma MainLoop_Later n : forall c c',
  MainLoop strtod n c = Some c' ->
  Later strtod (globals c) (globals c') /\ CurTok (globals c') = tok_eof.
Proof.
  induction n as [|n IH]; intros c c' H; [discriminate|].
  simpl in H.
  destruct (CurTok (globals c) =? tok_eof) eqn:E0.
  { injection H as <-. simpl. split; [apply rtc_refl | lia]. }
  destruct (CurTok (globals c) =? chr ";").
  { destruct (getNextToken strtod n (globals c)) as [[t s1]|] eqn:E1;
      [|discriminate].
    apply IH in H as [H1 H2]. split; [|exact H2].
    eapply rtc_l; [econstructor 1; exact E1 | exact H1]. }
  destruct (CurTok (globals c) =? tok_def).
  { destruct (HandleDefintion strtod n (prompt c)) as [c2|] eqn:E1;
      [|discriminate].
    apply HandleDefintion_Later in E1. apply IH in H as [H1 H2].
    split; [|exact H2]. exact (rtc_trans _ _ _ E1 H1). }
  destruct (CurTok (globals c) =? tok_extern).
  { destruct (HandleExtern strtod n (prompt c)) as [c2|] eqn:E1;
      [|discriminate].
    apply HandleExtern_Later in E1. apply IH in H as [H1 H2].
    split; [|exact H2]. exact (rtc_trans _ _ _ E1 H1). }
  destruct (HandleTopLevelExpression strtod n (prompt c)) as [c2|] eqn:E1;
    [|discriminate].
  apply HandleTopLevelExpression_Later in E1. apply IH in H as [H1 H2].
  split; [|exact H2]. exact (rtc_trans _ _ _ E1 H1).
Qed.

Lemma main_Later n text c :
  main strtod zero n text = Some c ->
  Later strtod (seed (start zero text)) (globals c)
  /\ CurTok (globals c) = tok_eof.
Proof.
  unfold main. simpl. intros H.
  destruct (getNextToken strtod n (seed (start zero text))) as [[t s1]|] eqn:E;
    [|discriminate].
  apply MainLoop_Later in H as [H1 H2]. split; [|exact H2].
  eapply rtc_l; [econstructor 1; exact E | exact H1].
Qed.

End Invariant.

Lemma seed_nonneg text : table_nonneg (seed (start zero text)).
Proof.
  intros k v. unfold seed, start, seed_table. simpl.
  repeat (rewrite lookup_insert_Some; intros [[<- <-]|[_ H]]; [lia|revert H]).
  now rewrite lookup_empty.
Qed.

Lemma Later_nonneg s s' :
  Later strtod s s' -> table_nonneg s -> table_nonneg s'.
Proof.
  apply Later_invariant.
  - intros fuel a t b H. unfold table_nonneg.
    now rewrite (getNextToken_table _ _ _ _ _ H).
  - intros a p b. apply GetTokPrecedence_nonneg.
  - intros msg a. auto.
Qed.

(** X6: the table never holds a negative precedence: [main] seeds it
    with positive ones and the only other writer, the indexing inside
    [GetTokPrecedence], adds zeros.  So in every state that the program
    reaches, [GetTokPrecedence] answers -1 exactly when the current token
    is not an ASCII character, answers the entry of the table otherwise,
    and an expression that parses ends in front of a token that is not
    an ASCII character. *)
Theorem precedence_never_negative text s :
  Later strtod (seed (start zero text)) s ->
  table_nonneg s
  /\ (fst (GetTokPrecedence s) = -1 <-> isascii (CurTok s) = false)
  /\ (isascii (CurTok s) = true ->
      0 <= fst (GetTokPrecedence s)
      /\ BinopPrecedence (snd (GetTokPrecedence s)) !! CurTok s
         = Some (fst (GetTokPrecedence s)))
  /\ (forall n e s',
        ParseExpression strtod n s = Some (Some e, s') ->
        isascii (CurTok s') = false).
Proof.
  intros HL.
  pose proof (Later_nonneg _ _ HL (seed_nonneg text)) as Hnn.
  split; [exact Hnn|]. split; [|split].
  - split.
    + intros H. apply table_nonneg_prec; [exact Hnn | lia].
    + intros H. now rewrite GetTokPrecedence_nonascii.
  - intros Ha. unfold GetTokPrecedence, map_index. rewrite Ha. simpl.
    destruct (BinopPrecedence s !! CurTok s) as [v|] eqn:Hm; simpl.
    + pose proof (Hnn _ _ Hm) as Hv.
      destruct (Z.ltb_spec v 0); [lia|]. simpl. split; [lia|exact Hm].
    + split; [lia|]. unfold set_BinopPrecedence. simpl.
      now rewrite lookup_insert_eq.
  - intros n e s' H. exact (ParseExpression_stops strtod n s e s' Hnn H).
Qed.

(** ** What a routine leaves behind, by its outcome

    [Q a ok b] relates the state before a routine to the state after it,
    [ok] telling whether the routine returned a node or null.  When the
    primitive operations are related so, and a null is what ends a
    sequence of successes, every routine of the parser is. *)
Section Outcome.

Variable Q : State double -> bool -> State double -> Prop.
Hypothesis Q_ret : forall s, Q s true s.
Hypothesis Q_seq : forall a b c ok, Q a true b -> Q b ok c -> Q a ok c.
Hypothesis Q_token : forall fuel s t s',
  getNextToken strtod fuel s = Some (t, s') -> Q s true s'.
Hypothesis Q_prec : forall s p s', GetTokPrecedence s = (p, s') -> Q s true s'.
Hypothesis Q_error : forall msg s,
  Q s false (set_stderr (stderr s ++ [msg])%list s).

Ltac chainQ :=
  repeat match goal with
  | H : Q ?a true ?b |- Q ?a _ ?c =>
    first [exact H | apply (Q_seq a b c _ H)]
  end;
  first [apply Q_ret | apply Q_error | assumption | idtac].

Lemma ParseNumber_outcome n s r s' :
  ParseNumber strtod n s = Some (r, s') -> Q s (is_node r) s'.
Proof.
  unfold ParseNumber. intros H.
  destruct (getNextToken strtod n s) as [[t s1]|] eqn:E; [|discriminate].
  injection H as <- <-. simpl. eauto.
Qed.

Lemma parse_outcome n :
  (forall s r s', ParsePrimary strtod n s = Some (r, s') -> Q s (is_node r) s')
  /\ (forall p l s r s',
        ParseBinOpRHS strtod n p l s = Some (r, s') -> Q s (is_node r) s')
  /\ (forall s r s', ParseExpression strtod n s = Some (r, s') -> Q s (is_node r) s')
  /\ (forall s r s', ParseParenExpr strtod n s = Some (r, s') -> Q s (is_node r) s')
  /\ (forall s r s',
        ParseIdentifierExpr strtod n s = Some (r, s') -> Q s (is_node r) s')
  /\ (forall a s r s',
        ParseCallArgs strtod n a s = Some (r, s') -> Q s (is_node r) s').
Proof.
  induction n as [|n IH].
  { repeat split; intros; discriminate. }
  destruct IH as (IHp & IHb & IHe & IHpar & IHid & IHargs).
  repeat split; intros *; simpl; intros H;
    repeat match type of H with
    | match ?x with _ => _ end = Some _ =>
      lazymatch x with
      | getNextToken _ _ _ =>
        let E := fresh "E" in
        destruct x as [[? ?]|] eqn:E; [apply Q_token in E | discriminate H]
      | GetTokPrecedence _ =>
        let E := fresh "E" in destruct x as [? ?] eqn:E; apply Q_prec in E
      | ParsePrimary _ _ _ =>
        let E := fresh "E" in
        destruct x as [[[?|] ?]|] eqn:E;
          [apply IHp in E | apply IHp in E | discriminate H]
      | ParseBinOpRHS _ _ _ _ _ =>
        let E := fresh "E" in
        destruct x as [[[?|] ?]|] eqn:E;
          [apply IHb in E | apply IHb in E | discriminate H]
      | ParseExpression _ _ _ =>
        let E := fresh "E" in
        destruct x as [[[?|] ?]|] eqn:E;
          [apply IHe in E | apply IHe in E | discriminate H]
      | ParseCallArgs _ _ _ _ =>
        let E := fresh "E" in
        destruct x as [[[?|] ?]|] eqn:E;
          [apply IHargs in E | apply IHargs in E | discriminate H]
      | (if ?c then _ else _) => destruct c
      | Some _ => cbv iota beta in H
      | _ => destruct x
      end
    end;
    first
      [ apply IHid in H | apply IHpar in H | apply IHb in H
      | apply IHargs in H | apply ParseNumber_outcome in H
      | injection H as <- <- ];
    simpl in *; chainQ.
Qed.

Lemma ParsePrototype_args_outcome n : forall a s r s',
  ParsePrototype_args strtod n a s = Some (r, s') -> Q s true s'.
Proof.
  induction n as [|n IH]; intros a s r s' H; [discriminate|]. simpl in H.
  destruct (getNextToken strtod n s) as [[t s1]|] eqn:E; [|discriminate].
  apply Q_token in E.
  destruct (t =? tok_identifier); [apply IH in H | injection H as <- <-];
    chainQ.
Qed.

Lemma ParsePrototype_outcome n s r s' :
  ParsePrototype strtod n s = Some (r, s') -> Q s (is_node r) s'.
Proof.
  unfold ParsePrototype, ErrorP. intros H.
  repeat match type of H with
  | match ?x with _ => _ end = Some _ =>
    lazymatch x with
    | getNextToken _ _ _ =>
      let E := fresh "E" in
      destruct x as [[? ?]|] eqn:E; [apply Q_token in E | discriminate H]
    | ParsePrototype_args _ _ _ _ =>
      let E := fresh "E" in
      destruct x as [[? ?]|] eqn:E;
        [apply ParsePrototype_args_outcome in E | discriminate H]
    | _ => destruct x
    end
  end;
  injection H as <- <-; simpl; chainQ.
Qed.

Lemma ParseExpression_outcome n s r s' :
  ParseExpression strtod n s = Some (r, s') -> Q s (is_node r) s'.
Proof. apply (proj1 (proj2 (proj2 (parse_outcome n)))). Qed.

Lemma ParseDefintion_outcome n s r s' :
  ParseDefintion strtod n s = Some (r, s') -> Q s (is_node r) s'.
Proof.
  unfold ParseDefintion. intros H.
  destruct (getNextToken strtod n s) as [[t s1]|] eqn:E1; [|discriminate].
  apply Q_token in E1.
  destruct (ParsePrototype strtod n s1) as [[[P|] s2]|] eqn:E2;
    [| |discriminate]; apply ParsePrototype_outcome in E2.
  - destruct (ParseExpression strtod n s2) as [[[e|] s3]|] eqn:E3;
      [| |discriminate]; apply ParseExpression_outcome in E3;
      injection H as <- <-; simpl in *; chainQ.
  - injection H as <- <-. simpl in *. chainQ.
Qed.

Lemma ParseExtern_outcome n s r s' :
  ParseExtern strtod n s = Some (r, s') -> Q s (is_node r) s'.
Proof.
  unfold ParseExtern. intros H.
  destruct (getNextToken strtod n s) as [[t s1]|] eqn:E1; [|discriminate].
  apply Q_token in E1. apply ParsePrototype_outcome in H. chainQ.
Qed.

Lemma ParseTopLevelExpr_outcome n s r s' :
  ParseTopLevelExpr strtod n s = Some (r, s') -> Q s (is_node r) s'.
Proof.
  unfold ParseTopLevelExpr. intros H.
  destruct (ParseExpression strtod n s) as [[[e|] s3]|] eqn:E3;
    [| |discriminate]; apply ParseExpression_outcome in E3;
    injection H as <- <-; exact E3.
Qed.

End Outcome.

Lemma getNextToken_stderr n s t s1 :
  getNextToken strtod n s = Some (t, s1) -> stderr s1 = stderr s.
Proof.
  unfold getNextToken. intros H.
  destruct (gettok strtod n s) as [[t' s2]|] eqn:E; [|discriminate].
  injection H as <- <-. apply gettok_fields in E.
  unfold parser_fields in E. injection E as _ _ E3. exact E3.
Qed.

Lemma GetTokPrecedence_unchanged s p s1 :
  GetTokPrecedence s = (p, s1) ->
  s1 = set_BinopPrecedence (BinopPrecedence s1) s.
Proof.
  intros H. replace s1 with (snd (GetTokPrecedence s)) by now rewrite H.
  rewrite GetTokPrecedence_state.
  destruct (isascii (CurTok s)); [reflexivity|].
  now rewrite set_BinopPrecedence_id.
Qed.

Lemma Reports_parse :
  (forall s, Reports s true s)
  /\ (forall (a b c : State double) ok,
        Reports a true b -> Reports b ok c -> Reports a ok c)
  /\ (forall fuel s t s',
        getNextToken strtod fuel s = Some (t, s') -> Reports s true s')
  /\ (forall s p s', GetTokPrecedence s = (p, s') -> Reports s true s')
  /\ (forall msg s, Reports s false (set_stderr (stderr s ++ [msg])%list s)).
Proof.
  repeat split.
  - intros a b c [|]; unfold Reports; intros H1 H2.
    + congruence.
    + destruct H2 as [msg H2]. exists msg. congruence.
  - intros fuel s t s' H. exact (getNextToken_stderr _ _ _ _ H).
  - intros s p s' H. unfold Reports.
    now rewrite (GetTokPrecedence_unchanged _ _ _ H).
  - intros msg s. now exists msg.
Qed.

(** X7: a routine of the parser that returns a node has printed nothing
    on stderr, and one that returns null has printed exactly one
    message, however deep in the calls the failure was found. *)
Theorem one_message_per_failure n s :
  (forall r s', ParseExpression strtod n s = Some (r, s') ->
     Reports s (is_node r) s')
  /\ (forall r s', ParsePrototype strtod n s = Some (r, s') ->
        Reports s (is_node r) s')
  /\ (forall r s', ParseDefintion strtod n s = Some (r, s') ->
        Reports s (is_node r) s')
  /\ (forall r s', ParseExtern strtod n s = Some (r, s') ->
        Reports s (is_node r) s')
  /\ (forall r s', ParseTopLevelExpr strtod n s = Some (r, s') ->
        Reports s (is_node r) s').
Proof.
  destruct Reports_parse as (Q1 & Q2 & Q3 & Q4 & Q5).
  repeat split; intros r s'.
  - now apply (ParseExpression_outcome Reports).
  - now apply (ParsePrototype_outcome Reports).
  - now apply (ParseDefintion_outcome Reports).
  - now apply (ParseExtern_outcome Reports).
  - now apply (ParseTopLevelExpr_outcome Reports).
Qed.

(** ** What the scanner consumes *)

Lemma while_loop_hoare {A : Type} (P Q : A -> Prop) (cond : A -> bool * A)
    (body : A -> A) :
  (forall a b a1, P a -> cond a = (b, a1) ->
     if b then P (body a1) else Q a1) ->
  forall fuel a r, P a -> while_loop fuel cond body a = Some r -> Q r.
Proof.
  intros Hstep. induction fuel as [|n IH]; intros a r Ha H; [discriminate|].
  simpl in H. destruct (cond a) as [b a1] eqn:E.
  pose proof (Hstep a b a1 Ha E) as Hs.
  destruct b; [exact (IH _ _ Hs H) | now injection H as <-].
Qed.

Lemma unread_next s :
  unread (read_LastChar s) = input s.
Proof.
  unfold unread, read_LastChar, getchar.
  destruct (input s) as [|c r]; simpl; [reflexivity|].
  now rewrite chr_not_EOF, to_char_chr.
Qed.

Lemma Consumed_refl s : Scanning s -> Consumed s s.
Proof.
  intros H. split; [exact H|]. exists EmptyString.
  now rewrite append_nil_l.
Qed.

Lemma Consumed_trans (a b c : State double) :
  Consumed a b -> Consumed b c -> Consumed a c.
Proof.
  intros [_ (p & Hp & Fp)] [Hc (q & Hq & Fq)]. split; [exact Hc|].
  exists (p ++ q)%string. split.
  - now rewrite Hp, Hq, append_assoc.
  - now rewrite string_forall_app, Fp, Fq.
Qed.

Lemma Consumed_same (a b b' : State double) :
  LastChar b' = LastChar b -> input b' = input b ->
  Consumed a b -> Consumed a b'.
Proof.
  intros H1 H2 [Hs (p & Hp & Fp)]. split.
  - unfold Scanning in *. now rewrite H1, H2.
  - exists p. now rewrite (unread_same b b' H1 H2).
Qed.

(** Reading past a lookahead that is not the comment character. *)
Lemma Consumed_read s a :
  Consumed s a -> LastChar a <> EOF -> not_hash (LastChar a) = true ->
  Consumed s (read_LastChar a).
Proof.
  intros Hc Hne Hh. apply (Consumed_trans s a); [exact Hc|].
  split; [apply read_LastChar_Scanning|].
  destruct Hc as [[[He _]|[c Hl]] _]; [contradiction|].
  exists (String c EmptyString). split.
  - now rewrite (unread_chr a c Hl), unread_next.
  - simpl. rewrite <- Hl, Hh. reflexivity.
Qed.

Lemma gettok_Consumed n : forall s t s1,
  Scanning s -> gettok strtod n s = Some (t, s1) ->
  Consumed s s1 /\ (t = tok_eof -> unread s1 = EmptyString).
Proof.
  destruct n as [|n]; intros s t s1 Inv H; [discriminate|].
  rewrite gettok_S in H.
  destruct (skip_space (S n) s) as [s2|] eqn:E2; [|discriminate].
  assert (C2 : Consumed s s2 /\ isspace (LastChar s2) = false).
  { revert E2. unfold skip_space.
    apply (while_loop_hoare (Consumed s)
             (fun a => Consumed s a /\ isspace (LastChar a) = false));
      [|now apply Consumed_refl].
    intros a b a1 Ha [= <- <-].
    destruct (isspace (LastChar a)) eqn:Hsp; [|now split].
    apply Consumed_read; [exact Ha | |].
    - intros He. now rewrite He in Hsp.
    - unfold not_hash. destruct (Z.eqb_spec (LastChar a) (chr "#")) as [E|E];
        [now rewrite E in Hsp | reflexivity]. }
  destruct C2 as [C2 Hsp].
  destruct (isalpha (LastChar s2)) eqn:Hal.
  { destruct (scan_identifier _ _) as [s3|] eqn:E3; [|discriminate].
    assert (C3 : Consumed s s3).
    { revert E3. unfold scan_identifier.
      apply (while_loop_hoare
               (fun a => Consumed s a /\ isalnum (LastChar a) = true)
               (Consumed s)).
      - intros a b a1 [Ha Hl] [= <- <-].
        assert (Hr : Consumed s (read_LastChar a)).
        { apply Consumed_read; [exact Ha | |].
          - intros He. now rewrite He in Hl.
          - unfold not_hash.
            destruct (Z.eqb_spec (LastChar a) (chr "#")) as [E|E];
              [now rewrite E in Hl | reflexivity]. }
        destruct (isalnum (LastChar (read_LastChar a))) eqn:Hn; [|exact Hr].
        split; [|exact Hn].
        now apply (Consumed_same s (read_LastChar a)).
      - split.
        + now apply (Consumed_same s s2).
        + cbn [LastChar set_IdentifierStr]. unfold isalnum. now rewrite Hal. }
    assert (Ht : t <> tok_eof /\ s1 = s3).
    { destruct (String.eqb _ "def"); [now injection H as <- <-|].
      destruct (String.eqb _ "extern"); now injection H as <- <-. }
    destruct Ht as [Ht ->]. split; [exact C3 | contradiction]. }
  change (isdigit (LastChar s2) || (LastChar s2 =? chr "."))%bool
    with (isnumchar (LastChar s2)) in H.
  destruct (isnumchar (LastChar s2)) eqn:Hnum.
  { destruct (scan_number _ _ _) as [[NumStr s3]|] eqn:E3; [|discriminate].
    injection H as <- <-. split; [|discriminate].
    apply (Consumed_same s s3); [reflexivity | reflexivity |].
    change s3 with (snd (NumStr, s3)).
    revert E3. unfold scan_number, do_while.
    assert (Hread : forall a, Consumed s a -> isnumchar (LastChar a) = true ->
              Consumed s (read_LastChar a)).
    { intros a Ha Hl. apply Consumed_read; [exact Ha | |].
      - intros He. now rewrite He in Hl.
      - unfold not_hash.
        destruct (Z.eqb_spec (LastChar a) (chr "#")) as [E|E];
          [now rewrite E in Hl | reflexivity]. }
    apply (while_loop_hoare (fun a => Consumed s (snd a))
             (fun a => Consumed s (snd a))).
    - intros [x y] b a1 Ha [= <- <-]. simpl in *.
      change (isdigit (LastChar y) || (LastChar y =? chr "."))%bool
        with (isnumchar (LastChar y)).
      destruct (isnumchar (LastChar y)) eqn:Hn; [|exact Ha].
      simpl. now apply Hread.
    - simpl. now apply Hread. }
  destruct (LastChar s2 =? chr "#") eqn:Hh.
  { apply Z.eqb_eq in Hh. now rewrite (skip_comment_stuck s2 Hh) in H. }
  injection H as H. unfold gettok_tail in H.
  destruct (Z.eqb_spec (LastChar s2) EOF) as [E|E]; injection H as <- <-.
  - split; [exact C2|]. intros _. unfold unread. now rewrite E.
  - split.
    + apply Consumed_read; [exact C2 | exact E |].
      unfold not_hash. now rewrite Hh.
    + intros Ht. now rewrite Ht in E.
Qed.

(** ** The driver and the end of the input *)

Lemma start_Scanning text : Scanning (seed (start zero text)).
Proof. right. now exists " "%char. Qed.

Lemma getNextToken_Consumed n s t s1 :
  Scanning s -> getNextToken strtod n s = Some (t, s1) ->
  Consumed s s1 /\ (CurTok s1 = tok_eof -> unread s1 = EmptyString).
Proof.
  unfold getNextToken. intros Hs H.
  destruct (gettok strtod n s) as [[t' s2]|] eqn:E; [|discriminate].
  injection H as <- <-.
  destruct (gettok_Consumed _ _ _ _ Hs E) as [C Ht]. split.
  - now apply (Consumed_same s s2).
  - exact Ht.
Qed.

(** Where the current token is the end token, nothing is left unread. *)
Lemma Later_at_end s s' :
  Later strtod s s' ->
  Scanning s /\ (CurTok s = tok_eof -> unread s = EmptyString) ->
  Scanning s' /\ (CurTok s' = tok_eof -> unread s' = EmptyString).
Proof.
  apply (Later_invariant
           (fun a => Scanning a
                     /\ (CurTok a = tok_eof -> unread a = EmptyString))).
  - intros fuel a t b H [Ha _].
    destruct (getNextToken_Consumed _ _ _ _ Ha H) as [[Hb _] Ht]. now split.
  - intros a p b H [Ha Ht].
    rewrite (GetTokPrecedence_unchanged _ _ _ H). now split.
  - intros msg a [Ha Ht]. now split.
Qed.

(** A comment character that is still to be read stays so. *)
Lemma Later_has_hash s s' :
  Later strtod s s' ->
  Scanning s /\ has_hash (unread s) = true ->
  Scanning s' /\ has_hash (unread s') = true.
Proof.
  apply (Later_invariant
           (fun a => Scanning a /\ has_hash (unread a) = true)).
  - intros fuel a t b H [Ha Hh].
    destruct (getNextToken_Consumed _ _ _ _ Ha H) as [[Hb (p & Hp & Fp)] _].
    split; [exact Hb|].
    unfold has_hash in *. rewrite Hp, string_forall_app, Fp in Hh.
    exact Hh.
  - intros a p b H [Ha Ht].
    rewrite (GetTokPrecedence_unchanged _ _ _ H). now split.
  - intros msg a [Ha Ht]. now split.
Qed.

(** X8: [main] returns only at the end of the input: when it returns the
    current token is the end token, [getchar] has answered [EOF] and
    nothing of stdin is left unread, and no entry of the precedence
    table is negative. *)
Theorem main_reads_all_input n text c :
  main strtod zero n text = Some c ->
  CurTok (globals c) = tok_eof
  /\ LastChar (globals c) = EOF
  /\ input (globals c) = EmptyString
  /\ table_nonneg (globals c).
Proof.
  intros H. destruct (main_Later _ _ _ H) as [HL Ht].
  destruct (Later_at_end _ _ HL) as [Hs Hu].
  { split; [apply start_Scanning | discriminate]. }
  specialize (Hu Ht). unfold unread in Hu.
  split; [exact Ht|].
  destruct (Z.eqb_spec (LastChar (globals c)) EOF) as [E|E]; [|discriminate].
  split; [exact E|]. split.
  - destruct Hs as [[_ Hi]|[ch Hc]]; [exact Hi|].
    rewrite Hc in E. pose proof (chr_range ch). unfold EOF in E. lia.
  - exact (Later_nonneg _ _ HL (seed_nonneg text)).
Qed.

(** X9: a comment character anywhere in the input keeps [main] from
    returning: every token before it is read and handled, and the call
    of [gettok] that meets it stays in the loop with the empty body. *)
Theorem main_hangs_on_comment text :
  has_hash text = true -> forall n, main strtod zero n text = None.
Proof.
  intros Hh n.
  destruct (main strtod zero n text) as [c|] eqn:H; [|reflexivity].
  destruct (main_Later _ _ _ H) as [HL Ht].
  destruct (Later_at_end _ _ HL) as [_ Hu].
  { split; [apply start_Scanning | discriminate]. }
  destruct (Later_has_hash _ _ HL) as [_ Hc].
  { split; [apply start_Scanning | exact Hh]. }
  rewrite (Hu Ht) in Hc. discriminate.
Qed.

(** ** What the driver prints *)

(** One pass of a handler: no prompt, one line on stdout, and a message
    on stderr exactly when that line is an error line. *)
Lemma handler_output {A : Type}
    (parse : nat -> State double -> Res double A) (good bad : string)
    n (c c' : Console double) :
  (forall s r s', parse n s = Some (r, s') -> Reports s (is_node r) s') ->
  parsed_line good = true -> error_line good = false ->
  error_line bad = true ->
  match parse n (globals c) with
  | None => None
  | Some (Some _, s1) => Some (print good (with_globals s1 c))
  | Some (None, s1) =>
    let c1 := print bad (with_globals s1 c) in
    match getNextToken strtod n s1 with
    | None => None
    | Some (_, s2) => Some (with_globals s2 c1)
    end
  end = Some c' ->
  prompts c' = prompts c
  /\ exists l,
       stdout c' = (stdout c ++ [l])%list
       /\ (parsed_line l || error_line l)%bool = true
       /\ length (stderr (globals c'))
          = (length (stderr (globals c))
             + length (List.filter error_line [l]))%nat.
Proof.
  intros Hrep Hg Hg' Hb H.
  destruct (parse n (globals c)) as [[[f|] s1]|] eqn:E; [| |discriminate];
    apply Hrep in E; simpl in E.
  - injection H as <-. simpl. split; [reflexivity|]. exists good.
    rewrite Hg, Hg', E. simpl. split; [reflexivity|]. split; [reflexivity|lia].
  - destruct (getNextToken strtod n s1) as [[t s2]|] eqn:E2; [|discriminate].
    injection H as <-. simpl. split; [reflexivity|]. exists bad.
    rewrite Hb, orb_true_r. split; [reflexivity|]. split; [reflexivity|].
    destruct E as [msg E].
    rewrite (getNextToken_stderr _ _ _ _ E2), E, length_app. simpl. lia.
Qed.

Lemma MainLoop_output n : forall c c',
  MainLoop strtod n c = Some c' ->
  exists lines,
    stdout c' = (stdout c ++ lines)%list
    /\ forallb (fun l => parsed_line l || error_line l) lines = true
    /\ length (stderr (globals c'))
       = (length (stderr (globals c))
          + length (List.filter error_line lines))%nat
    /\ (prompts c + length lines + 1 <= prompts c')%nat.
Proof.
  destruct Reports_parse as (Q1 & Q2 & Q3 & Q4 & Q5).
  assert (Hstep : forall c1 c2 c' : Console double,
    prompts c2 = prompts c1
    /\ (exists l,
         stdout c2 = (stdout c1 ++ [l])%list
         /\ (parsed_line l || error_line l)%bool = true
         /\ length (stderr (globals c2))
            = (length (stderr (globals c1))
               + length (List.filter error_line [l]))%nat) ->
    (exists lines,
       stdout c' = (stdout c2 ++ lines)%list
       /\ forallb (fun l => parsed_line l || error_line l) lines = true
       /\ length (stderr (globals c'))
          = (length (stderr (globals c2))
             + length (List.filter error_line lines))%nat
       /\ (prompts c2 + length lines + 1 <= prompts c')%nat) ->
    exists lines,
      stdout c' = (stdout c1 ++ lines)%list
      /\ forallb (fun l => parsed_line l || error_line l) lines = true
      /\ length (stderr (globals c'))
         = (length (stderr (globals c1))
            + length (List.filter error_line lines))%nat
      /\ (prompts c1 + length lines <= prompts c')%nat).
  { intros c1 c2 c' (Hp & l & Ho & Hk & He) (lines & Ho' & Hk' & He' & Hp').
    exists (l :: lines). split; [|split; [|split]].
    - rewrite Ho', Ho, <- app_assoc. reflexivity.
    - simpl. now rewrite Hk, Hk'.
    - rewrite He', He. simpl. destruct (error_line l); simpl; lia.
    - simpl. lia. }
  induction n as [|n IH]; intros c c' H; [discriminate|].
  simpl in H.
  destruct (CurTok (globals c) =? tok_eof).
  { injection H as <-. exists []. simpl. rewrite app_nil_r.
    repeat split; lia. }
  destruct (CurTok (globals c) =? chr ";").
  { destruct (getNextToken strtod n (globals c)) as [[t s1]|] eqn:E1;
      [|discriminate].
    apply IH in H as (lines & Ho & Hk & He & Hp). exists lines.
    simpl in *. rewrite (getNextToken_stderr _ _ _ _ E1) in He.
    repeat split; try assumption. lia. }
  destruct (CurTok (globals c) =? tok_def).
  { destruct (HandleDefintion strtod n (prompt c)) as [c2|] eqn:E1;
      [|discriminate].
    apply (handler_output (ParseDefintion strtod)) in E1;
      [|intros s r s'; now apply (ParseDefintion_outcome Reports)
       |reflexivity..].
    apply IH in H.
    destruct (Hstep _ _ _ E1 H) as (lines & Ho & Hk & He & Hp).
    exists lines. simpl in *. repeat split; try assumption. lia. }
  destruct (CurTok (globals c) =? tok_extern).
  { destruct (HandleExtern strtod n (prompt c)) as [c2|] eqn:E1;
      [|discriminate].
    apply (handler_output (ParseExtern strtod)) in E1;
      [|intros s r s'; now apply (ParseExtern_outcome Reports)
       |reflexivity..].
    apply IH in H.
    destruct (Hstep _ _ _ E1 H) as (lines & Ho & Hk & He & Hp).
    exists lines. simpl in *. repeat split; try assumption. lia. }
  destruct (HandleTopLevelExpression strtod n (prompt c)) as [c2|] eqn:E1;
    [|discriminate].
  apply (handler_output (ParseTopLevelExpr strtod)) in E1;
    [|intros s r s'; now apply (ParseTopLevelExpr_outcome Reports)
     |reflexivity..].
  apply IH in H.
  destruct (Hstep _ _ _ E1 H) as (lines & Ho & Hk & He & Hp).
  exists lines. simpl in *. repeat split; try assumption. lia.
Qed.

(** X10: when [main] returns, every line that it has written on stdout
    is one of the six lines of the handlers, the messages on stderr are
    as many as the error lines on stdout, one per construct that failed
    to parse, and the prompt was printed at least twice more than there
    are lines on stdout: once by [main] and once in every pass of
    [MainLoop], the last pass included. *)
Theorem main_output n text c :
  main strtod zero n text = Some c ->
  forallb (fun l => parsed_line l || error_line l) (stdout c) = true
  /\ length (stderr (globals c)) = length (List.filter error_line (stdout c))
  /\ (length (stdout c) + 2 <= prompts c)%nat.
Proof.
  unfold main. simpl. intros H.
  destruct (getNextToken strtod n (seed (start zero text))) as [[t s1]|] eqn:E;
    [|discriminate].
  apply MainLoop_output in H as (lines & Ho & Hk & He & Hp).
  simpl in *. rewrite (getNextToken_stderr _ _ _ _ E) in He. simpl in He.
  subst lines. repeat split; try assumption. lia.
Qed.

(** ** Termination on an input without comments *)

Lemma unread_length s :
  Scanning s -> (String.length (input s) <= String.length (unread s))%nat.
Proof.
  intros [[_ Hi]|[c Hc]].
  - rewrite Hi. simpl. lia.
  - rewrite (unread_chr s c Hc). simpl. lia.
Qed.

Lemma token_progress n s :
  Ready s -> (String.length (input s) + 2 <= n)%nat ->
  exists t s',
    getNextToken strtod n s = Some (t, s')
    /\ CurTok s' = t
    /\ Progress s s'
    /\ (CurTok s <> tok_eof \/ t <> tok_eof -> (pending s' < pending s)%nat).
Proof.
  intros (Hs & Hcf & He) Hn.
  destruct (gettok_progress s Hs Hcf) as (t & s1 & pre & G & Hu & Hp).
  pose proof (gettok_Scanning _ _ _ _ Hs G) as Hs1.
  destruct (gettok_Consumed _ _ _ _ Hs G) as [_ Ht].
  assert (Hcf1 : comment_free s1).
  { unfold comment_free in *. rewrite Hu, string_forall_app in Hcf.
    now apply andb_true_iff in Hcf as [_ ?]. }
  assert (Hl : LastChar s = EOF -> t = tok_eof).
  { intros E. replace (String.length (input s) + 2)%nat
      with (S (String.length (input s) + 1)) in G by lia.
    rewrite (gettok_at_eof strtod s _ E) in G. now injection G as <- _. }
  apply (gettok_mono strtod _ n) in G; [|exact Hn].
  exists t, (set_CurTok t s1). unfold getNextToken. rewrite G.
  split; [reflexivity|]. split; [reflexivity|].
  assert (Hu1 : unread (set_CurTok t s1) = unread s1) by reflexivity.
  assert (Hlen : String.length (unread s)
                 = (String.length pre + String.length (unread s1))%nat).
  { now rewrite Hu, string_length_app. }
  assert (Hpre : t <> tok_eof -> (1 <= String.length pre)%nat).
  { intros Hne. destruct pre as [|c pre]; [|simpl; lia].
    exfalso. destruct (Z.eq_dec (LastChar s) EOF) as [E|E]; [auto|].
    now apply Hp. }
  assert (Hr1 : Ready (set_CurTok t s1)).
  { split; [exact Hs1|]. split; [exact Hcf1|]. exact Ht. }
  unfold Progress, pending. rewrite Hu1, Hlen.
  cbn [CurTok set_CurTok].
  destruct (Z.eqb_spec t tok_eof) as [Et|Et].
  - rewrite (Ht Et). simpl. split; [split; [exact Hr1 | lia]|].
    intros [Hc|Hc]; [|contradiction].
    destruct (Z.eqb_spec (CurTok s) tok_eof); [contradiction|lia].
  - specialize (Hpre Et). split; [split; [exact Hr1|]|].
    + destruct (CurTok s =? tok_eof); lia.
    + intros _. destruct (CurTok s =? tok_eof); lia.
Qed.

Lemma Ready_fuel s n :
  Ready s -> (6 * pending s + 2 <= n)%nat ->
  (String.length (input s) + 2 <= n)%nat.
Proof.
  intros (Hs & _) Hn. pose proof (unread_length s Hs). unfold pending in Hn.
  lia.
Qed.

Lemma Progress_refl s : Ready s -> Progress s s.
Proof. intros H. split; [exact H | lia]. Qed.

Lemma Progress_trans (a b c : State double) :
  Progress a b -> Progress b c -> Progress a c.
Proof. intros [_ H1] [H2 H3]. split; [exact H2 | lia]. Qed.

Lemma Progress_error msg s :
  Ready s -> Progress s (set_stderr (stderr s ++ [msg])%list s).
Proof. intros H. split; [exact H | apply Nat.le_refl]. Qed.

Lemma prec_progress s p s1 :
  GetTokPrecedence s = (p, s1) -> Ready s ->
  Progress s s1 /\ pending s1 = pending s /\ CurTok s1 = CurTok s
  /\ (0 <= p -> CurTok s <> tok_eof).
Proof.
  intros H Hr. pose proof (GetTokPrecedence_unchanged _ _ _ H) as E.
  assert (E1 : pending s1 = pending s) by now rewrite E.
  assert (E2 : CurTok s1 = CurTok s) by now rewrite E.
  split; [|split; [exact E1 | split; [exact E2|]]].
  - split; [|lia]. now rewrite E.
  - intros Hp Hc.
    rewrite (GetTokPrecedence_nonascii s) in H by now rewrite Hc.
    injection H as <- _. lia.
Qed.

Lemma chr_not_tok_eof (c : ascii) : chr c <> tok_eof.
Proof. pose proof (chr_range c). unfold tok_eof. lia. Qed.

Lemma eq_chr_not_eof s (c : ascii) : CurTok s = chr c -> CurTok s <> tok_eof.
Proof. intros ->. apply chr_not_tok_eof. Qed.

(** Reads the next token in the goal, from a state known to be [Ready]. *)
Ltac tok n s s1 Hc Hr Hle Hlt :=
  let t := fresh "t" in
  let E := fresh "E" in
  destruct (token_progress n s ltac:(eassumption)
              ltac:(apply Ready_fuel; [eassumption | lia]))
    as (t & s1 & E & Hc & [Hr Hle] & Hlt);
  rewrite E; cbv beta iota.

Ltac done_with :=
  eexists _, _; split; [reflexivity|].

Lemma parse_terminates n :
  (forall s, Ready s -> (6 * pending s + 4 <= n)%nat ->
     exists r s', ParsePrimary strtod n s = Some (r, s')
                  /\ Advance s (is_node r) s')
  /\ (forall p l s, Ready s -> 0 <= p -> (6 * pending s + 3 <= n)%nat ->
        exists r s', ParseBinOpRHS strtod n p l s = Some (r, s')
                     /\ Progress s s')
  /\ (forall s, Ready s -> (6 * pending s + 5 <= n)%nat ->
        exists r s', ParseExpression strtod n s = Some (r, s')
                     /\ Advance s (is_node r) s')
  /\ (forall s, Ready s -> CurTok s <> tok_eof ->
        (6 * pending s + 3 <= n)%nat ->
        exists r s', ParseParenExpr strtod n s = Some (r, s')
                     /\ Advance s (is_node r) s')
  /\ (forall s, Ready s -> (6 * pending s + 3 <= n)%nat ->
        exists r s', ParseIdentifierExpr strtod n s = Some (r, s')
                     /\ Advance s (is_node r) s')
  /\ (forall a s, Ready s -> (6 * pending s + 6 <= n)%nat ->
        exists r s', ParseCallArgs strtod n a s = Some (r, s')
                     /\ Progress s s').
Proof.
  induction n as [|n IH].
  { repeat split; intros; lia. }
  destruct IH as (IHp & IHb & IHe & IHpar & IHid & IHargs).
  repeat match goal with |- _ /\ _ => split end.
  - (* ParsePrimary *)
    intros s Hr Hn. simpl.
    destruct (Z.eqb_spec (CurTok s) tok_identifier) as [C1|C1].
    { apply IHid; [assumption | lia]. }
    destruct (Z.eqb_spec (CurTok s) tok_number) as [C2|C2].
    { unfold ParseNumber. tok n s sa Ca Ra La Ta. done_with.
      split; [split; [assumption | lia]|]. intros _ Hne. apply Ta.
      now left. }
    destruct (Z.eqb_spec (CurTok s) (chr "(")) as [C3|C3].
    { apply IHpar; [assumption | now apply (eq_chr_not_eof s "(") | lia]. }
    unfold Error. done_with. split; [|discriminate].
    now apply Progress_error.
  - (* ParseBinOpRHS *)
    intros p l s Hr Hp Hn. simpl.
    destruct (GetTokPrecedence s) as [TokPrec s1] eqn:E1.
    destruct (prec_progress _ _ _ E1 Hr) as ([Hr1 _] & W1 & C1 & N1).
    destruct (Z.ltb_spec TokPrec p) as [L|L].
    { done_with. split; [assumption | lia]. }
    assert (Hne1 : CurTok s1 <> tok_eof) by (rewrite C1; apply N1; lia).
    tok n s1 s2 C2 Hr2 Hle2 Hlt2.
    assert (W2 : (pending s2 < pending s1)%nat) by auto.
    destruct (IHp s2 Hr2 ltac:(lia)) as (r & s3 & E3 & [Hr3 Hle3] & _).
    rewrite E3. destruct r as [RHS|]; cbv beta iota;
      [|done_with; split; [assumption | lia]].
    destruct (GetTokPrecedence s3) as [NextPrec s4] eqn:E4.
    destruct (prec_progress _ _ _ E4 Hr3) as ([Hr4 _] & W4 & _).
    destruct (Z.ltb_spec TokPrec NextPrec) as [L2|L2].
    + destruct (IHb (TokPrec + 1) RHS s4 Hr4 ltac:(lia) ltac:(lia))
        as (r & s5 & E5 & Hr5 & Hle5).
      rewrite E5. destruct r as [RHS'|]; cbv beta iota;
        [|done_with; split; [assumption | lia]].
      destruct (IHb p (BinaryExprAST (to_char (CurTok s1)) l RHS') s5 Hr5
                  Hp ltac:(lia)) as (r & s6 & E6 & Hr6 & Hle6).
      rewrite E6. done_with. split; [assumption | lia].
    + destruct (IHb p (BinaryExprAST (to_char (CurTok s1)) l RHS) s4 Hr4
                  Hp ltac:(lia)) as (r & s6 & E6 & Hr6 & Hle6).
      rewrite E6. done_with. split; [assumption | lia].
  - (* ParseExpression *)
    intros s Hr Hn. simpl.
    destruct (IHp s Hr ltac:(lia)) as (r & s1 & E1 & [Hr1 Hle1] & Hlt1).
    rewrite E1. destruct r as [LHS|]; cbv beta iota.
    + destruct (IHb 0 LHS s1 Hr1 ltac:(lia) ltac:(lia))
        as (r & s2 & E2 & Hr2 & Hle2).
      rewrite E2. done_with. split; [split; [assumption | lia]|].
      intros _ Hne. specialize (Hlt1 eq_refl Hne). lia.
    + done_with. split; [split; [assumption | lia] | discriminate].
  - (* ParseParenExpr *)
    intros s Hr Hne Hn. simpl.
    tok n s s1 C1 Hr1 Hle1 Hlt1.
    assert (W1 : (pending s1 < pending s)%nat) by auto.
    destruct (IHe s1 Hr1 ltac:(lia)) as (r & s2 & E2 & [Hr2 Hle2] & _).
    rewrite E2. destruct r as [V|]; cbv beta iota;
      [|done_with; split; [split; [assumption | lia] | discriminate]].
    destruct (negb (CurTok s2 =? chr ")")).
    { unfold Error. done_with. split; [|discriminate].
      apply (Progress_trans s s2); [split; [assumption | lia]|].
      now apply Progress_error. }
    tok n s2 s3 C3 Hr3 Hle3 Hlt3. done_with.
    split; [split; [assumption | lia]|].
    intros _ _. lia.
  - (* ParseIdentifierExpr *)
    intros s Hr Hn. simpl.
    tok n s s0 C0 Hr0 Hle0 Hlt0.
    destruct (Z.eqb_spec (CurTok s0) (chr "(")) as [C1|C1]; simpl.
    2:{ done_with. split; [split; [assumption | lia]|].
        intros _ Hne. apply Hlt0. now left. }
    pose proof (eq_chr_not_eof _ _ C1) as Hne1.
    tok n s0 s1 C1' Hr1 Hle1 Hlt1.
    assert (W2 : (pending s1 < pending s0)%nat) by auto.
    assert (Hargs : exists r s3,
               (if negb (CurTok s1 =? chr ")")
                then ParseCallArgs strtod n [] s1
                else Some (Some [], s1)) = Some (r, s3)
               /\ Progress s1 s3).
    { destruct (negb (CurTok s1 =? chr ")")).
      - apply IHargs; [assumption | lia].
      - done_with. now apply Progress_refl. }
    destruct Hargs as (r & s3 & E3 & Hr3 & Hle3).
    rewrite E3. destruct r as [Args|]; cbv beta iota;
      [|done_with; split; [split; [assumption | lia] | discriminate]].
    tok n s3 s4 C4 Hr4 Hle4 Hlt4. done_with.
    split; [split; [assumption | lia]|].
    intros _ _. lia.
  - (* ParseCallArgs *)
    intros a s Hr Hn. simpl.
    destruct (IHe s Hr ltac:(lia)) as (r & s1 & E1 & [Hr1 Hle1] & _).
    rewrite E1. destruct r as [Arg|]; cbv beta iota;
      [|done_with; split; [assumption | lia]].
    destruct (CurTok s1 =? chr ")").
    { done_with. split; [assumption | lia]. }
    destruct (Z.eqb_spec (CurTok s1) (chr ",")) as [C1|C1]; simpl.
    2:{ unfold Error. done_with.
        apply (Progress_trans s s1); [split; [assumption | lia]|].
        now apply Progress_error. }
    pose proof (eq_chr_not_eof _ _ C1) as Hne1.
    tok n s1 s2 C2 Hr2 Hle2 Hlt2.
    assert (W2 : (pending s2 < pending s1)%nat) by auto.
    destruct (IHargs (a ++ [Arg])%list s2 Hr2 ltac:(lia))
      as (r & s3 & E3 & Hr3 & Hle3).
    rewrite E3. done_with. split; [assumption | lia].
Qed.

Lemma ParsePrototype_args_terminates n : forall a s,
  Ready s -> (6 * pending s + 3 <= n)%nat ->
  exists r s', ParsePrototype_args strtod n a s = Some (r, s')
               /\ Progress s s'.
Proof.
  induction n as [|n IH]; intros a s Hr Hn; [lia|]. simpl.
  destruct (token_progress n s Hr) as (t & s1 & E & Hc & [Hr1 Hle1] & Hlt1).
  { apply Ready_fuel; [assumption | lia]. }
  rewrite E. destruct (Z.eqb_spec t tok_identifier) as [Ht|Ht].
  - assert (W1 : (pending s1 < pending s)%nat).
    { apply Hlt1. right. rewrite Ht. discriminate. }
    destruct (IH (a ++ [IdentifierStr s1])%list s1 Hr1 ltac:(lia))
      as (r & s2 & E2 & Hr2 & Hle2).
    rewrite E2. done_with. split; [assumption | lia].
  - done_with. split; [assumption | lia].
Qed.

Lemma ParsePrototype_terminates n s :
  Ready s -> (6 * pending s + 3 <= n)%nat ->
  exists r s', ParsePrototype strtod n s = Some (r, s') /\ Progress s s'.
Proof.
  intros Hr Hn. unfold ParsePrototype, ErrorP, Error.
  destruct (negb (CurTok s =? tok_identifier)).
  { done_with. now apply Progress_error. }
  tok n s s1 C1 Hr1 Hle1 Hlt1.
  destruct (negb (CurTok s1 =? chr "(")).
  { done_with. apply (Progress_trans s s1); [split; [assumption | lia]|].
    now apply Progress_error. }
  destruct (ParsePrototype_args_terminates n [] s1 Hr1 ltac:(lia))
    as (r & s2 & E2 & Hr2 & Hle2).
  rewrite E2.
  destruct (negb (CurTok s2 =? chr ")")).
  { done_with. apply (Progress_trans s s2); [split; [assumption | lia]|].
    now apply Progress_error. }
  tok n s2 s3 C3 Hr3 Hle3 Hlt3. done_with. split; [assumption | lia].
Qed.

Lemma ParseExpression_terminates n s :
  Ready s -> (6 * pending s + 5 <= n)%nat ->
  exists r s', ParseExpression strtod n s = Some (r, s')
               /\ Advance s (is_node r) s'.
Proof. apply (proj1 (proj2 (proj2 (parse_terminates n)))). Qed.

Lemma ParseDefintion_terminates n s :
  Ready s -> (6 * pending s + 5 <= n)%nat ->
  exists r s', ParseDefintion strtod n s = Some (r, s')
               /\ Advance s true s'.
Proof.
  intros Hr Hn. unfold ParseDefintion.
  tok n s s1 C1 Hr1 Hle1 Hlt1.
  destruct (ParsePrototype_terminates n s1 Hr1 ltac:(lia))
    as (r & s2 & E2 & Hr2 & Hle2).
  rewrite E2. destruct r as [P|]; cbv beta iota.
  - destruct (ParseExpression_terminates n s2 Hr2 ltac:(lia))
      as (r & s3 & E3 & [Hr3 Hle3] & _).
    rewrite E3.
    destruct r as [e|]; done_with;
      (split; [split; [assumption | lia]|]);
      intros _ Hne; assert ((pending s1 < pending s)%nat) by auto; lia.
  - done_with. split; [split; [assumption | lia]|].
    intros _ Hne. assert ((pending s1 < pending s)%nat) by auto. lia.
Qed.

Lemma ParseExtern_terminates n s :
  Ready s -> (6 * pending s + 5 <= n)%nat ->
  exists r s', ParseExtern strtod n s = Some (r, s') /\ Advance s true s'.
Proof.
  intros Hr Hn. unfold ParseExtern.
  tok n s s1 C1 Hr1 Hle1 Hlt1.
  destruct (ParsePrototype_terminates n s1 Hr1 ltac:(lia))
    as (r & s2 & E2 & Hr2 & Hle2).
  exists r, s2. split; [exact E2|]. split; [split; [assumption | lia]|].
  intros _ Hne. assert ((pending s1 < pending s)%nat) by auto. lia.
Qed.

Lemma ParseTopLevelExpr_terminates n s :
  Ready s -> (6 * pending s + 5 <= n)%nat ->
  exists r s', ParseTopLevelExpr strtod n s = Some (r, s')
               /\ Advance s (is_node r) s'.
Proof.
  intros Hr Hn. unfold ParseTopLevelExpr.
  destruct (ParseExpression_terminates n s Hr Hn) as (r & s1 & E1 & HA).
  rewrite E1. destruct r as [e|]; done_with; exact HA.
Qed.

(** X11: on an input without comments every routine of the parser
    returns, with a node or with null, and says so within a bound on the
    recursion that is linear in what is left of the input; the scanner
    is then no further back than before, and a routine that starts with
    a token of its own has moved on. *)
Theorem parser_terminates n s :
  Ready s -> (6 * pending s + 5 <= n)%nat ->
  (exists r s', ParseExpression strtod n s = Some (r, s')
                /\ Advance s (is_node r) s')
  /\ (exists r s', ParsePrototype strtod n s = Some (r, s')
                   /\ Progress s s')
  /\ (exists r s', ParseDefintion strtod n s = Some (r, s')
                   /\ Advance s true s')
  /\ (exists r s', ParseExtern strtod n s = Some (r, s')
                   /\ Advance s true s')
  /\ (exists r s', ParseTopLevelExpr strtod n s = Some (r, s')
                   /\ Advance s (is_node r) s').
Proof.
  intros Hr Hn. repeat split.
  - now apply ParseExpression_terminates.
  - apply ParsePrototype_terminates; [assumption | lia].
  - now apply ParseDefintion_terminates.
  - now apply ParseExtern_terminates.
  - now apply ParseTopLevelExpr_terminates.
Qed.

Lemma pending_at_end s : Ready s -> CurTok s = tok_eof -> pending s = O.
Proof.
  intros (_ & _ & He) Hc. unfold pending. rewrite (He Hc), Hc. reflexivity.
Qed.

Lemma pending_positive s : CurTok s <> tok_eof -> (1 <= pending s)%nat.
Proof.
  intros Hc. unfold pending.
  destruct (Z.eqb_spec (CurTok s) tok_eof); [contradiction | lia].
Qed.

(** One pass of a handler on a current token that is not the end token. *)
Lemma handler_terminates {A : Type}
    (parse : nat -> State double -> Res double A) (good bad : string)
    n (c : Console double) :
  (exists r s', parse n (globals c) = Some (r, s')
                /\ Advance (globals c) (is_node r) s') ->
  Ready (globals c) -> CurTok (globals c) <> tok_eof ->
  (6 * pending (globals c) + 5 <= n)%nat ->
  exists c',
    match parse n (globals c) with
    | None => None
    | Some (Some _, s1) => Some (print good (with_globals s1 c))
    | Some (None, s1) =>
      let c1 := print bad (with_globals s1 c) in
      match getNextToken strtod n s1 with
      | None => None
      | Some (_, s2) => Some (with_globals s2 c1)
      end
    end = Some c'
    /\ Ready (globals c')
    /\ (pending (globals c') < pending (globals c))%nat.
Proof.
  intros (r & s1 & E & [Hr1 Hle1] & Hlt) Hr Hne Hn. rewrite E.
  destruct r as [f|].
  - eexists. split; [reflexivity|]. simpl. split; [assumption|]. now apply Hlt.
  - cbv zeta. tok n s1 s2 C2 Hr2 Hle2 Hlt2.
    eexists. split; [reflexivity|]. simpl. split; [assumption|].
    pose proof (pending_positive _ Hne).
    destruct (Z.eq_dec (CurTok s1) tok_eof) as [C|C].
    + rewrite (pending_at_end s1 Hr1 C) in Hle2. lia.
    + assert ((pending s2 < pending s1)%nat) by auto. lia.
Qed.

Lemma Advance_true {A : Type} s (r : option A) s' :
  Advance s true s' -> Advance s (is_node r) s'.
Proof. intros [H1 H2]. split; [exact H1 | intros _; now apply H2]. Qed.

Lemma MainLoop_terminates n : forall c : Console double,
  Ready (globals c) -> (6 * pending (globals c) + 6 <= n)%nat ->
  exists c', MainLoop strtod n c = Some c'.
Proof.
  induction n as [|n IH]; intros c Hr Hn; [lia|]. simpl.
  destruct (Z.eqb_spec (CurTok (globals c)) tok_eof) as [C0|C0].
  { now eexists. }
  destruct (CurTok (globals c) =? chr ";").
  { tok n (globals c) s1 C1 Hr1 Hle1 Hlt1.
    assert ((pending s1 < pending (globals c))%nat) by auto.
    apply IH; simpl; [assumption | lia]. }
  destruct (CurTok (globals c) =? tok_def).
  { unfold HandleDefintion.
    destruct (handler_terminates (ParseDefintion strtod)
                "Parsed a function defintion "
                "Error failed to parse defintion " n (prompt c))
      as (c2 & E & Hr2 & Hlt2); simpl; try assumption; try lia.
    { destruct (ParseDefintion_terminates n (globals c) Hr ltac:(lia))
        as (r & s1 & E1 & HA).
      exists r, s1. split; [exact E1 | now apply Advance_true]. }
    simpl in E. rewrite E. simpl in Hlt2. apply IH; [assumption | lia]. }
  destruct (CurTok (globals c) =? tok_extern).
  { unfold HandleExtern.
    destruct (handler_terminates (ParseExtern strtod)
                "Parsed an extern"
                "Error failed to parse extern " n (prompt c))
      as (c2 & E & Hr2 & Hlt2); simpl; try assumption; try lia.
    { destruct (ParseExtern_terminates n (globals c) Hr ltac:(lia))
        as (r & s1 & E1 & HA).
      exists r, s1. split; [exact E1 | now apply Advance_true]. }
    simpl in E. rewrite E. simpl in Hlt2. apply IH; [assumption | lia]. }
  unfold HandleTopLevelExpression.
  destruct (handler_terminates (ParseTopLevelExpr strtod)
              "Parsed a top level expression"
              "Error failed to parse top level expression " n (prompt c))
    as (c2 & E & Hr2 & Hlt2); simpl; try assumption; try lia.
  { apply ParseTopLevelExpr_terminates; [assumption | lia]. }
  simpl in E. rewrite E. simpl in Hlt2. apply IH; [assumption | lia].
Qed.

Lemma start_Ready text :
  string_forall not_hash text = true -> Ready (seed (start zero text)).
Proof.
  intros H. split; [apply start_Scanning|]. split; [|discriminate].
  unfold comment_free, unread. simpl. exact H.
Qed.


(** ** More fuel changes no result *)

Lemma ParsePrototype_mono n m s r :
  ParsePrototype strtod n s = Some r -> (n <= m)%nat ->
  ParsePrototype strtod m s = Some r.
Proof.
  unfold ParsePrototype. intros H Hm.
  destruct (negb (CurTok s =? tok_identifier)); [exact H|].
  destruct (getNextToken strtod n s) as [[t s1]|] eqn:E1; [|discriminate].
  rewrite (getNextToken_mono strtod _ _ _ _ E1 Hm).
  destruct (negb (CurTok s1 =? chr "(")); [exact H|].
  destruct (ParsePrototype_args strtod n [] s1) as [[a s2]|] eqn:E2;
    [|discriminate].
  rewrite (ParsePrototype_args_mono strtod _ _ _ _ _ E2 Hm).
  destruct (negb (CurTok s2 =? chr ")")); [exact H|].
  destruct (getNextToken strtod n s2) as [[t3 s3]|] eqn:E3; [|discriminate].
  now rewrite (getNextToken_mono strtod _ _ _ _ E3 Hm).
Qed.

Lemma ParseDefintion_mono n m s r :
  ParseDefintion strtod n s = Some r -> (n <= m)%nat ->
  ParseDefintion strtod m s = Some r.
Proof.
  unfold ParseDefintion. intros H Hm.
  destruct (getNextToken strtod n s) as [[t s1]|] eqn:E1; [|discriminate].
  rewrite (getNextToken_mono strtod _ _ _ _ E1 Hm).
  destruct (ParsePrototype strtod n s1) as [[P s2]|] eqn:E2; [|discriminate].
  rewrite (ParsePrototype_mono _ _ _ _ E2 Hm).
  destruct P as [P|]; [|exact H].
  destruct (ParseExpression strtod n s2) as [[e s3]|] eqn:E3; [|discriminate].
  now rewrite (ParseExpression_mono strtod _ _ _ _ E3 Hm).
Qed.

Lemma ParseExtern_mono n m s r :
  ParseExtern strtod n s = Some r -> (n <= m)%nat ->
  ParseExtern strtod m s = Some r.
Proof.
  unfold ParseExtern. intros H Hm.
  destruct (getNextToken strtod n s) as [[t s1]|] eqn:E1; [|discriminate].
  rewrite (getNextToken_mono strtod _ _ _ _ E1 Hm).
  now apply (ParsePrototype_mono n).
Qed.

Lemma ParseTopLevelExpr_mono n m s r :
  ParseTopLevelExpr strtod n s = Some r -> (n <= m)%nat ->
  ParseTopLevelExpr strtod m s = Some r.
Proof.
  unfold ParseTopLevelExpr. intros H Hm.
  destruct (ParseExpression strtod n s) as [[e s3]|] eqn:E3; [|discriminate].
  now rewrite (ParseExpression_mono strtod _ _ _ _ E3 Hm).
Qed.

Lemma handler_mono {A : Type}
    (parse : nat -> State double -> Res double A) (good bad : string)
    n m (c c' : Console double) :
  (forall s r, parse n s = Some r -> parse m s = Some r) ->
  (n <= m)%nat ->
  match parse n (globals c) with
  | None => None
  | Some (Some _, s1) => Some (print good (with_globals s1 c))
  | Some (None, s1) =>
    let c1 := print bad (with_globals s1 c) in
    match getNextToken strtod n s1 with
    | None => None
    | Some (_, s2) => Some (with_globals s2 c1)
    end
  end = Some c' ->
  match parse m (globals c) with
  | None => None
  | Some (Some _, s1) => Some (print good (with_globals s1 c))
  | Some (None, s1) =>
    let c1 := print bad (with_globals s1 c) in
    match getNextToken strtod m s1 with
    | None => None
    | Some (_, s2) => Some (with_globals s2 c1)
    end
  end = Some c'.
Proof.
  intros Hp Hm H.
  destruct (parse n (globals c)) as [[r s1]|] eqn:E; [|discriminate].
  rewrite (Hp _ _ E). destruct r as [f|]; [exact H|].
  cbv zeta in *.
  destruct (getNextToken strtod n s1) as [[t s2]|] eqn:E2; [|discriminate].
  now rewrite (getNextToken_mono strtod _ _ _ _ E2 Hm).
Qed.

Lemma MainLoop_mono n : forall m c c',
  MainLoop strtod n c = Some c' -> (n <= m)%nat ->
  MainLoop strtod m c = Some c'.
Proof.
  induction n as [|n IH]; intros m c c' H Hm; [discriminate|].
  destruct m as [|m]; [lia|]. assert (Hm' : (n <= m)%nat) by lia.
  simpl in *.
  destruct (CurTok (globals c) =? tok_eof); [exact H|].
  destruct (CurTok (globals c) =? chr ";").
  { destruct (getNextToken strtod n (globals c)) as [[t s1]|] eqn:E1;
      [|discriminate].
    rewrite (getNextToken_mono strtod _ _ _ _ E1 Hm'). now apply (IH m). }
  destruct (CurTok (globals c) =? tok_def).
  { destruct (HandleDefintion strtod n (prompt c)) as [c2|] eqn:E1;
      [|discriminate].
    apply (handler_mono (ParseDefintion strtod) _ _ n m) in E1;
      [|intros s r Hs; now apply (ParseDefintion_mono n) | exact Hm'].
    change (HandleDefintion strtod m (prompt c) = Some c2) in E1.
    rewrite E1. now apply (IH m). }
  destruct (CurTok (globals c) =? tok_extern).
  { destruct (HandleExtern strtod n (prompt c)) as [c2|] eqn:E1;
      [|discriminate].
    apply (handler_mono (ParseExtern strtod) _ _ n m) in E1;
      [|intros s r Hs; now apply (ParseExtern_mono n) | exact Hm'].
    change (HandleExtern strtod m (prompt c) = Some c2) in E1.
    rewrite E1. now apply (IH m). }
  destruct (HandleTopLevelExpression strtod n (prompt c)) as [c2|] eqn:E1;
    [|discriminate].
  apply (handler_mono (ParseTopLevelExpr strtod) _ _ n m) in E1;
    [|intros s r Hs; now apply (ParseTopLevelExpr_mono n) | exact Hm'].
  change (HandleTopLevelExpression strtod m (prompt c) = Some c2) in E1.
  rewrite E1. now apply (IH m).
Qed.

Lemma main_mono n m text c :
  main strtod zero n text = Some c -> (n <= m)%nat ->
  main strtod zero m text = Some c.
Proof.
  unfold main. simpl. intros H Hm.
  destruct (getNextToken strtod n (seed (start zero text))) as [[t s1]|] eqn:E;
    [|discriminate].
  rewrite (getNextToken_mono strtod _ _ _ _ E Hm).
  now apply (MainLoop_mono n).
Qed.

(** X12: on an input without a comment character [main] returns, within
    a number of passes and of nested calls that is linear in the length
    of the input, and what it returns does not depend on how much more
    it is allowed. *)
Theorem main_terminates text :
  string_forall not_hash text = true ->
  exists c, forall n,
    (12 * String.length text + 18 <= n)%nat ->
    main strtod zero n text = Some c.
Proof.
  intros H.
  assert (H0 : exists c,
             main strtod zero (12 * String.length text + 18) text = Some c).
  { assert (HN : (12 * String.length text + 18
                  <= 12 * String.length text + 18)%nat) by lia.
    revert HN. generalize (12 * String.length text + 18)%nat at 2 3.
    intros N HN. unfold main. simpl.
    pose proof (start_Ready text H) as Hr.
    assert (Hp : pending (seed (start zero text))
                 = (2 * String.length text + 3)%nat).
    { unfold pending, unread. simpl. lia. }
    destruct (token_progress N (seed (start zero text)) Hr)
      as (t & s1 & E & Hc & [Hr1 Hle1] & Hlt1).
    { simpl. lia. }
    rewrite E.
    assert ((pending s1 < pending (seed (start zero text)))%nat).
    { apply Hlt1. left. discriminate. }
    apply MainLoop_terminates; simpl; [assumption | lia]. }
  destruct H0 as [c Hc]. exists c. intros n Hn.
  exact (main_mono _ _ _ _ Hc Hn).
Qed.

(** ** Reading texts token by token *)

Lemma At_Remaining s txt : At s txt -> Remaining s txt.
Proof.
  intros [Hs Hu]. unfold unread in Hu.
  destruct (Z.eqb_spec (LastChar s) EOF) as [E|E].
  - subst txt. exact E.
  - destruct Hs as [[He _]|[c Hc]]; [contradiction|].
    subst txt. rewrite Hc, to_char_chr. split; [exact Hc | reflexivity].
Qed.

Lemma At_read (s0 : State double) (rest : string) :
  At (read_LastChar (set_input rest s0)) rest.
Proof. split; [apply read_LastChar_Scanning | apply unread_read]. Qed.

Lemma At_same s s' txt :
  LastChar s' = LastChar s -> input s' = input s -> At s txt -> At s' txt.
Proof.
  intros H1 H2 [Hs Hu]. split.
  - unfold Scanning in *. now rewrite H1, H2.
  - now rewrite (unread_same s s' H1 H2).
Qed.

Lemma At_fuel s txt n :
  At s txt -> (String.length txt + 2 <= n)%nat ->
  (String.length (input s) + 2 <= n)%nat.
Proof.
  intros [Hs Hu] Hn. pose proof (unread_length s Hs). rewrite Hu in H. lia.
Qed.

Lemma ident_ok_inv (x : string) :
  ident_ok x = true ->
  exists c b, x = String c b /\ isalpha (chr c) = true
              /\ string_forall isalnum b = true
              /\ String.eqb x "def" = false /\ String.eqb x "extern" = false.
Proof.
  unfold ident_ok, operand_ok. destruct x as [|c b]; [discriminate|].
  intros H. apply andb_true_iff in H as [H He].
  apply andb_true_iff in H as [H Hd]. apply andb_true_iff in H as [Hc Hb].
  apply negb_true_iff in Hd, He. exists c, b. auto.
Qed.

(** The next token is a name. *)
Lemma next_word s (ws x rest : string) n :
  At s (ws ++ x ++ rest) ->
  string_forall isspace ws = true -> ident_ok x = true ->
  stops isalnum rest = true ->
  (String.length (input s) + 2 <= n)%nat ->
  getNextToken strtod n s
  = Some (tok_identifier,
          set_CurTok tok_identifier
            (set_IdentifierStr x (read_LastChar (set_input rest s)))).
Proof.
  intros Hat Hws Hx Hst Hn.
  destruct (ident_ok_inv x Hx) as (c & b & -> & Hc & Hb & Hd & He).
  apply At_Remaining in Hat. rewrite append_cons in Hat.
  pose proof (Remaining_stream _ _ _ _ Hat) as Hs.
  pose proof (gettok_word strtod s ws c b rest n Hs Hws Hc Hb Hst Hn) as E.
  rewrite Hd, He in E. unfold getNextToken. now rewrite E.
Qed.

(** The next token is a keyword. *)
Lemma next_keyword s (ws x rest : string) n :
  At s (ws ++ x ++ rest) ->
  string_forall isspace ws = true ->
  x = "def" \/ x = "extern" ->
  stops isalnum rest = true ->
  (String.length (input s) + 2 <= n)%nat ->
  getNextToken strtod n s
  = Some (if String.eqb x "def" then tok_def else tok_extern,
          set_CurTok (if String.eqb x "def" then tok_def else tok_extern)
            (set_IdentifierStr x (read_LastChar (set_input rest s)))).
Proof.
  intros Hat Hws Hx Hst Hn. apply At_Remaining in Hat.
  destruct Hx as [-> | ->]; rewrite append_cons in Hat;
    pose proof (Remaining_stream _ _ _ _ Hat) as Hs;
    unfold getNextToken;
    [rewrite (gettok_word strtod s ws "d" "ef" rest n Hs Hws)
    |rewrite (gettok_word strtod s ws "e" "xtern" rest n Hs Hws)];
    try reflexivity; assumption.
Qed.

(** The next token is a character of its own. *)
Lemma next_char s (ws : string) (c : ascii) (rest : string) n :
  At s (ws ++ String c rest) ->
  string_forall isspace ws = true ->
  isspace (chr c) = false -> isalpha (chr c) = false ->
  isnumchar (chr c) = false -> (chr c =? chr "#") = false ->
  (String.length (input s) + 2 <= n)%nat ->
  getNextToken strtod n s
  = Some (chr c, set_CurTok (chr c) (read_LastChar (set_input rest s))).
Proof.
  intros Hat Hws H1 H2 H3 H4 Hn. apply At_Remaining in Hat.
  pose proof (Remaining_stream _ _ _ _ Hat) as Hs.
  pose proof (Remaining_length _ _ _ _ Hat) as Hl.
  unfold getNextToken.
  rewrite (gettok_char strtod s ws c rest n Hs Hws H1 H2 H3 H4); [reflexivity|].
  lia.
Qed.

(** Nothing but white space is left: the next token is the end token. *)
Lemma next_eof s (ws : string) n :
  At s ws -> string_forall isspace ws = true ->
  (String.length (input s) + 2 <= n)%nat ->
  exists s', getNextToken strtod n s = Some (tok_eof, s')
             /\ At s' EmptyString /\ CurTok s' = tok_eof
             /\ BinopPrecedence s' = BinopPrecedence s
             /\ stderr s' = stderr s.
Proof.
  intros [Hs Hu] Hws Hn. unfold getNextToken, unread in *.
  destruct n as [|n]; [lia|].
  destruct (Z.eqb_spec (LastChar s) EOF) as [E|E].
  - rewrite (gettok_at_eof strtod s n E).
    eexists. split; [reflexivity|]. repeat split; try reflexivity.
    + exact Hs.
    + unfold unread. cbn [LastChar set_CurTok]. now rewrite E.
  - destruct Hs as [[He _]|[c Hc]]; [contradiction|].
    subst ws. rewrite Hc, to_char_chr in Hws. simpl in Hws.
    apply andb_true_iff in Hws as [Hw1 Hw2].
    rewrite gettok_S.
    rewrite (skip_space_to_eof (input s) s (S n)); try assumption;
      try reflexivity; [|now rewrite Hc].
    simpl. eexists. split; [reflexivity|].
    repeat split; try reflexivity. now left.
Qed.

Lemma stops_space (p : Z -> bool) (w y : string) :
  (forall c, isspace c = true -> p c = false) ->
  string_forall isspace w = true ->
  stops p y = true -> stops p (w ++ y) = true.
Proof.
  intros Hp Hw Hy. destruct w as [|c w]; [now rewrite append_nil_l|].
  rewrite append_cons. simpl in *. apply andb_true_iff in Hw as [Hc _].
  now rewrite (Hp _ Hc).
Qed.

Lemma stops_blank (p : Z -> bool) (w y : string) :
  (forall c, isspace c = true -> p c = false) ->
  blank w = true -> stops p (w ++ y) = true.
Proof.
  intros Hp Hw. unfold blank in Hw. apply andb_true_iff in Hw as [Hw Hn].
  destruct w as [|c w]; [discriminate|].
  rewrite append_cons. simpl in *. apply andb_true_iff in Hw as [Hc _].
  now rewrite (Hp _ Hc).
Qed.

Lemma space_not_alnum c : isspace c = true -> isalnum c = false.
Proof. intros H. ctype. Qed.

Lemma space_not_numchar c : isspace c = true -> isnumchar c = false.
Proof. intros H. ctype. Qed.

Lemma stops_params (ps : list (string * string)) (y : string) :
  params_ok false ps = true -> stops isalnum y = true ->
  stops isalnum (render_params ps ++ y) = true.
Proof.
  destruct ps as [|[w x] r]; intros H Hy; [now rewrite append_nil_l|].
  simpl in H. apply andb_true_iff in H as [H _].
  apply andb_true_iff in H as [H _]. apply andb_true_iff in H as [Hw Hn].
  cbn [render_params]. rewrite append_assoc.
  apply stops_blank; [apply space_not_alnum|].
  unfold blank. now rewrite Hw, Hn.
Qed.

Lemma At_shorter s txt s1 txt1 :
  At s txt -> At s1 txt1 ->
  (String.length txt1 < String.length txt)%nat ->
  (String.length (input s1) <= String.length (input s))%nat.
Proof.
  intros [Hs Hu] [Hs1 Hu1] Hl.
  pose proof (unread_length s1 Hs1) as L1. rewrite Hu1 in L1.
  assert (L : (String.length (unread s) <= String.length (input s) + 1)%nat).
  { unfold unread. destruct (LastChar s =? EOF); simpl; lia. }
  rewrite Hu in L. lia.
Qed.

Lemma read_table (s0 : State double) (rest : string) :
  BinopPrecedence (read_LastChar (set_input rest s0)) = BinopPrecedence s0.
Proof. destruct rest; reflexivity. Qed.

Lemma read_stderr (s0 : State double) (rest : string) :
  stderr (read_LastChar (set_input rest s0)) = stderr s0.
Proof. destruct rest; reflexivity. Qed.

Lemma ParsePrototype_args_text (ps : list (string * string)) :
  forall (first : bool) (acc : list string) s (p2 tail : string),
  At s (render_params ps ++ p2 ++ String ")" tail) ->
  params_ok first ps = true -> string_forall isspace p2 = true ->
  exists s',
    CurTok s' = chr ")" /\ At s' tail
    /\ BinopPrecedence s' = BinopPrecedence s /\ stderr s' = stderr s
    /\ forall n,
         (String.length (input s) + length ps + 3 <= n)%nat ->
         ParsePrototype_args strtod n acc s
         = Some ((acc ++ map snd ps)%list, s').
Proof.
  induction ps as [|[w x] r IH]; intros first acc s p2 tail Hat Hok Hp2.
  - simpl in *. rewrite append_nil_l in Hat.
    exists (set_CurTok (chr ")") (read_LastChar (set_input tail s))).
    split; [reflexivity|]. split; [|split; [|split]].
    + apply (At_same (read_LastChar (set_input tail s)));
        [reflexivity | reflexivity | apply At_read].
    + apply read_table.
    + apply read_stderr.
    + intros n Hn. destruct n as [|n]; [lia|]. simpl.
      rewrite (next_char s p2 ")" tail n Hat Hp2) by (reflexivity || lia).
      simpl. now rewrite app_nil_r.
  - cbn [params_ok] in Hok. apply andb_true_iff in Hok as [Hok Hr].
    apply andb_true_iff in Hok as [Hok Hx].
    apply andb_true_iff in Hok as [Hw _].
    cbn [render_params] in Hat. rewrite !append_assoc in Hat.
    set (rest := (render_params r ++ p2 ++ String ")" tail)%string) in *.
    assert (Hst : stops isalnum rest = true).
    { apply stops_params; [exact Hr|].
      apply stops_space; [apply space_not_alnum | exact Hp2 | reflexivity]. }
    set (s1 := set_CurTok tok_identifier
                 (set_IdentifierStr x (read_LastChar (set_input rest s)))).
    assert (Hat1 : At s1 rest).
    { apply (At_same (read_LastChar (set_input rest s)));
        [reflexivity | reflexivity | apply At_read]. }
    assert (Hlen : (String.length (input s1) <= String.length (input s))%nat).
    { destruct Hat as [Hs Hu], Hat1 as [Hs1 Hu1].
      pose proof (unread_length s1 Hs1) as L1. rewrite Hu1 in L1.
      assert (L : (String.length (unread s) <= String.length (input s) + 1)%nat).
      { unfold unread. destruct (LastChar s =? EOF); simpl; lia. }
      rewrite Hu, !string_length_app in L.
      destruct (ident_ok_inv x Hx) as (c & b & -> & _). simpl in L. lia. }
    destruct (IH false (acc ++ [x])%list s1 p2 tail Hat1 Hr Hp2)
      as (s' & Hc & Hat' & Ht & He & E).
    exists s'. split; [exact Hc|]. split; [exact Hat'|].
    split; [rewrite Ht; apply read_table|].
    split; [rewrite He; apply read_stderr|].
    intros n Hn. destruct n as [|n]; [lia|]. simpl in Hn.
    cbn [ParsePrototype_args].
    rewrite (next_word s w x rest n Hat Hw Hx Hst) by lia.
    simpl. fold s1. change (IdentifierStr s1) with x.
    rewrite E by lia. now rewrite <- app_assoc.
Qed.

(** [ParsePrototype] on the text of a prototype, the name being the
    current token: the prototype is returned once the token behind the
    closing parenthesis is read. *)
Lemma ParsePrototype_text (P : proto) s (tail : string) :
  CurTok s = tok_identifier -> IdentifierStr s = p_name P ->
  At s (p_pad1 P ++ String "(" (render_params (p_params P) ++ p_pad2 P
                                ++ String ")" tail)) ->
  string_forall isspace (p_pad1 P) = true ->
  params_ok true (p_params P) = true ->
  string_forall isspace (p_pad2 P) = true ->
  exists s2,
    CurTok s2 = chr ")" /\ At s2 tail
    /\ BinopPrecedence s2 = BinopPrecedence s /\ stderr s2 = stderr s
    /\ (String.length (input s2) <= String.length (input s))%nat
    /\ forall n,
         (String.length (input s) + length (p_params P) + 3 <= n)%nat ->
         ParsePrototype strtod n s
         = match getNextToken strtod n s2 with
           | None => None
           | Some (_, s3) => Some (Some (proto_ast P), s3)
           end.
Proof.
  intros Hc Hi Hat Hp1 Hps Hp2.
  set (rest := (render_params (p_params P) ++ p_pad2 P
                ++ String ")" tail)%string) in *.
  set (s1 := set_CurTok (chr "(") (read_LastChar (set_input rest s))).
  assert (Hat1 : At s1 rest).
  { apply (At_same (read_LastChar (set_input rest s)));
      [reflexivity | reflexivity | apply At_read]. }
  assert (Hlen : (String.length (input s1) <= String.length (input s))%nat).
  { apply (At_shorter _ _ _ _ Hat Hat1).
    rewrite string_length_app. simpl. lia. }
  destruct (ParsePrototype_args_text (p_params P) true [] s1 (p_pad2 P) tail
              Hat1 Hps Hp2) as (s2 & Hc2 & Hat2 & Ht & He & E).
  exists s2.
  split; [exact Hc2|]. split; [exact Hat2|].
  split; [rewrite Ht; apply read_table|].
  split; [rewrite He; apply read_stderr|]. split.
  { assert (L2 : (String.length (input s2) <= String.length (input s1))%nat).
    { apply (At_shorter _ _ _ _ Hat1 Hat2). unfold rest.
      rewrite !string_length_app. simpl. lia. }
    lia. }
  intros n Hn. unfold ParsePrototype. rewrite Hc. simpl.
  rewrite (next_char s (p_pad1 P) "(" rest n Hat Hp1) by (reflexivity || lia).
  fold s1. cbn [CurTok set_CurTok s1]. rewrite Z.eqb_refl. simpl.
  fold s1. rewrite E by lia. cbv beta iota. rewrite Hc2 at 1.
  rewrite Z.eqb_refl. simpl. unfold proto_ast. now rewrite Hi.
Qed.

Lemma render_proto_app (P : proto) (tail : string) :
  (render_proto P ++ tail)%string
  = (p_name P ++ p_pad1 P
     ++ String "(" (render_params (p_params P) ++ p_pad2 P
                    ++ String ")" tail))%string.
Proof.
  unfold render_proto.
  now rewrite !append_assoc, append_cons, !append_assoc, append_cons,
    append_nil_l.
Qed.

Lemma proto_ok_inv (P : proto) :
  proto_ok P = true ->
  ident_ok (p_name P) = true /\ string_forall isspace (p_pad1 P) = true
  /\ params_ok true (p_params P) = true
  /\ string_forall isspace (p_pad2 P) = true.
Proof.
  unfold proto_ok. intros H. apply andb_true_iff in H as [H H4].
  apply andb_true_iff in H as [H H3]. apply andb_true_iff in H as [H1 H2].
  auto.
Qed.

Lemma start_At text : At (seed (start zero text)) (String " " text).
Proof. split; [apply start_Scanning | reflexivity]. Qed.


(** [ParseExtern] and the prototype of [ParseDefintion]: from the keyword
    as current token to the state in front of what follows the closing
    parenthesis. *)
Lemma keyword_proto_text (d1 : string) (P : proto) (tail : string) s :
  At s (d1 ++ render_proto P ++ tail) ->
  string_forall isspace d1 = true -> proto_ok P = true ->
  exists s1 s2,
    CurTok s2 = chr ")" /\ At s2 tail
    /\ BinopPrecedence s2 = BinopPrecedence s /\ stderr s2 = stderr s
    /\ (String.length (input s2) <= String.length (input s))%nat
    /\ forall n,
         (String.length (input s) + length (p_params P) + 3 <= n)%nat ->
         getNextToken strtod n s = Some (tok_identifier, s1)
         /\ ParsePrototype strtod n s1
            = match getNextToken strtod n s2 with
              | None => None
              | Some (_, s3) => Some (Some (proto_ast P), s3)
              end.
Proof.
  intros Hat Hd1 HP.
  destruct (proto_ok_inv P HP) as (Hname & Hp1 & Hps & Hp2).
  rewrite render_proto_app in Hat.
  set (rest := (p_pad1 P ++ String "(" (render_params (p_params P)
                  ++ p_pad2 P ++ String ")" tail))%string) in *.
  assert (Hst : stops isalnum rest = true).
  { apply stops_space; [apply space_not_alnum | exact Hp1 | reflexivity]. }
  set (s1 := set_CurTok tok_identifier
               (set_IdentifierStr (p_name P)
                  (read_LastChar (set_input rest s)))) in *.
  assert (Hat1 : At s1 rest).
  { apply (At_same (read_LastChar (set_input rest s)));
      [reflexivity | reflexivity | apply At_read]. }
  assert (Hlen : (String.length (input s1) <= String.length (input s))%nat).
  { apply (At_shorter _ _ _ _ Hat Hat1).
    destruct (ident_ok_inv _ Hname) as (c & b & -> & _).
    rewrite !string_length_app. simpl. lia. }
  destruct (ParsePrototype_text P s1 tail eq_refl eq_refl Hat1 Hp1 Hps Hp2)
    as (s2 & Hc2 & Hat2 & Ht & He & L2 & E2).
  exists s1, s2. split; [exact Hc2|].
  split; [exact Hat2|]. split; [rewrite Ht; apply read_table|].
  split; [rewrite He; apply read_stderr|]. split; [lia|].
  intros n Hn. split.
  - exact (next_word s d1 (p_name P) rest n Hat Hd1 Hname Hst ltac:(lia)).
  - apply E2. lia.
Qed.

(** The first token of a text that starts with a keyword. *)
Lemma main_init_keyword (pad0 kw rest : string) n :
  string_forall isspace pad0 = true ->
  kw = "def" \/ kw = "extern" ->
  stops isalnum rest = true ->
  (String.length (pad0 ++ kw ++ rest) + 2 <= n)%nat ->
  exists s1,
    main_init strtod zero n (pad0 ++ kw ++ rest) = Some s1
    /\ CurTok s1 = (if String.eqb kw "def" then tok_def else tok_extern)
    /\ At s1 rest
    /\ BinopPrecedence s1 = seed_table ∅ /\ stderr s1 = [].
Proof.
  intros Hp Hk Hst Hn. unfold main_init.
  set (text := (pad0 ++ kw ++ rest)%string) in *.
  assert (Hat : At (seed (start zero text)) (String " " pad0 ++ kw ++ rest)).
  { rewrite append_cons. apply start_At. }
  rewrite (next_keyword _ (String " " pad0) kw rest n Hat);
    [|simpl; exact Hp | exact Hk | exact Hst | simpl; lia].
  eexists. split; [reflexivity|]. split; [reflexivity|].
  split; [|split].
  - apply (At_same (read_LastChar (set_input rest (seed (start zero text)))));
      [reflexivity | reflexivity | apply At_read].
  - apply (read_table (seed (start zero text))).
  - apply (read_stderr (seed (start zero text))).
Qed.

(** What [gettok_progress] gives for [getNextToken]. *)
Lemma next_token s txt n :
  At s txt -> string_forall not_hash txt = true ->
  (String.length (input s) + 2 <= n)%nat ->
  exists t s', getNextToken strtod n s = Some (t, s')
               /\ BinopPrecedence s' = BinopPrecedence s
               /\ stderr s' = stderr s.
Proof.
  intros [Hs Hu] Hh Hn.
  destruct (gettok_progress s Hs) as (t & s1 & pre & G & _).
  { unfold comment_free. now rewrite Hu. }
  apply (gettok_mono strtod _ n) in G; [|exact Hn].
  exists t, (set_CurTok t s1). unfold getNextToken. rewrite G.
  split; [reflexivity|].
  apply gettok_fields in G. unfold parser_fields in G.
  injection G as _ G2 G3. auto.
Qed.

(** X13: the text of an external declaration, the keyword [extern], a
    name and, between parentheses, parameter names separated by white
    space, parses to the prototype with that name and these parameters
    in their order, and nothing is printed on stderr. *)
Theorem ParseExtern_text (pad0 d1 : string) (P : proto) (tail : string) :
  string_forall isspace pad0 = true -> blank d1 = true ->
  proto_ok P = true -> string_forall not_hash tail = true ->
  exists fuel s',
    from_text strtod zero (ParseExtern strtod) fuel
      (pad0 ++ "extern" ++ d1 ++ render_proto P ++ tail)
    = Some (Some (proto_ast P), s')
    /\ stderr s' = [] /\ BinopPrecedence s' = seed_table ∅.
Proof.
  intros Hp0 Hd1 HP Htail.
  set (rest := (d1 ++ render_proto P ++ tail)%string).
  set (text := (pad0 ++ "extern" ++ rest)%string).
  set (n := (String.length text + length (p_params P) + 3)%nat).
  destruct (main_init_keyword pad0 "extern" rest n Hp0 (or_intror eq_refl))
    as (s1 & E1 & C1 & Hat1 & T1 & R1).
  { apply stops_blank; [apply space_not_alnum | exact Hd1]. }
  { unfold n. fold text. lia. }
  assert (Hw : string_forall isspace d1 = true).
  { unfold blank in Hd1. now apply andb_true_iff in Hd1 as [? _]. }
  assert (L1 : (String.length (input s1) + length (p_params P) + 3 <= n)%nat).
  { destruct Hat1 as [Hs1 Hu1]. pose proof (unread_length s1 Hs1) as L.
    rewrite Hu1 in L. unfold n, text. rewrite !string_length_app. lia. }
  destruct (keyword_proto_text d1 P tail s1 Hat1 Hw HP)
    as (s2 & s3 & C3 & Hat3 & T3 & R3 & L3 & E23).
  destruct (E23 n L1) as [E2 E3].
  destruct (next_token s3 tail n Hat3 Htail) as (t & s4 & E4 & T4 & R4).
  { lia. }
  exists n, s4. split; [|split].
  - unfold from_text, text. rewrite E1. unfold ParseExtern.
    rewrite E2, E3, E4. reflexivity.
  - now rewrite R4, R3.
  - now rewrite T4, T3.
Qed.

(** ** A tree is built from as many tokens as it stands for *)

Lemma Path_trans j k (a b c : State double) :
  Path strtod j a b -> Path strtod k b c -> Path strtod (j + k) a c.
Proof.
  induction 1 as [s | j n s t s1 s' E _ IH | j s p s1 s' E _ IH]; intros H.
  - exact H.
  - simpl. exact (Path_token strtod _ n s t s1 c E (IH H)).
  - exact (Path_prec strtod _ s p s1 c E (IH H)).
Qed.

Lemma Path_one n s t s1 :
  getNextToken strtod n s = Some (t, s1) -> Path strtod 1 s s1.
Proof. intros E. exact (Path_token strtod 0 n s t s1 s1 E (Path_here _ _)). Qed.

Lemma Path_look s p s1 :
  GetTokPrecedence s = (p, s1) -> Path strtod 0 s s1.
Proof. intros E. exact (Path_prec strtod 0 s p s1 s1 E (Path_here _ _)). Qed.

Lemma Path_nonneg k (s s' : State double) :
  Path strtod k s s' -> table_nonneg s -> table_nonneg s'.
Proof.
  induction 1 as [s | j n s t s1 s' E _ IH | j s p s1 s' E _ IH]; intros H.
  - exact H.
  - apply IH. unfold table_nonneg.
    now rewrite (getNextToken_table strtod _ _ _ _ E).
  - apply IH. exact (GetTokPrecedence_nonneg _ _ _ E H).
Qed.

Lemma parse_size n :
  (forall s e s', table_nonneg s ->
     ParsePrimary strtod n s = Some (Some e, s') ->
     Path strtod (weight e) s s')
  /\ (forall p l s e s', table_nonneg s ->
        ParseBinOpRHS strtod n p l s = Some (Some e, s') ->
        exists k, weight e = (weight l + k)%nat /\ Path strtod k s s')
  /\ (forall s e s', table_nonneg s ->
        ParseExpression strtod n s = Some (Some e, s') ->
        Path strtod (weight e) s s')
  /\ (forall s e s', table_nonneg s ->
        ParseIdentifierExpr strtod n s = Some (Some e, s') ->
        Path strtod (weight e) s s').
Proof.
  induction n as [|n IH].
  { repeat split; intros; discriminate. }
  destruct IH as (IHp & IHb & IHe & IHid).
  repeat match goal with |- _ /\ _ => split end.
  - (* ParsePrimary *)
    intros s e s' Hnn H. simpl in H.
    destruct (CurTok s =? tok_identifier); [now apply IHid|].
    destruct (CurTok s =? tok_number).
    { unfold ParseNumber in H.
      destruct (getNextToken strtod n s) as [[t s1]|] eqn:E; [|discriminate].
      injection H as <- <-. exact (Path_one _ _ _ _ E). }
    destruct (CurTok s =? chr "(").
    { now apply ParseParenExpr_never_succeeds in H. }
    discriminate.
  - (* ParseBinOpRHS *)
    intros p l s e s' Hnn H. simpl in H.
    destruct (GetTokPrecedence s) as [TokPrec s1] eqn:E1.
    pose proof (Path_look _ _ _ E1) as P1.
    pose proof (Path_nonneg _ _ _ P1 Hnn) as N1.
    destruct (TokPrec <? p).
    { injection H as <- <-. exists O. split; [lia | exact P1]. }
    destruct (getNextToken strtod n s1) as [[t s2]|] eqn:E2; [|discriminate].
    pose proof (Path_one _ _ _ _ E2) as P2.
    pose proof (Path_nonneg _ _ _ P2 N1) as N2.
    destruct (ParsePrimary strtod n s2) as [[[RHS|] s3]|] eqn:E3;
      [|discriminate|discriminate].
    pose proof (IHp _ _ _ N2 E3) as P3.
    pose proof (Path_nonneg _ _ _ P3 N2) as N3.
    destruct (GetTokPrecedence s3) as [NextPrec s4] eqn:E4.
    pose proof (Path_look _ _ _ E4) as P4.
    pose proof (Path_nonneg _ _ _ P4 N3) as N4.
    pose proof (Path_trans _ _ _ _ _ P1
                  (Path_trans _ _ _ _ _ P2 (Path_trans _ _ _ _ _ P3 P4)))
      as P14.
    destruct (TokPrec <? NextPrec).
    + destruct (ParseBinOpRHS strtod n (TokPrec + 1) RHS s4)
        as [[[RHS'|] s5]|] eqn:E5; [|discriminate|discriminate].
      destruct (IHb _ _ _ _ _ N4 E5) as (k5 & S5 & P5).
      pose proof (Path_nonneg _ _ _ P5 N4) as N5.
      destruct (IHb _ _ _ _ _ N5 H) as (k6 & S6 & P6).
      exists (0 + (1 + (weight RHS + 0)) + (k5 + k6))%nat. split.
      * rewrite S6. simpl. lia.
      * exact (Path_trans _ _ _ _ _ P14 (Path_trans _ _ _ _ _ P5 P6)).
    + destruct (IHb _ _ _ _ _ N4 H) as (k6 & S6 & P6).
      exists (0 + (1 + (weight RHS + 0)) + k6)%nat. split.
      * rewrite S6. simpl. lia.
      * exact (Path_trans _ _ _ _ _ P14 P6).
  - (* ParseExpression *)
    intros s e s' Hnn H. simpl in H.
    destruct (ParsePrimary strtod n s) as [[[LHS|] s1]|] eqn:E1;
      [|discriminate|discriminate].
    pose proof (IHp _ _ _ Hnn E1) as P1.
    pose proof (Path_nonneg _ _ _ P1 Hnn) as N1.
    destruct (IHb _ _ _ _ _ N1 H) as (k & S2 & P2).
    rewrite S2. exact (Path_trans _ _ _ _ _ P1 P2).
  - (* ParseIdentifierExpr *)
    intros s e s' Hnn H. simpl in H.
    destruct (getNextToken strtod n s) as [[t s1]|] eqn:E1; [|discriminate].
    pose proof (Path_one _ _ _ _ E1) as P1.
    pose proof (Path_nonneg _ _ _ P1 Hnn) as N1.
    destruct (negb (CurTok s1 =? chr "(")).
    { injection H as <- <-. exact P1. }
    destruct (getNextToken strtod n s1) as [[t2 s2]|] eqn:E2; [|discriminate].
    pose proof (Path_one _ _ _ _ E2) as P2.
    pose proof (Path_nonneg _ _ _ P2 N1) as N2.
    destruct (negb (CurTok s2 =? chr ")")).
    { destruct (ParseCallArgs strtod n [] s2) as [[[args|] s3]|] eqn:E3;
        [|discriminate|discriminate].
      now apply ParseCallArgs_never_succeeds in E3. }
    destruct (getNextToken strtod n s2) as [[t3 s3]|] eqn:E3; [|discriminate].
    injection H as <- <-.
    exact (Path_trans _ _ _ _ _ P1
             (Path_trans _ _ _ _ _ P2 (Path_one _ _ _ _ E3))).
Qed.

(** X14: a tree that [ParseExpression] returns was built from exactly
    as many tokens as it stands for: between the state at the call and
    the state at the return lie [weight e] calls of [getNextToken], one
    for every number, variable and operator of the tree and three for
    every call, and besides them only calls of [GetTokPrecedence].  No
    token is read and dropped. *)
Theorem ParseExpression_token_count text s n e s' :
  Later strtod (seed (start zero text)) s ->
  ParseExpression strtod n s = Some (Some e, s') ->
  Path strtod (weight e) s s' /\ (1 <= weight e)%nat
  /\ stderr s' = stderr s.
Proof.
  intros HL H.
  pose proof (Later_nonneg _ _ HL (seed_nonneg text)) as Hnn.
  split; [|split].
  - exact (proj1 (proj2 (proj2 (parse_size n))) s e s' Hnn H).
  - destruct e; simpl; lia.
  - destruct Reports_parse as (Q1 & Q2 & Q3 & Q4 & Q5).
    change (Reports s (is_node (Some e)) s').
    now apply (ParseExpression_outcome Reports) with (n := n).
Qed.

(** ** Where the parse of an operator chain ends *)

Lemma getNextToken_same n m s r r' :
  getNextToken strtod n s = Some r -> getNextToken strtod m s = Some r' ->
  r = r'.
Proof.
  intros H1 H2.
  apply (getNextToken_mono strtod _ (Nat.max n m)) in H1; [|lia].
  apply (getNextToken_mono strtod _ (Nat.max n m)) in H2; [|lia].
  congruence.
Qed.

Lemma settled_look tbl s p s1 :
  settled tbl s -> GetTokPrecedence s = (p, s1) -> s1 = s.
Proof.
  intros [Ht [Hn|(Ha & q & Hq & Hq0)]] H.
  - rewrite (GetTokPrecedence_nonascii s Hn) in H. now injection H as _ <-.
  - rewrite <- Ht in Hq.
    rewrite (GetTokPrecedence_hit s q Ha Hq Hq0) in H. now injection H as _ <-.
Qed.

Lemma Steps_settled tbl k s e : Steps strtod tbl k s e -> settled tbl s.
Proof. destruct k; simpl; tauto. Qed.

Lemma Path_Steps tbl k (s s' : State double) :
  Path strtod k s s' -> forall e, Steps strtod tbl k s e -> s' = e.
Proof.
  induction 1 as [s | k n s t s1 s' E _ IH | k s p s1 s' E _ IH]; intros e H.
  - now destruct H as [-> _].
  - destruct H as (_ & n' & t' & s1' & E' & H).
    pose proof (getNextToken_same _ _ _ _ _ E E') as Heq.
    injection Heq as _ <-. now apply IH.
  - pose proof (settled_look tbl s p s1 (Steps_settled _ _ _ _ H) E) as ->.
    now apply IH.
Qed.

Lemma OperatorTo_facts tbl : forall (rest : list (ascii * ExprAST double)) s e,
  OperatorTo strtod s rest e ->
  BinopPrecedence s = tbl ->
  Forall (valid_op tbl) (map fst rest) ->
  AtOperator strtod s rest
  /\ Steps strtod tbl (2 * length rest) s e
  /\ BinopPrecedence e = tbl
  /\ isascii (CurTok e) = false
  /\ Forall (fun x => weight (snd x) = 1%nat) rest.
Proof.
  induction rest as [|[op a] r IH]; intros s e H Ht Hv.
  - inversion H; subst. split; [now apply AtEnd|].
    split; [|auto]. simpl. split; [reflexivity|]. split; [reflexivity|].
    now left.
  - inversion H as [|s0 op0 n t s1 a0 r0 e0 Hc E Hto]; subst.
    inversion Hv as [|? ? Hop Hv']; subst. simpl in Hop.
    pose proof (getNextToken_table strtod _ _ _ _ E) as T1.
    assert (Hs : settled (BinopPrecedence s) s).
    { split; [reflexivity|]. right. destruct Hop as (Ha & _ & q & Hq & Hq0).
      rewrite Hc. split; [exact Ha|]. now exists q. }
    assert (Hgen : forall n2 t2 s2,
              CurTok s1 = tok_number \/ CurTok s1 = tok_identifier ->
              getNextToken strtod n2 s1 = Some (t2, s2) ->
              OperatorTo strtod s2 r e ->
              AtOperator strtod s2 r
              /\ Steps strtod (BinopPrecedence s) (2 * length ((op, a) :: r)) s e
              /\ BinopPrecedence e = BinopPrecedence s
              /\ isascii (CurTok e) = false
              /\ Forall (fun x => weight (snd x) = 1%nat) r).
    { intros n2 t2 s2 Hc1 E2 Hto2.
      pose proof (getNextToken_table strtod _ _ _ _ E2) as T2.
      destruct (IH s2 e Hto2 ltac:(congruence) Hv')
        as (A2 & S2 & Te & Ce & W2).
      split; [exact A2|]. split; [|auto].
      replace (2 * length ((op, a) :: r))%nat
        with (S (S (2 * length r))) by (simpl; lia).
      split; [exact Hs|]. exists n, t, s1. split; [exact E|].
      split.
      { split; [exact T1|]. left. destruct Hc1 as [-> | ->]; reflexivity. }
      exists n2, t2, s2. split; [exact E2 | exact S2]. }
    inversion Hto as [s0 n2 t2 s2 r0 e0 Hc1 E2 Hto2
                     |s0 n2 t2 s2 r0 e0 Hc1 E2 Hto2]; subst.
    + destruct (Hgen n2 t2 s2 (or_introl Hc1) E2 Hto2)
        as (A2 & S2 & Te & Ce & W2).
      split; [|split; [exact S2 | split; [exact Te | split; [exact Ce|]]]].
      * apply (AtOp strtod s op n t s1); [exact Hc | exact E|].
        now apply (AtNumber strtod s1 n2 t2 s2).
      * constructor; [reflexivity | exact W2].
    + destruct (Hgen n2 t2 s2 (or_intror Hc1) E2 Hto2)
        as (A2 & S2 & Te & Ce & W2).
      split; [|split; [exact S2 | split; [exact Te | split; [exact Ce|]]]].
      * apply (AtOp strtod s op n t s1); [exact Hc | exact E|].
        now apply (AtVariable strtod s1 n2 t2 s2).
      * constructor; [reflexivity | exact W2].
Qed.

Lemma OperandTo_facts tbl (rest : list (ascii * ExprAST double)) s a e :
  OperandTo strtod s a rest e ->
  BinopPrecedence s = tbl ->
  Forall (valid_op tbl) (map fst rest) ->
  AtOperand strtod s a rest
  /\ Steps strtod tbl (S (2 * length rest)) s e
  /\ BinopPrecedence e = tbl
  /\ isascii (CurTok e) = false
  /\ weight a = 1%nat
  /\ Forall (fun x => weight (snd x) = 1%nat) rest.
Proof.
  intros H Ht Hv.
  assert (Hgen : forall n t s1,
            CurTok s = tok_number \/ CurTok s = tok_identifier ->
            getNextToken strtod n s = Some (t, s1) ->
            OperatorTo strtod s1 rest e ->
            AtOperator strtod s1 rest
            /\ Steps strtod tbl (S (2 * length rest)) s e
            /\ BinopPrecedence e = tbl
            /\ isascii (CurTok e) = false
            /\ Forall (fun x => weight (snd x) = 1%nat) rest).
  { intros n t s1 Hc E Hto.
    pose proof (getNextToken_table strtod _ _ _ _ E) as T1.
    destruct (OperatorTo_facts tbl rest s1 e Hto ltac:(congruence) Hv)
      as (A & S1 & Te & Ce & W).
    split; [exact A|]. split; [|auto].
    split.
    { split; [exact Ht|]. left. destruct Hc as [-> | ->]; reflexivity. }
    exists n, t, s1. split; [exact E | exact S1]. }
  inversion H as [s0 n t s1 r0 e0 Hc E Hto|s0 n t s1 r0 e0 Hc E Hto]; subst.
  - destruct (Hgen n t s1 (or_introl Hc) E Hto) as (A & S1 & Te & Ce & W).
    split; [now apply (AtNumber strtod s n t s1)|]. auto.
  - destruct (Hgen n t s1 (or_intror Hc) E Hto) as (A & S1 & Te & Ce & W).
    split; [now apply (AtVariable strtod s n t s1)|]. auto.
Qed.

Lemma weight_flatten (e : ExprAST double) :
  Forall (fun x => match x with inl a => weight a = 1%nat | inr _ => True end)
    (flatten e) ->
  weight e = length (flatten e).
Proof.
  induction e as [v|x|op l IHl r IHr|f args]; simpl; intros H.
  - reflexivity.
  - reflexivity.
  - apply Forall_app in H as [Hl Hr]. inversion Hr; subst.
    rewrite length_app. simpl. rewrite IHl, IHr by assumption. lia.
  - now inversion H.
Qed.

Lemma flat_length (rest : list (ascii * ExprAST double)) :
  length (flat rest) = (2 * length rest)%nat.
Proof. induction rest as [|[op a] r IH]; simpl; [reflexivity|]. lia. Qed.

Lemma flat_weights (rest : list (ascii * ExprAST double)) :
  Forall (fun x => weight (snd x) = 1%nat) rest ->
  Forall (fun x => match x with inl a => weight a = 1%nat | inr _ => True end)
    (flat rest).
Proof.
  induction 1 as [|[op a] r Ha _ IH]; simpl; [constructor|].
  constructor; [exact I|]. constructor; [exact Ha | exact IH].
Qed.

(** [ParseExpression] on an operator chain, with the state in which it
    returns. *)
Lemma ParseExpression_to s a (rest : list (ascii * ExprAST double)) e :
  OperandTo strtod s a rest e ->
  table_nonneg s ->
  Forall (valid_op (BinopPrecedence s)) (map fst rest) ->
  exists fuel t,
    ParseExpression strtod fuel s = Some (Some t, e)
    /\ flatten t = inl a :: flat rest
    /\ shaped (BinopPrecedence s) t
    /\ BinopPrecedence e = BinopPrecedence s
    /\ stderr e = stderr s
    /\ isascii (CurTok e) = false.
Proof.
  intros Hto Hnn Hv.
  destruct (OperandTo_facts (BinopPrecedence s) rest s a e Hto eq_refl Hv)
    as (Hat & Hst & Te & Ce & Wa & Wr).
  destruct (ParseExpression_chain strtod s a rest Hat Hv)
    as (fuel & t & s' & E & Hf & Hs & _).
  assert (Hw : weight t = S (2 * length rest)).
  { rewrite weight_flatten; rewrite Hf.
    - simpl. now rewrite flat_length.
    - constructor; [exact Wa | now apply flat_weights]. }
  pose proof (proj1 (proj2 (proj2 (parse_size fuel))) s t s' Hnn E) as HP.
  rewrite Hw in HP.
  pose proof (Path_Steps _ _ _ _ HP e Hst) as ->.
  exists fuel, t. split; [exact E|]. split; [exact Hf|]. split; [exact Hs|].
  split; [exact Te|]. split; [|exact Ce].
  destruct Reports_parse as (Q1 & Q2 & Q3 & Q4 & Q5).
  change (Reports s (is_node (Some t)) e).
  now apply (ParseExpression_outcome Reports) with (n := fuel).
Qed.

(** The next token is a number. *)
Lemma next_number s (ws x rest : string) n :
  At s (ws ++ x ++ rest) ->
  string_forall isspace ws = true -> operand_ok (Num x) = true ->
  stops isnumchar rest = true ->
  (String.length (input s) + 2 <= n)%nat ->
  getNextToken strtod n s
  = Some (tok_number,
          set_CurTok tok_number
            (set_NumVal (strtod x) (read_LastChar (set_input rest s)))).
Proof.
  intros Hat Hws Hx Hst Hn.
  destruct x as [|d b]; [discriminate|]. simpl in Hx.
  apply andb_true_iff in Hx as [Hd Hb].
  apply At_Remaining in Hat. rewrite append_cons in Hat.
  pose proof (Remaining_stream _ _ _ _ Hat) as Hs.
  unfold getNextToken.
  now rewrite (gettok_digits strtod s ws d b rest n Hs Hws Hd Hb Hst Hn).
Qed.

Lemma render_stops_app (rest : list link) (tail : string) :
  forallb link_ok rest = true ->
  stops isnumchar tail = true -> stops isalnum tail = true ->
  stops isnumchar (render rest ++ tail) = true
  /\ stops isalnum (render rest ++ tail) = true.
Proof.
  destruct rest as [|[[[p1 op] p2] a] r];
    [intros _ H1 H2; now rewrite append_nil_l|].
  intros H _ _. simpl in H.
  apply andb_true_iff in H as [H _]. unfold link_ok in H.
  apply andb_true_iff in H as [H _]. apply andb_true_iff in H as [H _].
  apply andb_true_iff in H as [Hp Hop].
  cbn [render]. destruct p1 as [|w p1].
  - rewrite append_nil_l, append_cons. unfold stops, seeded_op in *.
    revert Hop. generalize (chr op). unfold chr. simpl. intros z Hz.
    split; apply negb_true_iff; ctype.
  - rewrite !append_cons. unfold stops. simpl in Hp.
    apply andb_true_iff in Hp as [Hw _].
    revert Hw. generalize (chr w). intros z Hz.
    split; apply negb_true_iff; ctype.
Qed.

Section Chain.

(** What is to hold where the chain ends. *)
Variable K : State double -> Prop.

Lemma operand_To (a : operand) (p tail : string)
    (L : list (ascii * ExprAST double)) s :
  operand_ok a = true ->
  string_forall isspace p = true ->
  stops isnumchar tail = true -> stops isalnum tail = true ->
  At s (p ++ operand_text a ++ tail) ->
  (forall s2, At s2 tail -> BinopPrecedence s2 = BinopPrecedence s ->
     stderr s2 = stderr s ->
     exists n t s3 e,
       getNextToken strtod n s2 = Some (t, s3)
       /\ OperatorTo strtod s3 L e /\ K e) ->
  exists n t s2 e,
    getNextToken strtod n s = Some (t, s2)
    /\ OperandTo strtod s2 (leaf strtod a) L e /\ K e
    /\ BinopPrecedence s2 = BinopPrecedence s /\ stderr s2 = stderr s
    /\ (CurTok s2 = tok_number \/ CurTok s2 = tok_identifier).
Proof.
  intros Ha Hp Hn Hal Hat Hnext.
  set (s0 := read_LastChar (set_input tail s)).
  assert (Hat0 : At s0 tail) by apply At_read.
  destruct a as [x|x]; cbn [operand_text leaf] in *.
  - pose proof (next_number s p x tail _ Hat Hp Ha Hn (Nat.le_refl _)) as E.
    fold s0 in E.
    set (s1 := set_CurTok tok_number (set_NumVal (strtod x) s0)) in *.
    destruct (Hnext s1) as (n & t & s3 & e & E3 & Hto & HK).
    { now apply (At_same s0). }
    { apply read_table. }
    { apply read_stderr. }
    exists (String.length (input s) + 2)%nat, tok_number, s1, e.
    split; [exact E|]. split; [|split; [exact HK|]].
    + change (strtod x) with (NumVal s1).
      now apply (NumberTo strtod s1 n t s3).
    + split; [apply read_table|]. split; [apply read_stderr | now left].
  - pose proof (next_word s p x tail _ Hat Hp Ha Hal (Nat.le_refl _)) as E.
    fold s0 in E.
    set (s1 := set_CurTok tok_identifier (set_IdentifierStr x s0)) in *.
    destruct (Hnext s1) as (n & t & s3 & e & E3 & Hto & HK).
    { now apply (At_same s0). }
    { apply read_table. }
    { apply read_stderr. }
    exists (String.length (input s) + 2)%nat, tok_identifier, s1, e.
    split; [exact E|]. split; [|split; [exact HK|]].
    + change x with (IdentifierStr s1) at 1.
      now apply (VariableTo strtod s1 n t s3).
    + split; [apply read_table|]. split; [apply read_stderr | now right].
Qed.

Lemma seeded_op_char (op : ascii) :
  seeded_op op = true ->
  isspace (chr op) = false /\ isalpha (chr op) = false
  /\ isnumchar (chr op) = false /\ (chr op =? chr "#") = false.
Proof.
  unfold seeded_op. generalize (chr op).
  unfold chr. simpl. intros z Hz. repeat split; ctype.
Qed.

Lemma render_To (rest : list link) (tail : string) :
  forallb link_ok rest = true ->
  stops isnumchar tail = true -> stops isalnum tail = true ->
  forall s, At s (render rest ++ tail) ->
  (forall s2, At s2 tail -> BinopPrecedence s2 = BinopPrecedence s ->
     stderr s2 = stderr s ->
     exists n t e,
       getNextToken strtod n s2 = Some (t, e)
       /\ isascii t = false /\ K e) ->
  exists n t s' e,
    getNextToken strtod n s = Some (t, s')
    /\ OperatorTo strtod s' (leaves strtod rest) e /\ K e.
Proof.
  intros Hok Hn Hal.
  induction rest as [|[[[p1 op] p2] a] r IH]; intros s Hat Hnext.
  - cbn [render] in Hat. rewrite append_nil_l in Hat.
    destruct (Hnext s Hat eq_refl eq_refl) as (n & t & e & E & Ht & HK).
    exists n, t, e, e. split; [exact E|]. split; [|exact HK].
    apply EndTo. now rewrite (getNextToken_CurTok strtod _ _ _ _ E).
  - simpl in Hok. apply andb_true_iff in Hok as [Hl Hr].
    unfold link_ok in Hl.
    apply andb_true_iff in Hl as [Hl Ha]. apply andb_true_iff in Hl as [Hl Hp2].
    apply andb_true_iff in Hl as [Hp1 Hop].
    cbn [render] in Hat. rewrite append_assoc, append_cons in Hat.
    rewrite !append_assoc in Hat.
    destruct (seeded_op_char op Hop) as (C1 & C2 & C3 & C4).
    set (rest1 := (p2 ++ operand_text a ++ render r ++ tail)%string) in *.
    pose proof (next_char s p1 op rest1 _ Hat Hp1 C1 C2 C3 C4
                  (Nat.le_refl _)) as E.
    set (s1 := set_CurTok (chr op) (read_LastChar (set_input rest1 s))) in *.
    destruct (render_stops_app r tail Hr Hn Hal) as [Hn' Hal'].
    destruct (operand_To a p2 (render r ++ tail)%string (leaves strtod r) s1
                Ha Hp2 Hn' Hal') as (n2 & t2 & s2 & e & E2 & Hto & HK & _).
    { apply (At_same (read_LastChar (set_input rest1 s)));
        [reflexivity | reflexivity | apply At_read]. }
    { intros s3 Hat3 T3 R3. apply (IH Hr s3 Hat3).
      intros s4 Hat4 T4 R4. apply Hnext; [exact Hat4 | |].
      - rewrite T4, T3. apply read_table.
      - rewrite R4, R3. apply read_stderr. }
    exists (String.length (input s) + 2)%nat, (chr op), s1, e.
    split; [exact E|]. split; [|exact HK].
    cbn [leaves map]. now apply (OpTo strtod s1 op n2 t2 s2).
Qed.

(** The text of an operand and of the chain behind it. *)
Lemma chain_To (pad : string) (a : operand) (rest : list link)
    (tail : string) s :
  string_forall isspace pad = true -> operand_ok a = true ->
  forallb link_ok rest = true ->
  stops isnumchar tail = true -> stops isalnum tail = true ->
  At s (pad ++ operand_text a ++ render rest ++ tail) ->
  (forall s2, At s2 tail -> BinopPrecedence s2 = BinopPrecedence s ->
     stderr s2 = stderr s ->
     exists n t e,
       getNextToken strtod n s2 = Some (t, e)
       /\ isascii t = false /\ K e) ->
  exists n t s2 e,
    getNextToken strtod n s = Some (t, s2)
    /\ OperandTo strtod s2 (leaf strtod a) (leaves strtod rest) e /\ K e
    /\ BinopPrecedence s2 = BinopPrecedence s /\ stderr s2 = stderr s
    /\ (CurTok s2 = tok_number \/ CurTok s2 = tok_identifier).
Proof.
  intros Hp Ha Hr Hn Hal Hat Hnext.
  destruct (render_stops_app rest tail Hr Hn Hal) as [Hn' Hal'].
  apply (operand_To a pad (render rest ++ tail)%string); try assumption.
  intros s2 Hat2 T2 R2.
  apply (render_To rest tail Hr Hn Hal s2 Hat2).
  intros s3 Hat3 T3 R3. apply Hnext; [exact Hat3 | congruence | congruence].
Qed.

End Chain.

(** ** The driver on the text of a program *)

Lemma program_stops (p : Z -> bool) (items : list (string * item))
    (trailing : string) :
  (forall c, isspace c = true -> p c = false) ->
  program_ok false items = true ->
  string_forall isspace trailing = true ->
  stops p (render_program items ++ trailing) = true.
Proof.
  intros Hp Hok Htr. destruct items as [|[sep it] r].
  - rewrite append_nil_l. rewrite <- (append_nil_r trailing).
    now apply stops_space.
  - cbn [program_ok] in Hok. apply andb_true_iff in Hok as [Hok _].
    apply andb_true_iff in Hok as [Hok _].
    apply andb_true_iff in Hok as [Hs Hn].
    cbn [render_program]. rewrite append_assoc.
    apply stops_blank; [exact Hp|]. unfold blank. now rewrite Hs, Hn.
Qed.

Lemma blank_space (w : string) : blank w = true -> string_forall isspace w = true.
Proof. unfold blank. intros H. now apply andb_true_iff in H as [? _]. Qed.

(** The first token of a program is no ASCII character. *)
Lemma first_token (items : list (string * item)) (first : bool)
    (trailing : string) s :
  program_ok first items = true ->
  string_forall isspace trailing = true ->
  At s (render_program items ++ trailing) ->
  exists t e,
    getNextToken strtod (String.length (input s) + 2) s = Some (t, e)
    /\ isascii t = false.
Proof.
  intros Hok Htr Hat. destruct items as [|[sep it] r].
  - cbn [render_program] in Hat. rewrite append_nil_l in Hat.
    destruct (next_eof s trailing _ Hat Htr (Nat.le_refl _))
      as (e & E & _).
    now exists tok_eof, e.
  - cbn [program_ok] in Hok. apply andb_true_iff in Hok as [Hok Hr].
    apply andb_true_iff in Hok as [Hok Hit].
    apply andb_true_iff in Hok as [Hs _].
    cbn [render_program] in Hat. rewrite !append_assoc in Hat.
    set (tail := (render_program r ++ trailing)%string) in *.
    destruct it as [d1 P p3 a rest | d1 P | a rest];
      cbn [render_item item_ok] in *.
    + apply andb_true_iff in Hit as [Hit Hrest].
      apply andb_true_iff in Hit as [Hit Ha].
      apply andb_true_iff in Hit as [Hit Hp3].
      apply andb_true_iff in Hit as [Hd HP].
      rewrite !append_assoc in Hat.
      eexists _, _. split.
      * apply (next_keyword s sep "def" _ _ Hat Hs (or_introl eq_refl));
          [|lia].
        apply stops_blank; [apply space_not_alnum | assumption].
      * reflexivity.
    + apply andb_true_iff in Hit as [Hd HP].
      rewrite !append_assoc in Hat.
      eexists _, _. split.
      * apply (next_keyword s sep "extern" _ _ Hat Hs (or_intror eq_refl));
          [|lia].
        apply stops_blank; [apply space_not_alnum | assumption].
      * reflexivity.
    + apply andb_true_iff in Hit as [Ha Hrest].
      rewrite !append_assoc in Hat.
      destruct (render_stops_app rest tail Hrest) as [Hn Hal].
      { apply program_stops; [apply space_not_numchar | exact Hr | exact Htr]. }
      { apply program_stops; [apply space_not_alnum | exact Hr | exact Htr]. }
      destruct a as [x|x]; cbn [operand_text] in Hat.
      * eexists _, _. split; [|shelve].
        apply (next_number s sep x _ _ Hat Hs Ha Hn). lia.
      * eexists _, _. split; [|shelve].
        apply (next_word s sep x _ _ Hat Hs Ha Hal). lia.
  Unshelve. all: reflexivity.
Qed.

Lemma Loaded_next (items : list (string * item)) (first : bool)
    (trailing : string) s :
  program_ok first items = true ->
  string_forall isspace trailing = true ->
  At s (render_program items ++ trailing) ->
  BinopPrecedence s = seed_table ∅ -> stderr s = [] ->
  exists n t e,
    getNextToken strtod n s = Some (t, e)
    /\ isascii t = false
    /\ Loaded strtod e (render_program items ++ trailing).
Proof.
  intros Hok Htr Hat Ht He.
  destruct (first_token items first trailing s Hok Htr Hat) as (t & e & E & Ha).
  exists (String.length (input s) + 2)%nat, t, e.
  split; [exact E|]. split; [exact Ha|].
  now exists s, (String.length (input s) + 2)%nat, t.
Qed.

Lemma Loaded_fields e txt :
  Loaded strtod e txt -> BinopPrecedence e = seed_table ∅ /\ stderr e = [].
Proof.
  intros (s0 & n & t & _ & Ht & He & E).
  rewrite <- Ht, <- He.
  split; [exact (getNextToken_table strtod _ _ _ _ E)
         | exact (getNextToken_stderr _ _ _ _ E)].
Qed.

Lemma seeded_nonneg s : BinopPrecedence s = seed_table ∅ -> table_nonneg s.
Proof.
  intros H k v. rewrite H.
  change (seed_table ∅) with (BinopPrecedence (seed (start zero EmptyString))).
  apply seed_nonneg.
Qed.

Lemma MainLoop_eof n (c : Console double) :
  CurTok (globals c) = tok_eof -> MainLoop strtod (S n) c = Some (prompt c).
Proof. intros H. simpl. now rewrite H. Qed.

Lemma MainLoop_def n (c c2 : Console double) :
  CurTok (globals c) = tok_def ->
  HandleDefintion strtod n (prompt c) = Some c2 ->
  MainLoop strtod (S n) c = MainLoop strtod n c2.
Proof.
  intros Hc H. cbn [MainLoop]. cbv zeta.
  change (globals (prompt c)) with (globals c). rewrite Hc, H. reflexivity.
Qed.

Lemma MainLoop_extern n (c c2 : Console double) :
  CurTok (globals c) = tok_extern ->
  HandleExtern strtod n (prompt c) = Some c2 ->
  MainLoop strtod (S n) c = MainLoop strtod n c2.
Proof.
  intros Hc H. cbn [MainLoop]. cbv zeta.
  change (globals (prompt c)) with (globals c). rewrite Hc, H. reflexivity.
Qed.

Lemma MainLoop_expr n (c c2 : Console double) :
  CurTok (globals c) = tok_number \/ CurTok (globals c) = tok_identifier ->
  HandleTopLevelExpression strtod n (prompt c) = Some c2 ->
  MainLoop strtod (S n) c = MainLoop strtod n c2.
Proof.
  intros Hc H. cbn [MainLoop]. cbv zeta.
  change (globals (prompt c)) with (globals c).
  destruct Hc as [Hc|Hc]; rewrite Hc, H; reflexivity.
Qed.

Section Items.

Variable tail : string.
Variable K : State double -> Prop.
Hypothesis tail_next : forall s2,
  At s2 tail -> BinopPrecedence s2 = seed_table ∅ -> stderr s2 = [] ->
  exists n t e,
    getNextToken strtod n s2 = Some (t, e) /\ isascii t = false /\ K e.

Lemma extern_handled (sep d1 : string) (P : proto) (c : Console double) :
  string_forall isspace sep = true -> blank d1 = true -> proto_ok P = true ->
  Loaded strtod (globals c) (sep ++ "extern" ++ d1 ++ render_proto P ++ tail) ->
  exists f e,
    K e /\ BinopPrecedence e = seed_table ∅ /\ stderr e = []
    /\ forall m, (f <= m)%nat ->
         MainLoop strtod (S m) c
         = MainLoop strtod m
             (print "Parsed an extern" (with_globals e (prompt c))).
Proof.
  intros Hsep Hd1 HP (s0 & n0 & t0 & Hat0 & T0 & R0 & E0).
  set (rest := (d1 ++ render_proto P ++ tail)%string) in *.
  pose proof (next_keyword s0 sep "extern" rest _ Hat0 Hsep
                (or_intror eq_refl)
                ltac:(apply stops_blank; [apply space_not_alnum | exact Hd1])
                (Nat.le_refl _)) as E0'.
  pose proof (getNextToken_same _ _ _ _ _ E0 E0') as Heq.
  injection Heq as _ Hg. simpl in Hg.
  assert (Hat : At (globals c) rest).
  { rewrite Hg. apply (At_same (read_LastChar (set_input rest s0)));
      [reflexivity | reflexivity | apply At_read]. }
  assert (Hc : CurTok (globals c) = tok_extern) by now rewrite Hg.
  assert (Ht : BinopPrecedence (globals c) = seed_table ∅).
  { rewrite <- T0. exact (getNextToken_table strtod _ _ _ _ E0). }
  assert (Hr : stderr (globals c) = []).
  { rewrite <- R0. exact (getNextToken_stderr _ _ _ _ E0). }
  destruct (keyword_proto_text d1 P tail (globals c) Hat (blank_space _ Hd1) HP)
    as (s1 & s2 & C2 & Hat2 & T2 & R2 & L2 & E12).
  destruct (tail_next s2 Hat2 ltac:(congruence) ltac:(congruence))
    as (n & t & e & E3 & _ & HK).
  exists (Nat.max (String.length (input (globals c))
                   + length (p_params P) + 3) n), e.
  split; [exact HK|].
  split; [rewrite <- Ht, <- T2; exact (getNextToken_table strtod _ _ _ _ E3)|].
  split; [rewrite <- Hr, <- R2; exact (getNextToken_stderr _ _ _ _ E3)|].
  intros m Hm. apply MainLoop_extern; [exact Hc|].
  destruct (E12 m ltac:(lia)) as [E1 E2].
  unfold HandleExtern, ParseExtern.
  change (globals (prompt c)) with (globals c).
  rewrite E1, E2.
  now rewrite (getNextToken_mono strtod _ m _ _ E3 ltac:(lia)).
Qed.

Hypothesis tail_numchar : stops isnumchar tail = true.
Hypothesis tail_alnum : stops isalnum tail = true.

Lemma chain_parsed (pad : string) (a : operand) (rest : list link) s :
  string_forall isspace pad = true -> operand_ok a = true ->
  forallb link_ok rest = true ->
  At s (pad ++ operand_text a ++ render rest ++ tail) ->
  BinopPrecedence s = seed_table ∅ -> stderr s = [] ->
  exists n t s2 e fuel tr,
    getNextToken strtod n s = Some (t, s2)
    /\ (CurTok s2 = tok_number \/ CurTok s2 = tok_identifier)
    /\ ParseExpression strtod fuel s2 = Some (Some tr, e)
    /\ flatten tr = inl (leaf strtod a) :: flat (leaves strtod rest)
    /\ shaped (seed_table ∅) tr
    /\ K e /\ BinopPrecedence e = seed_table ∅ /\ stderr e = [].
Proof.
  intros Hp Ha Hr Hat Ht He.
  destruct (chain_To K pad a rest tail s Hp Ha Hr tail_numchar tail_alnum Hat)
    as (n & t & s2 & e & E & Hto & HK & T2 & R2 & Hcur).
  { intros s3 Hat3 T3 R3. apply tail_next; congruence. }
  destruct (ParseExpression_to s2 (leaf strtod a) (leaves strtod rest) e Hto)
    as (fuel & tr & E2 & Hf & Hs & Te & Re & _).
  { apply seeded_nonneg. congruence. }
  { rewrite T2, Ht. now apply leaves_valid. }
  exists n, t, s2, e, fuel, tr.
  split; [exact E|]. split; [exact Hcur|]. split; [exact E2|].
  split; [exact Hf|]. split; [now rewrite T2, Ht in Hs|].
  split; [exact HK|]. split; congruence.
Qed.

Lemma expr_handled (sep : string) (a : operand) (rest : list link)
    (c : Console double) :
  string_forall isspace sep = true -> operand_ok a = true ->
  forallb link_ok rest = true ->
  Loaded strtod (globals c) (sep ++ operand_text a ++ render rest ++ tail) ->
  exists f e,
    K e /\ BinopPrecedence e = seed_table ∅ /\ stderr e = []
    /\ forall m, (f <= m)%nat ->
         MainLoop strtod (S m) c
         = MainLoop strtod m
             (print "Parsed a top level expression"
                (with_globals e (prompt c))).
Proof.
  intros Hsep Ha Hr (s0 & n0 & t0 & Hat0 & T0 & R0 & E0).
  destruct (chain_parsed sep a rest s0 Hsep Ha Hr Hat0 T0 R0)
    as (n & t & s2 & e & fuel & tr & E & Hcur & E2 & _ & _ & HK & Te & Re).
  pose proof (getNextToken_same _ _ _ _ _ E0 E) as Heq.
  injection Heq as _ Hg.
  exists fuel, e. split; [exact HK|]. split; [exact Te|]. split; [exact Re|].
  intros m Hm. apply MainLoop_expr; [now rewrite Hg|].
  unfold HandleTopLevelExpression, ParseTopLevelExpr.
  change (globals (prompt c)) with (globals c). rewrite Hg.
  now rewrite (ParseExpression_mono strtod _ m _ _ E2 Hm).
Qed.

Lemma def_parsed (d1 : string) (P : proto) (p3 : string) (a : operand)
    (rest : list link) s :
  blank d1 = true -> proto_ok P = true ->
  string_forall isspace p3 = true -> operand_ok a = true ->
  forallb link_ok rest = true ->
  At s (d1 ++ render_proto P ++ p3 ++ operand_text a ++ render rest ++ tail) ->
  BinopPrecedence s = seed_table ∅ -> stderr s = [] ->
  exists f e tr,
    K e /\ BinopPrecedence e = seed_table ∅ /\ stderr e = []
    /\ flatten tr = inl (leaf strtod a) :: flat (leaves strtod rest)
    /\ shaped (seed_table ∅) tr
    /\ forall m, (f <= m)%nat ->
         ParseDefintion strtod m s
         = Some (Some (MkFunctionAST (proto_ast P) tr), e).
Proof.
  intros Hd1 HP Hp3 Ha Hr Hat Ht He.
  destruct (keyword_proto_text d1 P _ s Hat (blank_space _ Hd1) HP)
    as (s1 & s2 & C2 & Hat2 & T2 & R2 & L2 & E12).
  destruct (chain_parsed p3 a rest s2 Hp3 Ha Hr Hat2 ltac:(congruence)
              ltac:(congruence))
    as (n & t & s3 & e & fuel & tr & E3 & _ & E4 & Hf & Hs & HK & Te & Re).
  exists (Nat.max (String.length (input s) + length (p_params P) + 3)
            (Nat.max n fuel)), e, tr.
  split; [exact HK|]. split; [exact Te|]. split; [exact Re|].
  split; [exact Hf|]. split; [exact Hs|].
  intros m Hm. destruct (E12 m ltac:(lia)) as [E1 E2].
  unfold ParseDefintion. rewrite E1, E2.
  rewrite (getNextToken_mono strtod _ m _ _ E3 ltac:(lia)).
  now rewrite (ParseExpression_mono strtod _ m _ _ E4 ltac:(lia)).
Qed.

Lemma def_handled (sep d1 : string) (P : proto) (p3 : string) (a : operand)
    (rest : list link) (c : Console double) :
  string_forall isspace sep = true ->
  blank d1 = true -> proto_ok P = true ->
  string_forall isspace p3 = true -> operand_ok a = true ->
  forallb link_ok rest = true ->
  Loaded strtod (globals c)
    (sep ++ "def" ++ d1 ++ render_proto P ++ p3 ++ operand_text a
     ++ render rest ++ tail) ->
  exists f e,
    K e /\ BinopPrecedence e = seed_table ∅ /\ stderr e = []
    /\ forall m, (f <= m)%nat ->
         MainLoop strtod (S m) c
         = MainLoop strtod m
             (print "Parsed a function defintion "
                (with_globals e (prompt c))).
Proof.
  intros Hsep Hd1 HP Hp3 Ha Hr (s0 & n0 & t0 & Hat0 & T0 & R0 & E0).
  set (rest1 := (d1 ++ render_proto P ++ p3 ++ operand_text a
                 ++ render rest ++ tail)%string) in *.
  pose proof (next_keyword s0 sep "def" rest1 _ Hat0 Hsep
                (or_introl eq_refl)
                ltac:(apply stops_blank; [apply space_not_alnum | exact Hd1])
                (Nat.le_refl _)) as E0'.
  pose proof (getNextToken_same _ _ _ _ _ E0 E0') as Heq.
  injection Heq as _ Hg. simpl in Hg.
  assert (Hat : At (globals c) rest1).
  { rewrite Hg. apply (At_same (read_LastChar (set_input rest1 s0)));
      [reflexivity | reflexivity | apply At_read]. }
  assert (Hc : CurTok (globals c) = tok_def) by now rewrite Hg.
  assert (Ht : BinopPrecedence (globals c) = seed_table ∅).
  { rewrite <- T0. exact (getNextToken_table strtod _ _ _ _ E0). }
  assert (He : stderr (globals c) = []).
  { rewrite <- R0. exact (getNextToken_stderr _ _ _ _ E0). }
  destruct (def_parsed d1 P p3 a rest (globals c) Hd1 HP Hp3 Ha Hr Hat Ht He)
    as (f & e & tr & HK & Te & Re & _ & _ & E).
  exists f, e. split; [exact HK|]. split; [exact Te|]. split; [exact Re|].
  intros m Hm. apply MainLoop_def; [exact Hc|].
  unfold HandleDefintion. change (globals (prompt c)) with (globals c).
  now rewrite (E m Hm).
Qed.

End Items.

Lemma MainLoop_program (items : list (string * item)) :
  forall (first : bool) (trailing : string) (c : Console double),
  program_ok first items = true ->
  string_forall isspace trailing = true ->
  Loaded strtod (globals c) (render_program items ++ trailing) ->
  exists f c',
    MainLoop strtod f c = Some c'
    /\ stdout c' = (stdout c ++ map (fun x => line_of (snd x)) items)%list
    /\ stderr (globals c') = []
    /\ prompts c' = (prompts c + length items + 1)%nat
    /\ CurTok (globals c') = tok_eof.
Proof.
  induction items as [|[sep it] r IH]; intros first trailing c Hok Htr HL.
  - cbn [render_program] in HL. rewrite append_nil_l in HL.
    destruct (Loaded_fields _ _ HL) as [_ He].
    destruct HL as (s0 & n0 & t0 & Hat0 & T0 & R0 & E0).
    destruct (next_eof s0 trailing _ Hat0 Htr (Nat.le_refl _))
      as (e & E & _ & Hc & _).
    pose proof (getNextToken_same _ _ _ _ _ E0 E) as Heq.
    injection Heq as _ Hg.
    exists 1%nat, (prompt c). rewrite MainLoop_eof by now rewrite Hg.
    split; [reflexivity|]. simpl. rewrite app_nil_r.
    split; [reflexivity|]. split; [exact He|]. split; [lia|].
    now rewrite Hg.
  - cbn [program_ok] in Hok. apply andb_true_iff in Hok as [Hok Hr].
    apply andb_true_iff in Hok as [Hok Hit].
    apply andb_true_iff in Hok as [Hsep _].
    cbn [render_program] in HL. rewrite !append_assoc in HL.
    set (tail := (render_program r ++ trailing)%string) in *.
    assert (Hnext : forall s2,
              At s2 tail -> BinopPrecedence s2 = seed_table ∅ ->
              stderr s2 = [] ->
              exists n t e,
                getNextToken strtod n s2 = Some (t, e)
                /\ isascii t = false /\ Loaded strtod e tail).
    { intros s2 Hat2 T2 R2. now apply (Loaded_next r false trailing). }
    assert (Hn : stops isnumchar tail = true).
    { apply program_stops; [apply space_not_numchar | exact Hr | exact Htr]. }
    assert (Hal : stops isalnum tail = true).
    { apply program_stops; [apply space_not_alnum | exact Hr | exact Htr]. }
    assert (Hstep : exists f e,
              Loaded strtod e tail
              /\ forall m, (f <= m)%nat ->
                   MainLoop strtod (S m) c
                   = MainLoop strtod m
                       (print (line_of it) (with_globals e (prompt c)))).
    { destruct it as [d1 P p3 a rest | d1 P | a rest];
        cbn [render_item item_ok line_of] in *.
      - apply andb_true_iff in Hit as [Hit Hrest].
        apply andb_true_iff in Hit as [Hit Ha].
        apply andb_true_iff in Hit as [Hit Hp3].
        apply andb_true_iff in Hit as [Hd HP].
        rewrite !append_assoc in HL.
        destruct (def_handled tail (fun e => Loaded strtod e tail) Hnext Hn Hal
                    sep d1 P p3 a rest c Hsep Hd HP Hp3 Ha Hrest HL)
          as (f & e & HK & _ & _ & E).
        now exists f, e.
      - apply andb_true_iff in Hit as [Hd HP].
        rewrite !append_assoc in HL.
        destruct (extern_handled tail (fun e => Loaded strtod e tail) Hnext
                    sep d1 P c Hsep Hd HP HL)
          as (f & e & HK & _ & _ & E).
        now exists f, e.
      - apply andb_true_iff in Hit as [Ha Hrest].
        rewrite !append_assoc in HL.
        destruct (expr_handled tail (fun e => Loaded strtod e tail) Hnext Hn Hal
                    sep a rest c Hsep Ha Hrest HL)
          as (f & e & HK & _ & _ & E).
        now exists f, e. }
    destruct Hstep as (f & e & HK & E).
    destruct (IH false trailing
                (print (line_of it) (with_globals e (prompt c))) Hr Htr HK)
      as (f' & c' & E' & Ho & He & Hp & Hc).
    exists (S (Nat.max f f')), c'.
    rewrite (E (Nat.max f f') ltac:(lia)).
    rewrite (MainLoop_mono _ (Nat.max f f') _ _ E' ltac:(lia)).
    split; [reflexivity|]. split.
    { rewrite Ho. simpl. now rewrite <- app_assoc. }
    split; [exact He|]. split; [|exact Hc].
    rewrite Hp. simpl. lia.
Qed.

(** X16: the text of a definition, the keyword [def], a prototype and
    an operator chain, parses to the function with that prototype and,
    as its body, the tree of the chain that precedence and left
    associativity prescribe; nothing is printed on stderr. *)
Theorem ParseDefintion_text (pad0 d1 : string) (P : proto) (p3 : string)
    (a : operand) (rest : list link) (trailing : string) :
  string_forall isspace pad0 = true ->
  item_ok (Def d1 P p3 a rest) = true ->
  string_forall isspace trailing = true ->
  exists fuel tr s',
    from_text strtod zero (ParseDefintion strtod) fuel
      (pad0 ++ render_item (Def d1 P p3 a rest) ++ trailing)
    = Some (Some (MkFunctionAST (proto_ast P) tr), s')
    /\ flatten tr = inl (leaf strtod a) :: flat (leaves strtod rest)
    /\ shaped (seed_table ∅) tr
    /\ stderr s' = [] /\ CurTok s' = tok_eof.
Proof.
  intros Hp0 Hit Htr. cbn [item_ok render_item] in *.
  apply andb_true_iff in Hit as [Hit Hrest].
  apply andb_true_iff in Hit as [Hit Ha].
  apply andb_true_iff in Hit as [Hit Hp3].
  apply andb_true_iff in Hit as [Hd HP].
  rewrite !append_assoc.
  set (rest1 := (d1 ++ render_proto P ++ p3 ++ operand_text a
                 ++ render rest ++ trailing)%string).
  destruct (main_init_keyword pad0 "def" rest1 _ Hp0 (or_introl eq_refl)
              ltac:(apply stops_blank; [apply space_not_alnum | exact Hd])
              (Nat.le_refl _))
    as (s1 & E1 & C1 & Hat1 & T1 & R1).
  destruct (def_parsed trailing (fun e => CurTok e = tok_eof)) with
    (d1 := d1) (P := P) (p3 := p3) (a := a) (rest := rest) (s := s1)
    as (f & e & tr & HK & Te & Re & Hf & Hs & E); try assumption.
  { intros s2 Hat2 T2 R2.
    destruct (next_eof s2 trailing _ Hat2 Htr (Nat.le_refl _))
      as (e & E & _ & Hc & _).
    now exists (String.length (input s2) + 2)%nat, tok_eof, e. }
  { rewrite <- (append_nil_r trailing).
    apply stops_space; [apply space_not_numchar | exact Htr | reflexivity]. }
  { rewrite <- (append_nil_r trailing).
    apply stops_space; [apply space_not_alnum | exact Htr | reflexivity]. }
  set (n0 := (String.length (pad0 ++ "def" ++ rest1) + 2)%nat) in *.
  exists (Nat.max n0 f), tr, e. split; [|auto].
  unfold from_text.
  rewrite (main_init_mono strtod zero _ (Nat.max n0 f) _ _ E1 ltac:(lia)).
  apply E. lia.
Qed.

(** X17: on the text of a program, definitions, external declarations
    and operator chains with white space between them, [main] returns;
    it has then printed on stdout one line for every construct, in the
    order of the text, the line that says that the construct was parsed;
    it has printed nothing on stderr but the prompt, which appears once
    for [main], once for every construct and once for the end of the
    input. *)
Theorem main_program (items : list (string * item)) (trailing : string) :
  program_ok true items = true ->
  string_forall isspace trailing = true ->
  exists fuel c,
    main strtod zero fuel (render_program items ++ trailing) = Some c
    /\ stdout c = map (fun x => line_of (snd x)) items
    /\ stderr (globals c) = []
    /\ prompts c = (length items + 2)%nat
    /\ CurTok (globals c) = tok_eof.
Proof.
  intros Hok Htr.
  set (text := (render_program items ++ trailing)%string).
  (* the blank that [LastChar] starts with goes in front of the text *)
  assert (Hshift : exists items' trailing',
            program_ok true items' = true
            /\ string_forall isspace trailing' = true
            /\ (render_program items' ++ trailing')%string = String " " text
            /\ map (fun x => line_of (snd x)) items'
               = map (fun x => line_of (snd x)) items
            /\ length items' = length items).
  { destruct items as [|[sep it] r].
    - exists [], (String " " trailing). repeat split; try reflexivity.
      simpl. exact Htr.
    - exists ((String " " sep, it) :: r), trailing.
      cbn [program_ok] in *. apply andb_true_iff in Hok as [Hok Hr].
      apply andb_true_iff in Hok as [Hok Hit].
      apply andb_true_iff in Hok as [Hsep _].
      split; [|repeat split; try reflexivity; assumption].
      rewrite Hr, Hit. simpl. now rewrite Hsep. }
  destruct Hshift as (items' & trailing' & Hok' & Htr' & Htxt & Hmap & Hlen).
  pose proof (start_At text) as Hat. rewrite <- Htxt in Hat.
  destruct (Loaded_next items' true trailing' _ Hok' Htr' Hat eq_refl eq_refl)
    as (n & t & e & E & _ & HL).
  destruct (MainLoop_program items' true trailing'
              (with_globals e (prompt (MkConsole (seed (start zero text)) [] O)))
              Hok' Htr' HL)
    as (f & c & E2 & Ho & He & Hp & Hc).
  exists (Nat.max n f), c. split.
  - unfold main. cbv zeta. fold text.
    change (globals (prompt (MkConsole (seed (start zero text)) [] O)))
      with (seed (start zero text)).
    rewrite (getNextToken_mono strtod _ (Nat.max n f) _ _ E ltac:(lia)).
    exact (MainLoop_mono _ (Nat.max n f) _ _ E2 ltac:(lia)).
  - rewrite Ho, He, Hp, Hmap, Hlen. simpl. repeat split; try assumption. lia.
Qed.

(** ** The trees that the parser returns *)

Lemma chr_to_char (z : Z) : 0 <= z < 256 -> chr (to_char z) = z.
Proof.
  intros H. unfold chr, to_char.
  rewrite Z.mod_small by lia.
  rewrite N_ascii_embedding; [now rewrite Z2N.id by lia|].
  change 256%N with (Z.to_N 256). apply Z2N.inj_lt; lia.
Qed.

Lemma parse_well_formed n :
  (forall s e s', table_nonneg s ->
     ParsePrimary strtod n s = Some (Some e, s') -> well_formed e)
  /\ (forall p l s e s', table_nonneg s -> 0 <= p -> well_formed l ->
        ParseBinOpRHS strtod n p l s = Some (Some e, s') -> well_formed e)
  /\ (forall s e s', table_nonneg s ->
        ParseExpression strtod n s = Some (Some e, s') -> well_formed e)
  /\ (forall s e s', table_nonneg s ->
        ParseIdentifierExpr strtod n s = Some (Some e, s') ->
        e = VariableExprAST (IdentifierStr s)
        \/ e = CallExprAST (IdentifierStr s) []).
Proof.
  induction n as [|n IH].
  { repeat split; intros; discriminate. }
  destruct IH as (IHp & IHb & IHe & IHid).
  destruct (parse_size n) as (Sp & Sb & Se & Sid).
  repeat match goal with |- _ /\ _ => split end.
  - (* ParsePrimary *)
    intros s e s' Hnn H. simpl in H.
    destruct (CurTok s =? tok_identifier).
    { destruct (IHid _ _ _ Hnn H) as [-> | ->]; simpl; auto. }
    destruct (CurTok s =? tok_number).
    { unfold ParseNumber in H.
      destruct (getNextToken strtod n s) as [[t s1]|]; [|discriminate].
      injection H as <- <-. exact I. }
    destruct (CurTok s =? chr "(").
    { now apply ParseParenExpr_never_succeeds in H. }
    discriminate.
  - (* ParseBinOpRHS *)
    intros p l s e s' Hnn Hp Hl H. simpl in H.
    destruct (GetTokPrecedence s) as [TokPrec s1] eqn:E1.
    pose proof (GetTokPrecedence_nonneg _ _ _ E1 Hnn) as N1.
    destruct (Z.ltb_spec TokPrec p) as [L|L].
    { now injection H as <- <-. }
    assert (Hop : isascii (chr (to_char (CurTok s1))) = true).
    { assert (Ha : isascii (CurTok s) = true).
      { destruct (isascii (CurTok s)) eqn:Ha; [reflexivity|].
        rewrite (GetTokPrecedence_nonascii s Ha) in E1.
        injection E1 as <- _. lia. }
      rewrite (GetTokPrecedence_unchanged _ _ _ E1).
      cbn [CurTok set_BinopPrecedence].
      rewrite chr_to_char; [exact Ha|]. revert Ha. ctype. }
    destruct (getNextToken strtod n s1) as [[t s2]|] eqn:E2; [|discriminate].
    assert (N2 : table_nonneg s2).
    { unfold table_nonneg. now rewrite (getNextToken_table strtod _ _ _ _ E2). }
    destruct (ParsePrimary strtod n s2) as [[[RHS|] s3]|] eqn:E3;
      [|discriminate|discriminate].
    pose proof (IHp _ _ _ N2 E3) as W3.
    pose proof (Path_nonneg _ _ _ (Sp _ _ _ N2 E3) N2) as N3.
    destruct (GetTokPrecedence s3) as [NextPrec s4] eqn:E4.
    pose proof (GetTokPrecedence_nonneg _ _ _ E4 N3) as N4.
    destruct (TokPrec <? NextPrec).
    + destruct (ParseBinOpRHS strtod n (TokPrec + 1) RHS s4)
        as [[[RHS'|] s5]|] eqn:E5; [|discriminate|discriminate].
      assert (Hp1 : 0 <= TokPrec + 1) by lia.
      pose proof (IHb _ _ _ _ _ N4 Hp1 W3 E5) as W5.
      destruct (Sb _ _ _ _ _ N4 E5) as (k5 & _ & P5).
      pose proof (Path_nonneg _ _ _ P5 N4) as N5.
      apply (IHb _ _ _ _ _ N5 Hp) in H; [exact H|].
      simpl. auto.
    + apply (IHb _ _ _ _ _ N4 Hp) in H; [exact H|].
      simpl. auto.
  - (* ParseExpression *)
    intros s e s' Hnn H. simpl in H.
    destruct (ParsePrimary strtod n s) as [[[LHS|] s1]|] eqn:E1;
      [|discriminate|discriminate].
    pose proof (IHp _ _ _ Hnn E1) as W1.
    pose proof (Path_nonneg _ _ _ (Sp _ _ _ Hnn E1) Hnn) as N1.
    exact (IHb 0 _ _ _ _ N1 (Z.le_refl 0) W1 H).
  - (* ParseIdentifierExpr *)
    intros s e s' Hnn H. simpl in H.
    destruct (getNextToken strtod n s) as [[t s1]|] eqn:E1; [|discriminate].
    assert (N1 : table_nonneg s1).
    { unfold table_nonneg. now rewrite (getNextToken_table strtod _ _ _ _ E1). }
    destruct (negb (CurTok s1 =? chr "(")).
    { injection H as <- <-. now left. }
    destruct (getNextToken strtod n s1) as [[t2 s2]|] eqn:E2; [|discriminate].
    assert (N2 : table_nonneg s2).
    { unfold table_nonneg. now rewrite (getNextToken_table strtod _ _ _ _ E2). }
    destruct (negb (CurTok s2 =? chr ")")).
    { destruct (ParseCallArgs strtod n [] s2) as [[[args|] s3]|] eqn:E3;
        [|discriminate|discriminate].
      now apply ParseCallArgs_never_succeeds in E3. }
    destruct (getNextToken strtod n s2) as [[t3 s3]|]; [|discriminate].
    injection H as <- <-. now right.
Qed.

(** X15: what the parser can return, in every state that the program
    reaches.  A parenthesised expression never parses, and neither does
    a call with arguments: an identifier yields a variable or a call
    without arguments.  So in every tree that [ParseExpression] returns
    the calls have no arguments, and the operators are ASCII
    characters. *)
Theorem parser_output_well_formed text s :
  Later strtod (seed (start zero text)) s ->
  (forall n e s',
     ParseExpression strtod n s = Some (Some e, s') -> well_formed e)
  /\ (forall n e s',
        ParseIdentifierExpr strtod n s = Some (Some e, s') ->
        e = VariableExprAST (IdentifierStr s)
        \/ e = CallExprAST (IdentifierStr s) [])
  /\ (forall n e s', ParseParenExpr strtod n s <> Some (Some e, s'))
  /\ (forall n a args s',
        ParseCallArgs strtod n a s <> Some (Some args, s')).
Proof.
  intros HL.
  pose proof (Later_nonneg _ _ HL (seed_nonneg text)) as Hnn.
  split; [|split; [|split]].
  - intros n e s'. now apply (proj1 (proj2 (proj2 (parse_well_formed n)))).
  - intros n e s'. now apply (proj2 (proj2 (proj2 (parse_well_formed n)))).
  - intros n e s'. now apply ParseParenExpr_never_succeeds.
  - intros n a args s'. now apply ParseCallArgs_never_succeeds.
Qed.

(** ** Null results, from the call to the report *)

Lemma report_inj (a b : State double) (m m' : string) :
  set_stderr (stderr a ++ [m])%list a = set_stderr (stderr b ++ [m'])%list b ->
  a = b /\ m = m'.
Proof.
  destruct a, b. unfold set_stderr. simpl. intros H.
  injection H as -> -> -> -> -> -> -> H.
  apply app_inj_tail in H as [-> ->]. auto.
Qed.

Lemma Trail_parse :
  (forall s, Trail strtod s true s)
  /\ (forall (a b c : State double) ok,
        Trail strtod a true b -> Trail strtod b ok c -> Trail strtod a ok c)
  /\ (forall fuel s t s',
        getNextToken strtod fuel s = Some (t, s') -> Trail strtod s true s')
  /\ (forall s p s', GetTokPrecedence s = (p, s') -> Trail strtod s true s')
  /\ (forall msg s,
        Trail strtod s false (set_stderr (stderr s ++ [msg])%list s)).
Proof.
  split; [|split; [|split; [|split]]].
  - intros s. exists O. apply Path_here.
  - intros a b c [|] [j Hj]; simpl.
    + intros [k Hk]. exists (j + k)%nat. exact (Path_trans _ _ _ _ _ Hj Hk).
    + intros (k & s0 & msg & Hk & E). exists (j + k)%nat, s0, msg.
      split; [exact (Path_trans _ _ _ _ _ Hj Hk) | exact E].
  - intros fuel s t s' E. exists 1%nat. exact (Path_one _ _ _ _ E).
  - intros s p s' E. exists O. exact (Path_look _ _ _ E).
  - intros msg s. exists O, s, msg. split; [apply Path_here | reflexivity].
Qed.

Lemma Traced_intro s s' :
  Rejected s' -> Trail strtod s false s' -> Traced strtod s s'.
Proof.
  intros (s0 & msg & E & Ho) (k & s1 & msg1 & HP & E1).
  rewrite E in E1. apply report_inj in E1 as [-> ->].
  now exists k, s1, msg1.
Qed.

Lemma ParseDefintion_null n s s' :
  ParseDefintion strtod n s = Some (None, s') -> Rejected s'.
Proof.
  unfold ParseDefintion. intros H.
  destruct (getNextToken strtod n s) as [[t s1]|]; [|discriminate].
  destruct (ParsePrototype strtod n s1) as [[[P|] s2]|] eqn:E2;
    [| |discriminate].
  - destruct (ParseExpression strtod n s2) as [[[e|] s3]|] eqn:E3;
      [discriminate| |discriminate].
    injection H as <-.
    exact (proj1 (proj2 (proj2 (parse_null strtod n))) s2 s3 E3).
  - injection H as <-. exact (ParsePrototype_null strtod n s1 s2 E2).
Qed.

Lemma ParseExtern_null n s s' :
  ParseExtern strtod n s = Some (None, s') -> Rejected s'.
Proof.
  unfold ParseExtern. intros H.
  destruct (getNextToken strtod n s) as [[t s1]|]; [|discriminate].
  exact (ParsePrototype_null strtod n s1 s' H).
Qed.

Lemma ParseTopLevelExpr_null n s s' :
  ParseTopLevelExpr strtod n s = Some (None, s') -> Rejected s'.
Proof.
  unfold ParseTopLevelExpr. intros H.
  destruct (ParseExpression strtod n s) as [[[e|] s3]|] eqn:E3;
    [discriminate| |discriminate].
  injection H as <-.
  exact (proj1 (proj2 (proj2 (parse_null strtod n))) s s3 E3).
Qed.

(** Every null result of every routine, traced from the call. *)
Lemma null_Traced n :
  (forall s s', ParsePrimary strtod n s = Some (None, s') ->
     Traced strtod s s')
  /\ (forall p l s s', ParseBinOpRHS strtod n p l s = Some (None, s') ->
        Traced strtod s s')
  /\ (forall s s', ParseExpression strtod n s = Some (None, s') ->
        Traced strtod s s')
  /\ (forall s s', ParseParenExpr strtod n s = Some (None, s') ->
        Traced strtod s s')
  /\ (forall s s', ParseIdentifierExpr strtod n s = Some (None, s') ->
        Traced strtod s s')
  /\ (forall s s', ParsePrototype strtod n s = Some (None, s') ->
        Traced strtod s s')
  /\ (forall s s', ParseDefintion strtod n s = Some (None, s') ->
        Traced strtod s s')
  /\ (forall s s', ParseExtern strtod n s = Some (None, s') ->
        Traced strtod s s')
  /\ (forall s s', ParseTopLevelExpr strtod n s = Some (None, s') ->
        Traced strtod s s').
Proof.
  destruct Trail_parse as (Q1 & Q2 & Q3 & Q4 & Q5).
  destruct (parse_null strtod n) as (Np & Nb & Ne & Npar & Nid & _).
  assert (O := parse_outcome (Trail strtod) Q2 Q3 Q4 Q5 n).
  destruct O as (Op & Ob & Oe & Opar & Oid & _).
  repeat match goal with |- _ /\ _ => split end.
  - intros s s' H. apply Traced_intro; [exact (Np _ _ H)|].
    exact (Op _ None _ H).
  - intros p l s s' H. apply Traced_intro; [exact (Nb _ _ _ _ H)|].
    exact (Ob _ _ _ None _ H).
  - intros s s' H. apply Traced_intro; [exact (Ne _ _ H)|].
    exact (Oe _ None _ H).
  - intros s s' H. apply Traced_intro; [exact (Npar _ _ H)|].
    exact (Opar _ None _ H).
  - intros s s' H. apply Traced_intro; [exact (Nid _ _ H)|].
    exact (Oid _ None _ H).
  - intros s s' H.
    apply Traced_intro; [exact (ParsePrototype_null strtod _ _ _ H)|].
    change (Trail strtod s (is_node (@None (PrototypeAST))) s').
    now apply (ParsePrototype_outcome (Trail strtod)) with (n := n).
  - intros s s' H. apply Traced_intro; [exact (ParseDefintion_null _ _ _ H)|].
    change (Trail strtod s (is_node (@None (FunctionAST double))) s').
    now apply (ParseDefintion_outcome (Trail strtod)) with (n := n).
  - intros s s' H. apply Traced_intro; [exact (ParseExtern_null _ _ _ H)|].
    change (Trail strtod s (is_node (@None (PrototypeAST))) s').
    now apply (ParseExtern_outcome (Trail strtod)) with (n := n).
  - intros s s' H.
    apply Traced_intro; [exact (ParseTopLevelExpr_null _ _ _ H)|].
    change (Trail strtod s (is_node (@None (FunctionAST double))) s').
    now apply (ParseTopLevelExpr_outcome (Trail strtod)) with (n := n).
Qed.

(** ** Null results and precedence, with the whole development at hand *)


(** C4, as the code has it: the claim fails on valid expressions with
    parentheses.  On [(1+2)*3] the closing parenthesis gets the
    precedence [0] and is taken as a binary operator, the operand behind
    it is missing, and [ParseExpression] returns null; in no state that
    the program reaches does an expression that begins with a
    parenthesis parse.  A semicolon behind an expression is taken as an
    operator too: [1+2*3;] returns null and [1+2*3;4] a tree with [;] at
    its root.  What the code keeps: on numbers and variables joined by
    the operators of the table, up to the end of the input, the tree has
    the shape that precedence and left associativity prescribe, and it
    is the only such tree; [1+2*3] yields the sum of [1] and the
    product, [1-2-3] the difference of the first difference and [3]. *)
Theorem ParseExpression_precedence :
  (forall k, exists s',
     from_text strtod zero (ParseExpression strtod) (12 + k) "(1+2)*3"
     = Some (None, s')
     /\ stderr s' = ["unknown token when expecting an expression"]
     /\ CurTok s' = chr "*")
  /\ (forall text s n e s',
        Later strtod (seed (start zero text)) s ->
        CurTok s = chr "(" ->
        ParseExpression strtod n s <> Some (Some e, s'))
  /\ (forall k, exists s',
        from_text strtod zero (ParseExpression strtod) (12 + k) "1+2*3;"
        = Some (None, s')
        /\ stderr s' = ["unknown token when expecting an expression"]
        /\ CurTok s' = tok_eof)
  /\ (forall k,
        fst <$> from_text strtod zero (ParseExpression strtod) (12 + k)
                  "1+2*3;4"
        = Some (Some (BinaryExprAST ";"
                        (BinaryExprAST "+" (NumberExprAST (strtod "1"))
                           (BinaryExprAST "*" (NumberExprAST (strtod "2"))
                              (NumberExprAST (strtod "3"))))
                        (NumberExprAST (strtod "4")))))
  /\ (forall (pad : string) (a : operand) (rest : list link),
        string_forall isspace pad = true ->
        operand_ok a = true ->
        forallb link_ok rest = true ->
        exists fuel t s',
          from_text strtod zero (ParseExpression strtod) fuel
            (pad ++ operand_text a ++ render rest)
          = Some (Some t, s')
          /\ flatten t = inl (leaf strtod a) :: flat (leaves strtod rest)
          /\ shaped (seed_table ∅) t
          /\ forall t',
               flatten t' = inl (leaf strtod a) :: flat (leaves strtod rest) ->
               shaped (seed_table ∅) t' -> t' = t)
  /\ (forall k,
        fst <$> from_text strtod zero (ParseExpression strtod) (10 + k) "1+2*3"
        = Some (Some (BinaryExprAST "+" (NumberExprAST (strtod "1"))
                        (BinaryExprAST "*" (NumberExprAST (strtod "2"))
                           (NumberExprAST (strtod "3"))))))
  /\ (forall k,
        fst <$> from_text strtod zero (ParseExpression strtod) (10 + k) "1-2-3"
        = Some (Some (BinaryExprAST "-"
                        (BinaryExprAST "-" (NumberExprAST (strtod "1"))
                           (NumberExprAST (strtod "2")))
                        (NumberExprAST (strtod "3"))))).
Proof.
  repeat match goal with |- _ /\ _ => split end.
  - intros k. eexists. split.
    + apply from_text_more; [exact (ParseExpression_mono strtod)|].
      vm_compute. reflexivity.
    + split; reflexivity.
  - intros text s n e s' HL Hc H.
    pose proof (Later_nonneg _ _ HL (seed_nonneg text)) as Hnn.
    destruct n as [|n]; [discriminate|]. simpl in H.
    destruct (ParsePrimary strtod n s) as [[[LHS|] s1]|] eqn:E;
      [|discriminate|discriminate].
    destruct n as [|n]; [discriminate|]. simpl in E. rewrite Hc in E.
    change (chr "(" =? tok_identifier) with false in E.
    change (chr "(" =? tok_number) with false in E.
    rewrite Z.eqb_refl in E.
    exact (ParseParenExpr_never_succeeds strtod n s LHS s1 Hnn E).
  - intros k. eexists. split.
    + apply from_text_more; [exact (ParseExpression_mono strtod)|].
      vm_compute. reflexivity.
    + split; reflexivity.
  - intros k.
    erewrite from_text_more;
      [reflexivity | exact (ParseExpression_mono strtod) |].
    vm_compute. reflexivity.
  - intros pad a rest Hp Ha Hr.
    destruct (ParseExpression_text strtod zero pad a rest Hp Ha Hr)
      as (fuel & t & s' & E & Hf & Hs).
    exists fuel, t, s'. repeat split; try assumption.
    intros t' Hf' Hs'. apply (shaped_unique (seed_table ∅)); congruence.
  - apply ParseExpression_example_mul.
  - apply ParseExpression_example_sub.
Qed.

End Coverage.

(** ** Instances *)

Lemma gettok_single_char_witness :
  gettok decimal 6 (start 0%Q " )x")
  = Some (chr ")", read_LastChar (set_input "x" (start 0%Q " )x")))
  /\ 0 <= chr ")" < 256.
Proof.
  apply (gettok_single_char decimal (start 0%Q " )x") "  " ")" "x" 6);
    first [reflexivity | simpl; lia].
Defined.

Lemma gettok_blank_input_witness :
  gettok decimal 4 (start 0%Q "  ")
  = Some (tok_eof,
          set_LastChar EOF
            (set_feof true (set_input EmptyString (start 0%Q "  ")))).
Proof.
  apply (gettok_blank_input decimal (start 0%Q "  ") 4);
    first [reflexivity | simpl; lia].
Defined.

Lemma gettok_token_kinds_witness :
  Scanning (set_IdentifierStr "x"
              (read_LastChar (set_input "+" (start 0%Q "x+"))))
  /\ token_kind tok_identifier.
Proof.
  destruct (gettok_token_kinds decimal 5 (start 0%Q "x+") tok_identifier
              (set_IdentifierStr "x"
                 (read_LastChar (set_input "+" (start 0%Q "x+")))))
    as (A & B & _).
  - right. exists " "%char. reflexivity.
  - vm_compute. reflexivity.
  - split; [exact A | exact B].
Defined.

Lemma gettok_returns_without_comment_witness :
  exists t s' pre,
    gettok decimal (String.length (input (start 0%Q "x+1")) + 2)
      (start 0%Q "x+1") = Some (t, s')
    /\ unread (start 0%Q "x+1") = (pre ++ unread s')%string
    /\ (LastChar (start 0%Q "x+1") <> EOF -> pre <> EmptyString)
    /\ Scanning s' /\ comment_free s'.
Proof.
  apply (gettok_returns_without_comment decimal (start 0%Q "x+1")).
  - right. exists " "%char. reflexivity.
  - reflexivity.
Defined.

Lemma scanner_frame_witness :
  CurTok (set_CurTok tok_identifier
            (set_IdentifierStr "x"
               (read_LastChar (set_input "+" (start 0%Q "x+")))))
  = tok_identifier
  /\ stderr (set_CurTok tok_identifier
               (set_IdentifierStr "x"
                  (read_LastChar (set_input "+" (start 0%Q "x+")))))
     = stderr (start 0%Q "x+").
Proof.
  destruct (scanner_frame decimal 5 (start 0%Q "x+") tok_identifier
              (set_CurTok tok_identifier
                 (set_IdentifierStr "x"
                    (read_LastChar (set_input "+" (start 0%Q "x+"))))))
    as (A & _ & B & _).
  - vm_compute. reflexivity.
  - split; [exact A | exact B].
Defined.

Lemma precedence_never_negative_witness :
  fst (GetTokPrecedence (seed (start 0%Q "1;"))) = -1
  <-> isascii (CurTok (seed (start 0%Q "1;"))) = false.
Proof.
  exact (proj1 (proj2 (precedence_never_negative decimal 0%Q "1;"
                         (seed (start 0%Q "1;")) (rtc_refl _ _)))).
Defined.

Lemma one_message_per_failure_witness :
  Reports (seed (start 0%Q ")")) false
    (set_stderr ["unknown token when expecting an expression"]
       (seed (start 0%Q ")"))).
Proof.
  apply (proj2 (proj2 (proj2 (proj2
           (one_message_per_failure decimal 5 (seed (start 0%Q ")"))))))
           None).
  vm_compute. reflexivity.
Defined.

Lemma main_reads_all_input_witness :
  exists c,
    main decimal 0%Q 20 "x ; 1" = Some c
    /\ CurTok (globals c) = tok_eof
    /\ LastChar (globals c) = EOF
    /\ input (globals c) = EmptyString
    /\ table_nonneg (globals c).
Proof.
  eexists. split; [vm_compute; reflexivity|].
  apply (main_reads_all_input decimal 0%Q 20 "x ; 1").
  vm_compute. reflexivity.
Defined.

Lemma main_hangs_on_comment_witness :
  main decimal 0%Q 1000 "1+2 # sum" = None.
Proof.
  exact (main_hangs_on_comment decimal 0%Q "1+2 # sum" eq_refl 1000).
Defined.

Lemma main_output_witness :
  exists c,
    main decimal 0%Q 60 "def f(x, y) x" = Some c
    /\ forallb (fun l => parsed_line l || error_line l) (stdout c) = true
    /\ length (stderr (globals c)) = length (List.filter error_line (stdout c))
    /\ (length (stdout c) + 2 <= prompts c)%nat.
Proof.
  eexists. split; [vm_compute; reflexivity|].
  apply (main_output decimal 0%Q 60 "def f(x, y) x").
  vm_compute. reflexivity.
Defined.

Lemma parser_terminates_witness :
  exists r s',
    ParseExpression decimal 59 (seed (start 0%Q "1+2")) = Some (r, s')
    /\ Advance (seed (start 0%Q "1+2")) (is_node r) s'.
Proof.
  refine (proj1 (parser_terminates decimal 59 (seed (start 0%Q "1+2")) _ _)).
  - split; [right; exists " "%char; reflexivity|].
    split; [reflexivity | discriminate].
  - vm_compute. lia.
Defined.

Lemma main_terminates_witness :
  exists c, forall n,
    (12 * String.length "def f(x) x*x" + 18 <= n)%nat ->
    main decimal 0%Q n "def f(x) x*x" = Some c.
Proof.
  exact (main_terminates decimal 0%Q "def f(x) x*x" eq_refl).
Defined.

Lemma ParseExtern_text_witness :
  exists fuel s',
    from_text decimal 0%Q (ParseExtern decimal) fuel "extern atan2(y x);"
    = Some (Some (MkPrototypeAST "atan2" ["y"; "x"]), s')
    /\ stderr s' = [] /\ BinopPrecedence s' = seed_table ∅.
Proof.
  exact (ParseExtern_text decimal 0%Q EmptyString " "
           (MkProto "atan2" EmptyString [(EmptyString, "y"); (" ", "x")]
              EmptyString)
           ";" eq_refl eq_refl eq_refl eq_refl).
Defined.

Lemma ParseExpression_token_count_witness :
  exists s e s',
    main_init decimal 0%Q 10 "1+2*x" = Some s
    /\ ParseExpression decimal 10 s = Some (Some e, s')
    /\ Path decimal (weight e) s s' /\ (1 <= weight e)%nat
    /\ stderr s' = stderr s.
Proof.
  eexists. eexists. eexists. split; [vm_compute; reflexivity|].
  split; [vm_compute; reflexivity|].
  apply (ParseExpression_token_count decimal 0%Q "1+2*x" _ 10%nat).
  - apply rtc_once. eapply (Step_getNextToken decimal 10%nat).
    vm_compute. reflexivity.
  - vm_compute. reflexivity.
Defined.

Lemma parser_output_well_formed_witness :
  exists e s',
    ParseExpression decimal 10
      (set_CurTok tok_identifier
         (set_IdentifierStr "f"
            (read_LastChar (set_input "() ; 2" (seed (start 0%Q "f() ; 2"))))))
    = Some (Some e, s')
    /\ well_formed e.
Proof.
  eexists. eexists. split; [vm_compute; reflexivity|].
  eapply (proj1 (parser_output_well_formed decimal 0%Q "f() ; 2"
                  (set_CurTok tok_identifier
                     (set_IdentifierStr "f"
                        (read_LastChar
                           (set_input "() ; 2" (seed (start 0%Q "f() ; 2"))))))
                  (rtc_once _ _
                     (Step_getNextToken decimal 10%nat
                        (seed (start 0%Q "f() ; 2")) tok_identifier
                        (set_CurTok tok_identifier
                           (set_IdentifierStr "f"
                              (read_LastChar
                                 (set_input "() ; 2"
                                    (seed (start 0%Q "f() ; 2"))))))
                        eq_refl)))
           10%nat).
  vm_compute. reflexivity.
Defined.

Lemma ParseDefintion_text_witness :
  exists fuel tr s',
    from_text decimal 0%Q (ParseDefintion decimal) fuel "def f(x y) x+y*2"
    = Some (Some (MkFunctionAST (MkPrototypeAST "f" ["x"; "y"]) tr), s')
    /\ flatten tr
       = [inl (VariableExprAST "x"); inr "+"%char; inl (VariableExprAST "y");
          inr "*"%char; inl (NumberExprAST 2%Q)]
    /\ shaped (seed_table ∅) tr
    /\ stderr s' = [] /\ CurTok s' = tok_eof.
Proof.
  exact (ParseDefintion_text decimal 0%Q EmptyString " "
           (MkProto "f" EmptyString [(EmptyString, "x"); (" ", "y")]
              EmptyString)
           " " (Var "x")
           [(EmptyString, "+"%char, EmptyString, Var "y");
            (EmptyString, "*"%char, EmptyString, Num "2")]
           EmptyString eq_refl eq_refl eq_refl).
Defined.

Lemma main_program_witness :
  exists fuel c,
    main decimal 0%Q fuel "def f(x y) x+y*2
extern g(a)
f + 1 < g
"
    = Some c
    /\ stdout c = ["Parsed a function defintion "; "Parsed an extern";
                   "Parsed a top level expression"]
    /\ stderr (globals c) = []
    /\ prompts c = 5%nat
    /\ CurTok (globals c) = tok_eof.
Proof.
  exact (main_program decimal 0%Q
           [(EmptyString,
             Def " " (MkProto "f" EmptyString
                        [(EmptyString, "x"); (" ", "y")] EmptyString)
               " " (Var "x")
               [(EmptyString, "+"%char, EmptyString, Var "y");
                (EmptyString, "*"%char, EmptyString, Num "2")]);
            (String "010" EmptyString,
             Extern " " (MkProto "g" EmptyString [(EmptyString, "a")]
                           EmptyString));
            (String "010" EmptyString,
             Expr (Var "f")
               [(" ", "+"%char, " ", Num "1");
                (" ", "<"%char, " ", Var "g")])]
           (String "010" EmptyString) eq_refl eq_refl).
Defined.


Lemma ParseExpression_precedence_witness :
  (exists s',
     from_text decimal 0%Q (ParseExpression decimal) 12 "(1+2)*3"
     = Some (None, s')
     /\ stderr s' = ["unknown token when expecting an expression"]
     /\ CurTok s' = chr "*")
  /\ (exists fuel s',
        from_text decimal 0%Q (ParseExpression decimal) fuel "x*y + 1<2"
        = Some (Some (BinaryExprAST "<"
                        (BinaryExprAST "+"
                           (BinaryExprAST "*" (VariableExprAST "x")
                              (VariableExprAST "y"))
                           (NumberExprAST 1%Q))
                        (NumberExprAST 2%Q)), s')).
Proof.
  destruct (ParseExpression_precedence decimal 0%Q)
    as (F & _ & _ & _ & C & _).
  split; [exact (F 0%nat)|].
  destruct (C EmptyString (Var "x")
              [(EmptyString, "*"%char, EmptyString, Var "y");
               (" ", "+"%char, " ", Num "1");
               (EmptyString, "<"%char, EmptyString, Num "2")]
              eq_refl eq_refl eq_refl)
    as (fuel & t & s' & E & _ & _ & U).
  exists fuel, s'.
  rewrite <- (U (BinaryExprAST "<"
                   (BinaryExprAST "+"
                      (BinaryExprAST "*" (VariableExprAST "x")
                         (VariableExprAST "y"))
                      (NumberExprAST 1%Q))
                   (NumberExprAST 2%Q))) in E.
  - exact E.
  - reflexivity.
  - cbn [shaped root_ge]. unfold prec_in.
    repeat split; vm_compute; discriminate.
Defined.
